(** * Perceptia: the weight-initialisation protocol of [BaseModule]

    A shallow embedding of [perceptia/modules/base_module.py].

    A tree of modules is an immutable shape (class name, [init_cfg],
    directly owned parameters, children in declaration order).  What
    Python mutates lives in an explicit store: the attributes [_is_init]
    and [_params_init_info] of every module object, the heap of tracking
    dictionaries (a module holds a reference, so the dictionary is shared
    and never copied), the parameter buffers, and the chronological
    record of what was handed to the logger, to the file handler and to
    the rule-dispatch collaborators.

    A module object is identified by its position: the path of child
    indices leading to it.  The tree is a tree (no module is registered
    under two parents), which is the precondition the protocol is
    specified under. *)

From Stdlib Require Import ZArith String Ascii.
From stdpp Require Import base option list strings gmap.

Local Open Scope string_scope.
Local Open Scope list_scope.
Local Open Scope nat_scope.

Set Warnings "-register-all".

(** ** Python values occurring in an [init_cfg] *)

Inductive pyval :=
  | PNone
  | PBool (b : bool)
  | PInt (z : Z)
  | PStr (s : string)
  | PClass (name : string)
  | PList (items : list pyval)
  | PDict (items : list (string * pyval)).

(** [bool(v)]: [None], [False], [0], the empty string, list and dict are
    falsy. *)
Definition truthy (v : pyval) : bool :=
  match v with
  | PNone => false
  | PBool b => b
  | PInt z => negb (z =? 0)%Z
  | PStr s => negb (String.eqb s "")
  | PClass _ => true
  | PList l => match l with [] => false | _ => true end
  | PDict l => match l with [] => false | _ => true end
  end.

(** [d.get(k)] on the items of a dict. *)
Fixpoint dict_get (k : string) (items : list (string * pyval)) : pyval :=
  match items with
  | [] => PNone
  | (k', v) :: r => if String.eqb k k' then v else dict_get k r
  end.

(** Lists and dicts are unhashable: testing them for membership in a set
    raises [TypeError]. *)
Definition hashable (v : pyval) : bool :=
  match v with
  | PList _ | PDict _ => false
  | _ => true
  end.

(** [v in {"Pretrained", PretrainedInit}] for a hashable [v]. *)
Definition is_pretrained_type (v : pyval) : bool :=
  match v with
  | PStr s => String.eqb s "Pretrained"
  | PClass c => String.eqb c "PretrainedInit"
  | _ => false
  end.

(** ** The shape of a module tree *)

Abbreviation path := (list nat).

(** A parameter object: its identity, by which the tracking dictionary
    is keyed and its buffer is found, and the text of [param.shape]. *)
Record param := { p_id : nat; p_shape : string }.

(** A module: the name of its class, whether it has an [init_weights]
    method, its [init_cfg], the parameters registered on it and its
    children, both by name and in registration order.  A module with
    [init_weights] is a [BaseModule] (or one of the three containers,
    which inherit the method and the attributes unchanged); a module
    without is a plain [nn.Module], which has neither the method nor
    [is_init]. *)
Inductive module :=
  Module (cls : string) (has_init_weights : bool) (init_cfg : pyval)
         (parameters : list (string * param))
         (children : list (string * module)).

Definition cls (m : module) : string :=
  match m with Module c _ _ _ _ => c end.
Definition has_init_weights (m : module) : bool :=
  match m with Module _ h _ _ _ => h end.
Definition init_cfg (m : module) : pyval :=
  match m with Module _ _ cfg _ _ => cfg end.
Definition parameters (m : module) : list (string * param) :=
  match m with Module _ _ _ ps _ => ps end.
Definition children (m : module) : list (string * module) :=
  match m with Module _ _ _ _ ch => ch end.

(** Concatenation of [f i x] over a list, [i] counting from a start index. *)
Definition flat_mapi {A B} (f : nat → A → list B) :=
  fix go (i : nat) (l : list A) : list B :=
    match l with
    | [] => []
    | x :: r => f i x ++ go (S i) r
    end.

(** [self.modules()]: the module itself, then the modules of each child,
    in declaration order. *)
Fixpoint modules (p : path) (m : module) : list path :=
  match m with
  | Module _ _ _ _ ch =>
      p :: flat_mapi (fun i c => modules (p ++ [i]) (snd c)) 0 ch
  end.

(** The order in which the nodes of a tree finish their own pass: every
    child subtree, in declaration order, then the node itself. *)
Fixpoint completion_order (p : path) (m : module) : list path :=
  match m with
  | Module _ _ _ _ ch =>
      flat_mapi (fun i (c : string * module) => completion_order (p ++ [i]) (snd c)) 0 ch ++ [p]
  end.

Definition qualify (prefix name : string) : string :=
  if String.eqb prefix "" then name else prefix +:+ "." +:+ name.

Fixpoint named_parameters_raw (prefix : string) (m : module)
  : list (string * param) :=
  match m with
  | Module _ _ _ ps ch =>
      map (fun np => (qualify prefix (fst np), snd np)) ps ++
      flat_map (fun nc => named_parameters_raw (qualify prefix (fst nc)) (snd nc)) ch
  end.

(** A parameter object reachable under several names is reported once,
    under the first. *)
Fixpoint dedup_by_id (seen : gset nat) (l : list (string * param))
  : list (string * param) :=
  match l with
  | [] => []
  | np :: r =>
      if bool_decide (p_id (snd np) ∈ seen) then dedup_by_id seen r
      else np :: dedup_by_id ({[ p_id (snd np) ]} ∪ seen) r
  end.

(** [self.named_parameters()] *)
Definition named_parameters (m : module) : list (string * param) :=
  dedup_by_id ∅ (named_parameters_raw "" m).

(** ** Events, exceptions *)

Inductive level := DEBUG | INFO | WARNING.

(** A handler of the logger.  A [FileHandler] has a stream, or has
    [None] in its place: it was created with [delay=True] and has not
    emitted yet, or it was closed. *)
Inductive handler := FileHandler (has_stream : bool) | StreamHandler.

Inductive exn :=
  | AssertionError
  | TypeError
  | KeyError
  | AttributeError
  | RuntimeError
  | OtherError (name : string).

Inductive outcome := Ok | Raise (e : exn).

Inductive event :=
  | ELog (lv : level) (msg : string)
  | EWrite (h : nat) (txt : string)
  | EFlush (h : nat)
  | EInstall (p : path) (l : nat)
  | ECleanup (p : path)
  | EApply (p : path) (cfg : pyval)
  | EApplyFailed (p : path) (cfg : pyval) (e : exn)
  | EUpdateInfo (p : path) (info : string).

(** ** Splitting [init_cfg] (lines 69-80) *)

Fixpoint split_cfgs (cfgs other_cfgs pretrained_cfgs : list pyval)
  : exn + (list pyval * list pyval) :=
  match cfgs with
  | [] => inr (other_cfgs, pretrained_cfgs)
  | cfg :: r =>
      match cfg with
      | PDict items =>
          let ty := dict_get "type" items in
          if negb (hashable ty) then inl TypeError
          else if is_pretrained_type ty
               then split_cfgs r other_cfgs (pretrained_cfgs ++ [cfg])
               else split_cfgs r (other_cfgs ++ [cfg]) pretrained_cfgs
      | _ => inl AssertionError
      end
  end.

Definition cfg_list (cfg : pyval) : list pyval :=
  match cfg with
  | PList l => l
  | _ => [cfg]
  end.

Definition partition_cfg (cfg : pyval) : exn + (list pyval * list pyval) :=
  if truthy cfg then split_cfgs (cfg_list cfg) [] [] else inr ([], []).

Definition nl : string := String (ascii_of_nat 10) EmptyString.

Definition unchanged_info (c : string) : string :=
  "The value is unchanged before and after `init_weights` of " +:+ c.

Definition multiple_times_msg (c : string) : string :=
  c +:+ ".init_weights() called multiple times.".

Definition child_info (c : string) : string :=
  "Initialized by user-defined init_weights in " +:+ c.

Definition report_header : string :=
  "Name of parameter - Initialization information" +:+ nl.

Definition report_line (name shape info : string) : string :=
  nl +:+ name +:+ " - " +:+ shape +:+ ":" +:+ nl +:+ info +:+ nl.

(** The first handler of the logger that is a [FileHandler]: its index,
    and whether it has a stream. *)
Fixpoint first_file_handler (i : nat) (hs : list handler) : option (nat * bool) :=
  match hs with
  | [] => None
  | FileHandler o :: _ => Some (i, o)
  | StreamHandler :: r => first_file_handler (S i) r
  end.

(** ** [unwrap_model] (line 88)

    [transformers.modeling_utils.unwrap_model], which the loop over the
    children calls, is not part of the sources at hand:
    [if hasattr(model, "module"): return unwrap_model(model.module)
     else: return model].
    On a module, [model.module] is the parameter registered under the
    name ["module"], if there is one, else the child of that name.  A
    parameter has no attribute [module], so it is what is returned then;
    it is no module, and has neither [init_weights] nor [is_init].

    [on_unwrapped k d q c] is [k] at the module [unwrap_model] returns
    for the module [c] at position [q], and [d] when what it returns is
    a parameter; [child_named_module] is the search for the child. *)
Definition child_named_module {A} (here : A) (unwrap : path → module → A)
           (q : path) :=
  fix find (i : nat) (l : list (string * module)) {struct l} : A :=
    match l with
    | [] => here
    | nc :: r =>
        if String.eqb (fst nc) "module" then unwrap (q ++ [i]) (snd nc)
        else find (S i) r
    end.

Definition on_unwrapped {A} (k : path → module → A) (d : A) :=
  fix unwrap (q : path) (c : module) {struct c} : A :=
    match c with
    | Module _ _ _ ps ch =>
        if existsb (fun np => String.eqb (fst np) "module") ps then d
        else child_named_module (k q c) unwrap q 0 ch
    end.

Definition unwrap_model (q : path) (c : module) : option (path * module) :=
  on_unwrapped (fun q' c' => Some (q', c')) None q c.

Declare Scope M_scope.
Delimit Scope M_scope with M.

Section Engine.

(** Parameter buffers and the statistic [param.data.mean().cpu()],
    which raises on a buffer it is not defined for (one of integers,
    for instance): [None]. *)
Context {tensor scalar : Type}.
Variable mean : tensor → option scalar.

(** The text Python prints for an [init_cfg] in the debug message. *)
Variable py_repr : pyval → string.

(** One value of the tracking dictionary: a dict with the keys
    ["init_info"] and ["tmp_mean_value"], either of which may be
    missing. *)
Record entry := { init_info : option string; tmp_mean_value : option scalar }.

(** What the rule-dispatch collaborators may read and write: the
    parameter buffers and the tracking dictionaries.  [dicts w l] is the
    [defaultdict] at reference [l], keyed by parameter identity. *)
Record world := { tensors : nat → tensor; dicts : nat → gmap nat entry }.

(** The collaborators of [perceptia/modules/initialization.py], which
    is not part of the sources at hand.  Each is given the module it is
    called on, returns or raises an exception of its choosing, and
    leaves a world behind in both cases. *)
Variable dispatch : path → module → pyval → world → outcome * world.
Variable update_init_info : path → module → string → world → outcome * world.

Record state := {
  _is_init : gmap path bool;
  _params_init_info : gmap path nat;
  st_world : world;
  next_ref : nat;
  log_handlers : list handler;
  trace : list event }.

Definition emit (e : event) (s : state) : state :=
  {| _is_init := _is_init s; _params_init_info := _params_init_info s;
     st_world := st_world s; next_ref := next_ref s;
     log_handlers := log_handlers s; trace := trace s ++ [e] |}.

Definition set_world (w : world) (s : state) : state :=
  {| _is_init := _is_init s; _params_init_info := _params_init_info s;
     st_world := w; next_ref := next_ref s;
     log_handlers := log_handlers s; trace := trace s |}.

Definition set_is_init (p : path) (b : bool) (s : state) : state :=
  {| _is_init := <[p := b]> (_is_init s);
     _params_init_info := _params_init_info s;
     st_world := st_world s; next_ref := next_ref s;
     log_handlers := log_handlers s; trace := trace s |}.

Definition set_info_attrs (a : gmap path nat) (s : state) : state :=
  {| _is_init := _is_init s; _params_init_info := a;
     st_world := st_world s; next_ref := next_ref s;
     log_handlers := log_handlers s; trace := trace s |}.

(** Computations: a state transformer that returns or raises. *)
Definition M := state → outcome * state.

Definition ret : M := fun s => (Ok, s).
Definition raise (e : exn) : M := fun s => (Raise e, s).
Definition bind (c k : M) : M :=
  fun s => match c s with
           | (Ok, s') => k s'
           | r => r
           end.
Definition tell (e : event) : M := fun s => (Ok, emit e s).
Definition when (b : bool) (c : M) : M := if b then c else ret.

Bind Scope M_scope with M.
Notation "c ;; k" := (bind c k)
  (at level 100, k at level 200, right associativity) : M_scope.
Local Open Scope M_scope.

(** *** Tracking installation (lines 50-61) *)

(** The loop of lines 53-57 over [self.named_parameters()], on the
    dictionary created at line 50: for each parameter the description
    is stored (line 54, in the entry the [defaultdict] has or creates
    for it), then the mean is taken and stored (line 57).  If taking
    the mean raises, the loop stops there: [false], with the dictionary
    as it is by then. *)
Fixpoint fill_dict (c : string) (w : world) (nps : list (string * param))
         (d : gmap nat entry) : bool * gmap nat entry :=
  match nps with
  | [] => (true, d)
  | np :: r =>
      let i := p_id (snd np) in
      let e := default {| init_info := None; tmp_mean_value := None |} (d !! i) in
      let d1 := <[i := {| init_info := Some (unchanged_info c);
                          tmp_mean_value := tmp_mean_value e |}]> d in
      match mean (tensors w i) with
      | None => (false, d1)
      | Some v =>
          fill_dict c w r
            (<[i := {| init_info := Some (unchanged_info c);
                       tmp_mean_value := Some v |}]> d1)
      end
  end.

Definition attach (l : nat) (qs : list path) (a : gmap path nat)
  : gmap path nat :=
  foldl (fun a q => <[q := l]> a) a qs.

Definition put_dict (l : nat) (d : gmap nat entry) (w : world) : world :=
  {| tensors := tensors w;
     dicts := fun l' => if decide (l' = l) then d else dicts w l' |}.

(** Lines 50-61.  The new dictionary is an attribute of [self] from
    line 50 on; the other modules get it at lines 60-61, which are
    reached only if the loop over the parameters did not raise. *)
Definition install_tracking (p : path) (m : module) : M :=
  fun s =>
    let l := next_ref s in
    let w := st_world s in
    match fill_dict (cls m) w (named_parameters m) ∅ with
    | (true, d) =>
        (Ok,
         {| _is_init := _is_init s;
            _params_init_info := attach l (modules p m) (<[p := l]> (_params_init_info s));
            st_world := put_dict l d w;
            next_ref := S l;
            log_handlers := log_handlers s;
            trace := trace s ++ [EInstall p l] |})
    | (false, d) =>
        (Raise RuntimeError,
         {| _is_init := _is_init s;
            _params_init_info := <[p := l]> (_params_init_info s);
            st_world := put_dict l d w;
            next_ref := S l;
            log_handlers := log_handlers s;
            trace := trace s ++ [EInstall p l] |})
    end.

(** *** [_finalize_init] (lines 104-126) *)

(** One pass over [self.named_parameters()], reading
    [self._params_init_info[param]["init_info"]] and handing the line to
    [out].  Reading a missing parameter from a [defaultdict] creates an
    empty value before the missing key raises. *)
Fixpoint report_loop (out : string → event) (p : path)
         (nps : list (string * param)) : M :=
  match nps with
  | [] => ret
  | (name, prm) :: r => fun s =>
      match _params_init_info s !! p with
      | None => (Raise AttributeError, s)
      | Some l =>
          let w := st_world s in
          match dicts w l !! p_id prm with
          | None =>
              let e := {| init_info := None; tmp_mean_value := None |} in
              (Raise KeyError,
               set_world (put_dict l (<[p_id prm := e]> (dicts w l)) w) s)
          | Some e =>
              match init_info e with
              | None => (Raise KeyError, s)
              | Some info =>
                  report_loop out p r
                    (emit (out (report_line name (p_shape prm) info)) s)
              end
          end
      end
  end.

Fixpoint cleanup_loop (qs : list path) : M :=
  match qs with
  | [] => ret
  | q :: r => fun s =>
      match _params_init_info s !! q with
      | None => (Raise AttributeError, s)
      | Some _ =>
          cleanup_loop r (set_info_attrs (delete q (_params_init_info s)) s)
      end
  end.

(** Lines 107-122: to the first [FileHandler] of the logger if there is
    one, else to the logger at level info.  A [FileHandler] without a
    stream makes the write of line 111 raise, [None] having no
    [write]. *)
Definition dump_info (p : path) (m : module) : M :=
  fun s =>
    match first_file_handler 0 (log_handlers s) with
    | Some (h, true) =>
        (tell (EWrite h report_header) ;;
         report_loop (EWrite h) p (named_parameters m) ;;
         tell (EFlush h)) s
    | Some (h, false) => (Raise AttributeError, s)
    | None => report_loop (ELog INFO) p (named_parameters m) s
    end.

Definition _finalize_init (p : path) (m : module) : M :=
  dump_info p m ;;
  cleanup_loop (modules p m) ;;
  tell (ECleanup p).

(** *** The collaborators *)

Definition call_dispatch (p : path) (m : module) (cfg : pyval) : M :=
  fun s =>
    match dispatch p m cfg (st_world s) with
    | (Ok, w) => (Ok, emit (EApply p cfg) (set_world w s))
    | (Raise e, w) =>
        (Raise e, emit (EApplyFailed p cfg e) (set_world w s))
    end.

(** Modelled from the spec: [initialize(module, cfgs)] of
    [initialization.py] is missing; the rules it is given are applied in
    order, each through the dispatch collaborator, and the first failure
    propagates. *)
Fixpoint initialize (p : path) (m : module) (cfgs : list pyval) : M :=
  match cfgs with
  | [] => ret
  | cfg :: r => call_dispatch p m cfg ;; initialize p m r
  end.

Definition call_update_init_info (p : path) (m : module) (info : string) : M :=
  fun s =>
    match update_init_info p m info (st_world s) with
    | (Ok, w) => (Ok, emit (EUpdateInfo p info) (set_world w s))
    | (Raise e, w) => (Raise e, set_world w s)
    end.

(** *** [init_weights] (lines 44-102) *)

(** [getattr(target, "is_init", False)] *)
Definition is_init_getattr (s : state) (q : path) : bool :=
  default false (_is_init s !! q).

(** One iteration of the loop over [self.children()] (lines 88-93), for
    the child [c] at position [q]: the test and the two calls are made
    on [target = unwrap_model(child)]. *)
Definition child_step (visit : path → module → M) (q : path) (c : module) : M :=
  on_unwrapped
    (fun q' target => fun s =>
       if has_init_weights target && negb (is_init_getattr s q') then
         (visit q' target ;;
          call_update_init_info q' target (child_info (cls target))) s
       else (Ok, s))
    ret q c.

Definition for_children (visit : path → module → M) (p : path) :=
  fix loop (i : nat) (cs : list (string * module)) : M :=
    match cs with
    | [] => ret
    | nc :: r => child_step visit (p ++ [i]) (snd nc) ;; loop (S i) r
    end.

Definition nonempty {A} (l : list A) : bool :=
  match l with [] => false | _ => true end.

Definition has_tracking (s : state) (p : path) : bool :=
  bool_decide (is_Some (_params_init_info s !! p)).

Definition mark_init (p : path) : M := fun s => (Ok, set_is_init p true s).

Definition warn_multiple (c : string) : M :=
  tell (ELog WARNING (multiple_times_msg c)).

Definition debug_init_cfg (c : string) (cfg : pyval) : M :=
  tell (ELog DEBUG ("Initializing " +:+ c +:+ " with init_cfg=" +:+ py_repr cfg)).

Fixpoint init_weights (p : path) (m : module) {struct m} : M :=
  fun s =>
  match m with
  | Module c hw cfg _ ch =>
    if negb hw then (Raise AttributeError, s) else
    let is_top_level := negb (has_tracking s p) in
    (when is_top_level (install_tracking p m) ;;
     fun s0 =>
     match _is_init s0 !! p with
     | None => (Raise AttributeError, s0)
     | Some true =>
         (warn_multiple c ;; when is_top_level (_finalize_init p m)) s0
     | Some false =>
         (when (truthy cfg) (debug_init_cfg c cfg) ;;
          fun s1 =>
            match partition_cfg cfg with
            | inl e => (Raise e, s1)
            | inr (other_cfgs, pretrained_cfgs) =>
                (when (nonempty other_cfgs) (initialize p m other_cfgs) ;;
                 for_children init_weights p 0 ch ;;
                 when (nonempty pretrained_cfgs) (initialize p m pretrained_cfgs) ;;
                 mark_init p ;;
                 when is_top_level (_finalize_init p m)) s1
            end) s0
     end) s
  end.

(** Lines 63-99 for a call that is not top-level: the guard, the split,
    the three phases and the flag. *)
Definition traverse (p : path) (m : module) : M :=
  fun s0 =>
    match _is_init s0 !! p with
    | None => (Raise AttributeError, s0)
    | Some true => warn_multiple (cls m) s0
    | Some false =>
        (when (truthy (init_cfg m)) (debug_init_cfg (cls m) (init_cfg m)) ;;
         fun s1 =>
           match partition_cfg (init_cfg m) with
           | inl e => (Raise e, s1)
           | inr (other_cfgs, pretrained_cfgs) =>
               (when (nonempty other_cfgs) (initialize p m other_cfgs) ;;
                for_children init_weights p 0 (children m) ;;
                when (nonempty pretrained_cfgs) (initialize p m pretrained_cfgs) ;;
                mark_init p) s1
           end) s0
    end.

End Engine.


(** ** The caller's objects and [copy.deepcopy] (line 27)

    The argument of the constructor is an object of the caller.  Lists
    and dicts are objects in a heap, addressed by their index and held
    through references, so that two holders of a reference see each
    other's mutations; everything else is immutable.  Allocation appends
    to the heap. *)

Inductive hval :=
  | HNone
  | HBool (b : bool)
  | HInt (z : Z)
  | HStr (s : string)
  | HClass (name : string)
  | HRef (l : nat).

Inductive hobj :=
  | HList (items : list hval)
  | HDict (items : list (string * hval)).

Abbreviation heap := (list hobj).

(** The members of an object in iteration order, a dict member with its
    key. *)
Definition slots (o : hobj) : list (option string * hval) :=
  match o with
  | HList xs => (fun a => (None, a)) <$> xs
  | HDict kvs => (fun kv => (Some (fst kv), snd kv)) <$> kvs
  end.

(** [y = []] or [y = {}] *)
Definition empty_like (o : hobj) : hobj :=
  match o with
  | HList _ => HList []
  | HDict _ => HDict []
  end.

(** [d[k] = v] *)
Fixpoint dict_set (k : string) (v : hval) (kvs : list (string * hval))
  : list (string * hval) :=
  match kvs with
  | [] => [(k, v)]
  | kv :: r => if String.eqb k (fst kv) then (k, v) :: r else kv :: dict_set k v r
  end.

(** [y.append(v)] or [y[key] = v] *)
Definition store_slot (tag : option string) (v : hval) (o : hobj) : hobj :=
  match o, tag with
  | HList ys, None => HList (ys ++ [v])
  | HDict kvs, Some k => HDict (dict_set k v kvs)
  | _, _ => o
  end.

Abbreviation cstate := (heap * gmap nat nat)%type.

(** The loop of [_deepcopy_list] and [_deepcopy_dict] over the members
    of the source, filling the copy at [l']. *)
Definition copy_slots (cp : hval → cstate → option (hval * cstate)) (l' : nat) :=
  fix go (sl : list (option string * hval)) (st : cstate) : option cstate :=
    match sl with
    | [] => Some st
    | ta :: r =>
        match cp (snd ta) st with
        | Some (a', (h, mm)) => go r (alter (store_slot (fst ta) a') l' h, mm)
        | None => None
        end
    end.

(** [copy.deepcopy(x, memo)].  The memo maps a source object to its
    copy and is consulted first, which is what makes shared and cyclic
    structures come out shared and cyclic; immutable values are returned
    as they are.  [fuel] bounds the nesting of the recursion. *)
Fixpoint deepcopy (fuel : nat) (x : hval) (st : cstate) : option (hval * cstate) :=
  match x with
  | HRef l =>
      match snd st !! l with
      | Some l' => Some (HRef l', st)
      | None =>
          match fuel, fst st !! l with
          | S fuel', Some o =>
              let l' := length (fst st) in
              match copy_slots (deepcopy fuel') l' (slots o)
                      (fst st ++ [empty_like o], <[l := l']> (snd st)) with
              | Some st' => Some (HRef l', st')
              | None => None
              end
          | _, _ => None
          end
      end
  | _ => Some (x, st)
  end.

(** [BaseModule.__init__] (lines 25-28), as far as [init_cfg] goes: the
    attribute holds the deep copy. *)
Definition BaseModule__init__ (fuel : nat) (init_cfg : hval) (h : heap)
  : option (hval * heap) :=
  match deepcopy fuel init_cfg (h, ∅) with
  | Some (y, (h', _)) => Some (y, h')
  | None => None
  end.

(** The value a reference stands for, read off the heap down to a given
    depth. *)
Fixpoint decode (depth : nat) (h : heap) (v : hval) : option pyval :=
  match v with
  | HNone => Some PNone
  | HBool b => Some (PBool b)
  | HInt z => Some (PInt z)
  | HStr s => Some (PStr s)
  | HClass c => Some (PClass c)
  | HRef l =>
      match depth, h !! l with
      | S d, Some (HList xs) => PList <$> mapM (decode d h) xs
      | S d, Some (HDict kvs) =>
          PDict <$> mapM (fun kv => pair (fst kv) <$> decode d h (snd kv)) kvs
      | _, _ => None
      end
  end.

(** A node of class [c] whose [init_cfg] attribute is the reference [v]
    into the heap [h]. *)
Definition node_of (depth : nat) (h : heap) (c : string) (v : hval)
           (ps : list (string * param)) (ch : list (string * module))
  : option module :=
  (fun cfg => Module c true cfg ps ch) <$> decode depth h v.

(** No reference of the heap, or of a value, dangles, and the keys of a
    dict are distinct. *)
Definition val_wf (n : nat) (v : hval) : Prop :=
  match v with
  | HRef l => l < n
  | _ => True
  end.

Definition obj_wf (n : nat) (o : hobj) : Prop :=
  Forall (fun ta => val_wf n (snd ta)) (slots o) ∧
  match o with
  | HList _ => True
  | HDict kvs => NoDup (fst <$> kvs)
  end.

Definition heap_wf (h : heap) : Prop := Forall (obj_wf (length h)) h.

(** [y] is the image of [x] under the memo. *)
Definition vrel (mm : gmap nat nat) (x y : hval) : Prop :=
  match x with
  | HRef l => ∃ l', mm !! l = Some l' ∧ y = HRef l'
  | _ => y = x
  end.

(** [o'] is the copy of [o]: the same kind of object, member by member
    the image under the memo. *)
Definition orel (mm : gmap nat nat) (o o' : hobj) : Prop :=
  match o, o' with
  | HList xs, HList ys => Forall2 (vrel mm) xs ys
  | HDict kvs, HDict kvs' =>
      Forall2 (fun kv kv' => fst kv = fst kv' ∧ vrel mm (snd kv) (snd kv')) kvs kvs'
  | _, _ => False
  end.

Definition slot_rel (mm : gmap nat nat) (ta ta' : option string * hval) : Prop :=
  fst ta = fst ta' ∧ vrel mm (snd ta) (snd ta').

Definition same_kind (o o' : hobj) : Prop :=
  match o, o' with
  | HList _, HList _ | HDict _, HDict _ => True
  | _, _ => False
  end.

(** A state of a copy of values of the heap [h0]: the objects of [h0] are
    in place, and the memo maps objects of [h0] to objects allocated
    since. *)
Definition copying (h0 : heap) (st : cstate) : Prop :=
  (∀ l o, h0 !! l = Some o → fst st !! l = Some o) ∧
  ∀ l l', snd st !! l = Some l' →
          l < length h0 ∧ length h0 ≤ l' < length (fst st).

(** What a copy started in [st] has done when it is in [st']: objects
    that existed, and that [keep] holds of, are as they were; the memo
    has grown; and every object the memo has gained is a complete copy,
    allocated since. *)
Definition copy_post (h0 : heap) (keep : nat → Prop) (st st' : cstate) : Prop :=
  copying h0 st' ∧
  (∀ l, l < length (fst st) → keep l → fst st' !! l = fst st !! l) ∧
  length (fst st) ≤ length (fst st') ∧
  snd st ⊆ snd st' ∧
  ∀ l l', snd st' !! l = Some l' → snd st !! l = None →
          length (fst st) ≤ l' ∧
          ∃ o o', h0 !! l = Some o ∧ fst st' !! l' = Some o' ∧
                  orel (snd st') o o'.

(** The objects that can be reached from a value by following
    references: the object it refers to, and what the members of that
    object reach. *)
Inductive reaches (h : heap) : hval → nat → Prop :=
  | reaches_here l : reaches h (HRef l) l
  | reaches_member l o v l' :
      h !! l = Some o → v ∈ snd <$> slots o → reaches h v l' →
      reaches h (HRef l) l'.

(** No two source objects have the same copy. *)
Definition one_to_one (mm : gmap nat nat) : Prop :=
  ∀ l1 l2 l', mm !! l1 = Some l' → mm !! l2 = Some l' → l1 = l2.

(** * What is observed of a call *)

(** The node an event is about; what the logger and the file handler
    receive is about no node in particular. *)
Definition ev_path (e : event) : option path :=
  match e with
  | EInstall p _ | ECleanup p | EApply p _ | EApplyFailed p _ _
  | EUpdateInfo p _ => Some p
  | ELog _ _ | EWrite _ _ | EFlush _ => None
  end.

Definition ev_within (N : list path) (e : event) : Prop :=
  match ev_path e with
  | Some q => q ∈ N
  | None => True
  end.

Definition is_tracking_event (e : event) : bool :=
  match e with
  | EInstall _ _ | ECleanup _ => true
  | _ => false
  end.

Definition is_rule_event (e : event) : bool :=
  match e with
  | EApply _ _ | EApplyFailed _ _ _ => true
  | _ => false
  end.

(** A call into [initialization.py]: a rule handed to dispatch, or
    [update_init_info]. *)
Definition is_collaborator_event (e : event) : bool :=
  match e with
  | EApply _ _ | EApplyFailed _ _ _ | EUpdateInfo _ _ => true
  | _ => false
  end.

Definition is_warning (e : event) : bool :=
  match e with
  | ELog WARNING _ => true
  | _ => false
  end.

(** The rules an [init_cfg] stands for: none when it is falsy ([None],
    an empty list, an empty dict), its items when it is a list, itself
    otherwise. *)
Definition rules_of (cfg : pyval) : list pyval :=
  if truthy cfg then cfg_list cfg else [].

(** A rule is tagged Override when it is a dict whose ["type"] is the
    string ["Pretrained"] or the class [PretrainedInit]. *)
Definition is_override (cfg : pyval) : bool :=
  match cfg with
  | PDict items => is_pretrained_type (dict_get "type" items)
  | _ => false
  end.

(** A rule the splitting loop accepts: a dict whose ["type"], if any, is
    hashable. *)
Definition rule_ok (cfg : pyval) : bool :=
  match cfg with
  | PDict items => hashable (dict_get "type" items)
  | _ => false
  end.

(** Every node of the tree is a component: it has [init_weights]. *)
Fixpoint all_components (m : module) : bool :=
  match m with
  | Module _ hw _ _ ch => hw && forallb (fun nc => all_components (snd nc)) ch
  end.

(** No module of the tree has an attribute [module], parameter or
    child: [unwrap_model] returns every one of them as it is. *)
Fixpoint no_module_attr (m : module) : bool :=
  match m with
  | Module _ _ _ ps ch =>
      negb (existsb (fun np => String.eqb (fst np) "module") ps) &&
      forallb (fun nc => negb (String.eqb (fst nc) "module") &&
                         no_module_attr (snd nc)) ch
  end.

(** The module at a position below [m]. *)
Fixpoint subtree (x : path) (m : module) : option module :=
  match x with
  | [] => Some m
  | k :: x' =>
      match children m !! k with
      | Some nc => subtree x' (snd nc)
      | None => None
      end
  end.

Section Observations.

Context {tensor scalar : Type}.

Local Abbreviation state := (@state tensor scalar).
Local Abbreviation M := (@M tensor scalar).

(** Every run of [c] relates the state it starts from to the state it
    leaves, whether it returns or raises. *)
Definition sound (R : state → state → Prop) (c : M) : Prop :=
  ∀ s r s', c s = (r, s') → R s s'.

(** Every node of [N] carries the tracking attribute. *)
Definition tracked (N : list path) (s : state) : Prop :=
  ∀ q, q ∈ N → is_Some (_params_init_info s !! q).

(** Every node of [N] lacks the tracking attribute. *)
Definition untracked (N : list path) (s : state) : Prop :=
  ∀ q, q ∈ N → _params_init_info s !! q = None.

(** What a call on the nodes [N] may change: flags only rise to [true],
    and only on [N]; the tracking attribute changes only on [N]; the
    handlers stay; events are appended, each about a node of [N]. *)
Definition frame (N : list path) (s s' : state) : Prop :=
  log_handlers s' = log_handlers s ∧
  (∀ q, _is_init s' !! q = _is_init s !! q ∨
        (q ∈ N ∧ _is_init s' !! q = Some true)) ∧
  (∀ q, q ∉ N → _params_init_info s' !! q = _params_init_info s !! q) ∧
  (next_ref s ≤ next_ref s')%nat ∧
  ∃ evs, trace s' = trace s ++ evs ∧ Forall (ev_within N) evs.

(** Started with the attribute on every node of [N], a call leaves every
    tracking attribute and the reference counter as they are, and
    neither installs nor cleans up. *)
Definition quiet (N : list path) (s s' : state) : Prop :=
  tracked N s →
  _params_init_info s' = _params_init_info s ∧
  next_ref s' = next_ref s ∧
  ∃ evs, trace s' = trace s ++ evs ∧
         Forall (fun e => is_tracking_event e = false) evs.

(** The tracking attributes once [del m._params_init_info] has run on
    every node of [qs]. *)
Definition detach (qs : list path) (a : gmap path nat) : gmap path nat :=
  foldl (fun a q => delete q a) a qs.

(** The two states agree on everything but the record of events. *)
Definition same_but_trace (s s' : state) : Prop :=
  _is_init s' = _is_init s ∧
  _params_init_info s' = _params_init_info s ∧
  st_world s' = st_world s ∧
  next_ref s' = next_ref s ∧
  log_handlers s' = log_handlers s.

End Observations.

(** What a provenance dump of the given lines looks like. *)
Definition report_events (hs : list handler) (lines : list string) : list event :=
  match first_file_handler 0 hs with
  | Some (h, true) => EWrite h report_header :: map (EWrite h) lines ++ [EFlush h]
  | Some (h, false) => []
  | None => map (ELog INFO) lines
  end.

(** The lines of a dump in which every parameter still carries the default
    description written when tracking was installed on a node of class
    [c]. *)
Definition unchanged_lines (c : string) (nps : list (string * param))
  : list string :=
  map (fun np => report_line (fst np) (p_shape (snd np)) (unchanged_info c)) nps.

(** ** The [is_init] property (lines 30-36) *)

Section Accessors.

Context {tensor scalar : Type}.

(** The getter returns the attribute [_is_init]; on an object that has
    none the read raises [AttributeError], which is [None] here. *)
Definition is_init (p : path) (s : @state tensor scalar) : option bool :=
  _is_init s !! p.

(** The setter stores the value it is given, [False] included. *)
Definition is_init_setter (p : path) (value : bool) : @M tensor scalar :=
  fun s => (Ok, set_is_init p value s).

(** The test of line 89 fails for the child [c] at [q]: what
    [unwrap_model] returns for it has no [init_weights], or its
    [is_init] reads true. *)
Definition skipped (c : module) (q : path) (s : @state tensor scalar) : bool :=
  match unwrap_model q c with
  | Some (q', target) =>
      negb (has_init_weights target && negb (is_init_getattr s q'))
  | None => true
  end.

End Accessors.

(** ** Further observations *)

(** An event is about none of the nodes [Q]. *)
Definition avoids (Q : list path) (e : event) : Prop :=
  ∀ q, q ∈ Q → ev_path e ≠ Some q.

(** A rule of the node [p] handed to dispatch. *)
Definition is_rule_of (p : path) (e : event) : bool :=
  match e with
  | EApply q _ | EApplyFailed q _ _ => bool_decide (q = p)
  | _ => false
  end.

(** A record of the provenance dump: a write to a handler, its flush, or
    a message at level info. *)
Definition is_report_event (e : event) : bool :=
  match e with
  | ELog INFO _ | EWrite _ _ | EFlush _ => true
  | _ => false
  end.

(** The logger can take the dump: there is no [FileHandler] among its
    handlers, or the first of them has a stream. *)
Definition stream_ready (hs : list handler) : bool :=
  match first_file_handler 0 hs with
  | Some (_, false) => false
  | _ => true
  end.

(** A failed dispatch. *)
Definition is_failure (e : event) : bool :=
  match e with
  | EApplyFailed _ _ _ => true
  | _ => false
  end.

(** The record of the rules [cfgs] of the node [p] handed to
    [initialize]: all of them applied when it returned; when it raised
    [e], those before the one that failed, then the failure. *)
Definition rules_record (p : path) (cfgs : list pyval) (r : outcome)
           (evs : list event) : Prop :=
  match r with
  | Ok => evs = map (EApply p) cfgs
  | Raise e =>
      ∃ applied cfg rest,
        cfgs = applied ++ cfg :: rest ∧
        evs = map (EApply p) applied ++ [EApplyFailed p cfg e]
  end.

(** The Standard and the Override rules of an [init_cfg], each group in
    the order of [init_cfg]. *)
Definition standard_rules (cfg : pyval) : list pyval :=
  List.filter (fun c => negb (is_override c)) (rules_of cfg).

Definition override_rules (cfg : pyval) : list pyval :=
  List.filter is_override (rules_of cfg).

(** The exception the splitting loop raises on an item it does not
    accept: the assertion of line 75 for what is not a dict, the set
    membership of line 77 for a dict with an unhashable ["type"]. *)
Definition split_error (c : pyval) : exn :=
  match c with
  | PDict _ => TypeError
  | _ => AssertionError
  end.

Section FurtherObservations.

Context {tensor scalar : Type}.

Local Abbreviation state := (@state tensor scalar).

(** A call leaves the nodes [Q] alone: their flags are as they were and
    no event it adds is about one of them. *)
Definition untouched (Q : list path) (s s' : state) : Prop :=
  (∀ q, q ∈ Q → _is_init s' !! q = _is_init s !! q) ∧
  ∃ evs, trace s' = trace s ++ evs ∧ Forall (avoids Q) evs.

(** Started with the attribute on every node of [N], a call is no
    top-level call: besides what [quiet] says, it adds no record of a
    provenance dump. *)
Definition nested (N : list path) (s s' : state) : Prop :=
  tracked N s →
  _params_init_info s' = _params_init_info s ∧
  next_ref s' = next_ref s ∧
  ∃ evs, trace s' = trace s ++ evs ∧
         Forall (fun e => is_tracking_event e = false ∧
                          is_report_event e = false) evs.

(** A call spares the node [q]: if [q] reads initialised when the call
    starts, it still does when the call ends, and nothing the call hands
    to a collaborator, rule or [update_init_info], is about [q]. *)
Definition spares (q : path) (s s' : state) : Prop :=
  _is_init s !! q = Some true →
  _is_init s' !! q = Some true ∧
  ∃ evs, trace s' = trace s ++ evs ∧
         Forall (fun e => is_collaborator_event e = true → ev_path e ≠ Some q) evs.

(** The mean of every parameter of the tree can be taken: line 57
    does not raise. *)
Definition mean_defined (mean : tensor → option scalar) (m : module)
           (s : state) : bool :=
  forallb (fun np => bool_decide (is_Some (mean (tensors (st_world s) (p_id (snd np))))))
          (named_parameters m).

(** The record of one iteration of the loop over the children that ran
    to its end, for the child [c0] at [q0], in a call of the function
    [run] started in [s]: nothing if the child is passed over; else the
    record of a call of [run] on what [unwrap_model] returns, which
    found it not initialised and returned, followed by
    [update_init_info]. *)
Definition child_record (run : path → module → @M tensor scalar)
           (s : state) (q0 : path) (c0 : module) (evs : list event) : Prop :=
  match unwrap_model q0 c0 with
  | Some (q, c) =>
      if has_init_weights c && negb (is_init_getattr s q) then
        ∃ sa sb,
          _is_init sa !! q = Some false ∧
          run q c sa = (Ok, sb) ∧
          _is_init sb !! q = Some true ∧
          evs = drop (length (trace sa)) (trace sb) ++
                [EUpdateInfo q (child_info (cls c))]
      else evs = []
  | None => evs = []
  end.

(** The order of the three phases of a pass over the node [p], in the
    record of a call of [run] started in [s]: [standard] is what the
    Standard rules left, [chunks] what the iterations of the loop over
    the children left, one chunk for each iteration begun, in the order
    of the children, [override] what the Override rules left;
    [finished] says that the pass ran to its end.

    Each group of rules has left nothing, or the record of [initialize]
    on it.  Chunk [k] is about nodes of the subtree of child [k] only,
    and every chunk but the last is the record of an iteration that ran
    to its end.  If anything at all was recorded for a child or for an
    Override rule, every Standard rule had been applied.  If anything
    was recorded for an Override rule, the loop had run to its end:
    there is a chunk for every child and each is the record of an
    iteration that ran to its end.  If the pass ran to its end, all of
    this holds and every Override rule was applied. *)
Definition ordered_phases (run : path → module → @M tensor scalar)
           (p : path) (m : module) (s : state) (finished : Prop)
           (standard : list event) (chunks : list (list event))
           (override : list event) : Prop :=
  (standard = [] ∨
   ∃ r1, rules_record p (standard_rules (init_cfg m)) r1 standard) ∧
  (override = [] ∨
   ∃ r3, rules_record p (override_rules (init_cfg m)) r3 override) ∧
  length chunks ≤ length (children m) ∧
  (∀ k evs nc,
      chunks !! k = Some evs → children m !! k = Some nc →
      Forall (ev_within (modules (p ++ [k]) (snd nc))) evs ∧
      (S k < length chunks → child_record run s (p ++ [k]) (snd nc) evs)) ∧
  (concat chunks ≠ [] ∨ override ≠ [] ∨ finished →
   standard = map (EApply p) (standard_rules (init_cfg m))) ∧
  (override ≠ [] ∨ finished →
   length chunks = length (children m) ∧
   ∀ k evs nc,
     chunks !! k = Some evs → children m !! k = Some nc →
     child_record run s (p ++ [k]) (snd nc) evs) ∧
  (finished →
   override = map (EApply p) (override_rules (init_cfg m))).

(** A call keeps what holds of the parameter buffers. *)
Definition keeps_buffers (I : (nat → tensor) → Prop) (s s' : state) : Prop :=
  I (tensors (st_world s)) → I (tensors (st_world s')).

(** The description the tracking dictionary [d] holds for a parameter:
    [d[param]["init_info"]], if both keys are there. *)
Definition info_of (d : gmap nat (@entry scalar)) (i : nat) : option string :=
  d !! i ≫= init_info.

(** The lines of a dump of the parameters [nps] out of [d], if every one
    of them has a description. *)
Definition report_lines (d : gmap nat (@entry scalar)) (nps : list (string * param))
  : option (list string) :=
  mapM (fun np => report_line (fst np) (p_shape (snd np)) <$>
                  info_of d (p_id (snd np))) nps.

End FurtherObservations.

(** * A concrete instance, for examples

    Buffers hold one integer, which is its own mean.  The dispatch
    collaborator knows the rule kinds ["Constant"] (fill the parameters
    of the module with ["val"]) and ["Pretrained"] (which needs a
    ["checkpoint"]); any other rule makes it raise. *)

Definition ex_mean (z : Z) : option Z := Some z.

Definition ex_repr (cfg : pyval) : string := "<init_cfg>".

Definition owns (m : module) (i : nat) : bool :=
  existsb (fun np => Nat.eqb (p_id (snd np)) i) (parameters m).

Definition ex_fill (m : module) (z : Z) (w : @world Z Z) : @world Z Z :=
  {| tensors := fun i => if owns m i then z else tensors w i;
     dicts := dicts w |}.

Definition ex_dispatch (p : path) (m : module) (cfg : pyval) (w : @world Z Z)
  : outcome * @world Z Z :=
  match cfg with
  | PDict items =>
      match dict_get "type" items with
      | PStr "Constant" =>
          match dict_get "val" items with
          | PInt z => (Ok, ex_fill m z w)
          | _ => (Raise TypeError, w)
          end
      | PStr "Pretrained" =>
          match dict_get "checkpoint" items with
          | PStr _ => (Ok, w)
          | _ => (Raise (OtherError "FileNotFoundError"), w)
          end
      | _ => (Raise (OtherError "ValueError"), w)
      end
  | _ => (Raise TypeError, w)
  end.

Definition ex_update_init_info (p : path) (m : module) (info : string)
           (w : @world Z Z) : outcome * @world Z Z := (Ok, w).

Definition ex_init_weights : path → module → @M Z Z :=
  init_weights ex_mean ex_repr ex_dispatch ex_update_init_info.

(** The state right after the constructors have run: every flag false,
    no tracking attribute, nothing logged. *)
Definition constructed (m : module) : @state Z Z :=
  {| _is_init := list_to_map ((fun q => (q, false)) <$> modules [] m);
     _params_init_info := ∅;
     st_world := {| tensors := fun _ => 0%Z; dicts := fun _ => ∅ |};
     next_ref := 0;
     log_handlers := [];
     trace := [] |}.

Definition ex_standard : pyval := PDict [("type", PStr "Constant"); ("val", PInt 1)].
Definition ex_override : pyval :=
  PDict [("type", PStr "Pretrained"); ("checkpoint", PStr "net.pt")].
Definition ex_unknown : pyval := PDict [("type", PStr "Orthogonal")].

Definition ex_conv : module :=
  Module "Conv" true (PDict [("type", PStr "Constant"); ("val", PInt 2)])
         [("weight", {| p_id := 1; p_shape := "[3, 3]" |})] [].

Definition ex_head : module :=
  Module "Head" true PNone [("bias", {| p_id := 2; p_shape := "[3]" |})] [].

Definition ex_net : module :=
  Module "Net" true (PList [ex_standard; ex_override])
         [("scale", {| p_id := 0; p_shape := "[1]" |})]
         [("conv", ex_conv); ("head", ex_head)].

(** The same network with a rule of unknown kind on its first child. *)
Definition ex_net_bad : module :=
  Module "Net" true (PList [ex_standard; ex_override])
         [("scale", {| p_id := 0; p_shape := "[1]" |})]
         [("conv", Module "Conv" true ex_unknown
                          [("weight", {| p_id := 1; p_shape := "[3, 3]" |})] []);
          ("head", ex_head)].

(** The same network with an Override rule on the root that names no
    checkpoint. *)
Definition ex_no_checkpoint : pyval := PDict [("type", PStr "Pretrained")].

Definition ex_net_late : module :=
  Module "Net" true (PList [ex_standard; ex_no_checkpoint])
         [("scale", {| p_id := 0; p_shape := "[1]" |})]
         [("conv", ex_conv); ("head", ex_head)].

(** The network after a first call, and with a child added afterwards. *)
Definition ex_after_first : @state Z Z :=
  snd (ex_init_weights [] ex_net (constructed ex_net)).

Definition ex_net_grown : module :=
  Module "Net" true (PList [ex_standard; ex_override])
         [("scale", {| p_id := 0; p_shape := "[1]" |})]
         [("conv", ex_conv); ("head", ex_head);
          ("extra", Module "Extra" true ex_standard
                           [("gain", {| p_id := 3; p_shape := "[1]" |})] [])].

Definition ex_grown : @state Z Z := set_is_init [2] false ex_after_first.

(** A caller's heap: a list of two rule dicts, the first held twice. *)
Definition ex_heap : heap :=
  [HDict [("type", HStr "Pretrained"); ("checkpoint", HStr "net.pt")];
   HDict [("type", HStr "Constant"); ("val", HInt 1)];
   HList [HRef 1; HRef 0; HRef 1]].

(** A network that holds a component inside a plain [nn.Module], which
    has neither [init_weights] nor [_is_init]. *)
Definition ex_inner : module :=
  Module "Inner" true ex_standard
         [("gain", {| p_id := 3; p_shape := "[1]" |})] [].

Definition ex_wrapper : module :=
  Module "Wrapper" false PNone [] [("inner", ex_inner)].

Definition ex_net_wrapped : module :=
  Module "Net" true (PList [ex_standard; ex_override])
         [("scale", {| p_id := 0; p_shape := "[1]" |})]
         [("conv", ex_conv); ("wrap", ex_wrapper)].

Definition ex_wrapped : @state Z Z :=
  {| _is_init := list_to_map [([], false); ([0], false); ([1; 0], false)];
     _params_init_info := ∅;
     st_world := {| tensors := fun _ => 0%Z; dicts := fun _ => ∅ |};
     next_ref := 0;
     log_handlers := [];
     trace := [] |}.

(** A node one item of whose [init_cfg] is the name of a rule instead of
    a rule. *)
Definition ex_malformed : module :=
  Module "Conv" true (PList [ex_standard; PStr "Constant"])
         [("weight", {| p_id := 1; p_shape := "[3, 3]" |})] [].

(** The network after a call that raised, and after the root of the
    initialised network was reset through the setter. *)
Definition ex_after_failure : @state Z Z :=
  snd (ex_init_weights [] ex_net_bad (constructed ex_net_bad)).

Definition ex_reset : @state Z Z := set_is_init [] false ex_after_first.

(** The network with the tracking map installed, its logger having a
    stream handler and a file handler. *)
Definition ex_with_file : @state Z Z :=
  {| _is_init := _is_init (constructed ex_net);
     _params_init_info := ∅;
     st_world := st_world (constructed ex_net);
     next_ref := 0;
     log_handlers := [StreamHandler; FileHandler true];
     trace := [] |}.

Definition ex_tracked : @state Z Z :=
  snd (install_tracking ex_mean [] ex_net ex_with_file).

(** A network whose first child is held by a wrapper, under the name
    [module]. *)
Definition ex_parallel : module :=
  Module "DataParallel" false PNone [] [("module", ex_conv)].

Definition ex_net_parallel : module :=
  Module "Net" true (PList [ex_standard; ex_override])
         [("scale", {| p_id := 0; p_shape := "[1]" |})]
         [("conv", ex_parallel); ("head", ex_head)].

Definition ex_parallel_state : @state Z Z :=
  {| _is_init := list_to_map [([], false); ([0; 0], false); ([1], false)];
     _params_init_info := ∅;
     st_world := {| tensors := fun _ => 0%Z; dicts := fun _ => ∅ |};
     next_ref := 0;
     log_handlers := [];
     trace := [] |}.

(** A statistic that is not defined for every buffer: [-1] stands for a
    buffer the mean of which cannot be taken (one of integers, say).
    In [ex_int_bias] the bias of the head is such a buffer. *)
Definition ex_mean_strict (z : Z) : option Z :=
  if (z =? -1)%Z then None else Some z.

Definition ex_int_bias : @state Z Z :=
  {| _is_init := _is_init (constructed ex_net);
     _params_init_info := ∅;
     st_world := {| tensors := fun i => if Nat.eqb i 2 then (-1)%Z else 0%Z;
                    dicts := fun _ => ∅ |};
     next_ref := 0;
     log_handlers := [];
     trace := [] |}.

Definition ex_after_partial : @state Z Z :=
  snd (init_weights ex_mean_strict ex_repr ex_dispatch ex_update_init_info
                    [] ex_net ex_int_bias).

(** The network with the tracking map installed, the file handler of
    its logger having no stream yet. *)
Definition ex_no_stream : @state Z Z :=
  {| _is_init := _is_init ex_tracked;
     _params_init_info := _params_init_info ex_tracked;
     st_world := st_world ex_tracked;
     next_ref := next_ref ex_tracked;
     log_handlers := [StreamHandler; FileHandler false];
     trace := trace ex_tracked |}.

(** What the example calls leave. *)
Definition ex_after_grown : @state Z Z :=
  snd (ex_init_weights [] ex_net_grown ex_grown).

Definition ex_after_late : @state Z Z :=
  snd (ex_init_weights [] ex_net_late (constructed ex_net_late)).

Definition ex_after_second : @state Z Z :=
  snd (ex_init_weights [] ex_net ex_after_first).

Definition ex_after_retry : @state Z Z :=
  snd (ex_init_weights [] ex_net ex_after_failure).

Definition ex_after_reset : @state Z Z :=
  snd (ex_init_weights [] ex_net ex_reset).

Definition ex_after_wrapped : @state Z Z :=
  snd (ex_init_weights [] ex_net_wrapped ex_wrapped).

Definition ex_after_parallel : @state Z Z :=
  snd (ex_init_weights [] ex_net_parallel ex_parallel_state).

Definition ex_installed : @state Z Z :=
  snd (install_tracking ex_mean [] ex_net (constructed ex_net)).

Definition ex_installed_wrapped : @state Z Z :=
  snd (install_tracking ex_mean [] ex_net_wrapped ex_wrapped).

Definition ex_after_partial_retry : @state Z Z :=
  snd (init_weights ex_mean_strict ex_repr ex_dispatch ex_update_init_info
                    [] ex_net ex_after_partial).

(** Collaborators that only read. *)
Definition ex_dispatch_ro (p : path) (m : module) (cfg : pyval) (w : @world Z Z)
  : outcome * @world Z Z := (Ok, w).

(** The heap after the constructor has copied the list of [ex_heap]. *)
Definition ex_heap_copied : heap :=
  ex_heap ++
  [HList [HRef 4; HRef 5; HRef 4];
   HDict [("type", HStr "Constant"); ("val", HInt 1)];
   HDict [("type", HStr "Pretrained"); ("checkpoint", HStr "net.pt")]].

(** * Facts about the shape of a tree *)

Lemma module_ind' (P : module → Prop) :
  (∀ c hw cfg ps ch,
      Forall (fun nc => P (snd nc)) ch → P (Module c hw cfg ps ch)) →
  ∀ m, P m.
Proof.
  intros H. fix IH 1. intros [c hw cfg ps ch]. apply H.
  induction ch as [|nc ch IHch]; constructor; [apply IH | apply IHch].
Qed.

Lemma elem_of_flat_mapi {A B} (f : nat → A → list B) (l : list A) (i : nat) (x : B) :
  x ∈ flat_mapi f i l ↔ ∃ k a, l !! k = Some a ∧ x ∈ f (i + k) a.
Proof.
  revert i. induction l as [|a l IH]; intros i; simpl.
  - split; [intros H; inversion H | intros (k & b & Hk & _); destruct k; discriminate].
  - rewrite elem_of_app, IH. split.
    + intros [Hx | (k & b & Hk & Hx)].
      * exists 0, a. rewrite Nat.add_0_r. done.
      * exists (S k), b. rewrite Nat.add_succ_r. done.
    + intros (k & b & Hk & Hx). destruct k as [|k]; simpl in Hk.
      * left. injection Hk as ->. by rewrite Nat.add_0_r in Hx.
      * right. exists k, b. rewrite Nat.add_succ_r in Hx. done.
Qed.

Lemma modules_root p m : p ∈ modules p m.
Proof. destruct m. simpl. left. Qed.

Lemma elem_of_modules p c hw cfg ps ch q :
  q ∈ modules p (Module c hw cfg ps ch) ↔
  q = p ∨ ∃ k nc, ch !! k = Some nc ∧ q ∈ modules (p ++ [k]) (snd nc).
Proof. simpl. rewrite elem_of_cons, elem_of_flat_mapi. done. Qed.

Lemma modules_prefix m : ∀ p q, q ∈ modules p m → ∃ x, q = p ++ x.
Proof.
  induction m as [c hw cfg ps ch IH] using module_ind'. intros p q.
  rewrite elem_of_modules. intros [-> | (k & nc & Hk & Hq)].
  - exists []. by rewrite app_nil_r.
  - rewrite Forall_lookup in IH. destruct (IH _ _ Hk _ _ Hq) as [x ->].
    exists (k :: x). by rewrite <- app_assoc.
Qed.

Lemma modules_child_ne m p k q : q ∈ modules (p ++ [k]) m → q ≠ p.
Proof.
  intros Hq ->. apply modules_prefix in Hq as [x Hx].
  apply (f_equal length) in Hx. rewrite !length_app in Hx. simpl in Hx. lia.
Qed.

Lemma modules_siblings m1 m2 p i j q :
  q ∈ modules (p ++ [i]) m1 → q ∈ modules (p ++ [j]) m2 → i = j.
Proof.
  intros [x ->]%modules_prefix [y Hy]%modules_prefix.
  rewrite <- !app_assoc in Hy. apply app_inv_head in Hy. by injection Hy.
Qed.

Lemma NoDup_flat_mapi {A B} (f : nat → A → list B) (l : list A) (i : nat) :
  (∀ k a, l !! k = Some a → NoDup (f (i + k) a)) →
  (∀ k1 k2 a1 a2 x, l !! k1 = Some a1 → l !! k2 = Some a2 →
                    x ∈ f (i + k1) a1 → x ∈ f (i + k2) a2 → k1 = k2) →
  NoDup (flat_mapi f i l).
Proof.
  revert i. induction l as [|a l IH]; intros i Hnd Hdisj; simpl; [constructor|].
  apply NoDup_app. split_and!.
  - specialize (Hnd 0 a eq_refl). by rewrite Nat.add_0_r in Hnd.
  - intros x Hx (k & b & Hk & Hx')%elem_of_flat_mapi.
    assert (0 = S k); [|discriminate].
    apply (Hdisj 0 (S k) a b x); try done.
    + by rewrite Nat.add_0_r.
    + by rewrite Nat.add_succ_r.
  - apply IH.
    + intros k b Hk. specialize (Hnd (S k) b Hk). by rewrite Nat.add_succ_r in Hnd.
    + intros k1 k2 a1 a2 x H1 H2 Hx1 Hx2.
      assert (S k1 = S k2); [|congruence].
      apply (Hdisj (S k1) (S k2) a1 a2 x); try done; by rewrite Nat.add_succ_r.
Qed.

Lemma NoDup_modules m : ∀ p, NoDup (modules p m).
Proof.
  induction m as [c hw cfg ps ch IH] using module_ind'. intros p. simpl.
  rewrite Forall_lookup in IH. constructor.
  - intros (k & nc & Hk & Hq)%elem_of_flat_mapi. by eapply modules_child_ne.
  - apply NoDup_flat_mapi.
    + intros k nc Hk. by apply (IH _ _ Hk).
    + intros k1 k2 a1 a2 x _ _ H1 H2. eapply modules_siblings; eauto.
Qed.

Lemma elem_of_completion_order m : ∀ p q,
  q ∈ completion_order p m ↔ q ∈ modules p m.
Proof.
  induction m as [c hw cfg ps ch IH] using module_ind'. intros p q.
  rewrite Forall_lookup in IH. simpl.
  rewrite elem_of_app, list_elem_of_singleton, elem_of_cons, !elem_of_flat_mapi.
  split.
  - intros [(k & nc & Hk & Hq) | ->]; [right | by left].
    exists k, nc. split; [done|]. by apply (IH _ _ Hk).
  - intros [-> | (k & nc & Hk & Hq)]; [by right | left].
    exists k, nc. split; [done|]. by apply (IH _ _ Hk).
Qed.

Notation "c ;; k" := (bind c k)
  (at level 100, k at level 200, right associativity) : M_scope.

(** * Facts about [deepcopy] *)

Lemma vrel_mono mm mm' x y : mm ⊆ mm' → vrel mm x y → vrel mm' x y.
Proof.
  intros Hsub. destruct x; simpl; try done.
  intros (l' & Hl & ->). exists l'. split; [|done]. by eapply lookup_weaken.
Qed.

Lemma slot_rel_mono mm mm' ta ta' :
  mm ⊆ mm' → slot_rel mm ta ta' → slot_rel mm' ta ta'.
Proof. intros Hsub [? ?]. split; [done | by eapply vrel_mono]. Qed.

Lemma orel_mono mm mm' o o' : mm ⊆ mm' → orel mm o o' → orel mm' o o'.
Proof.
  intros Hsub. destruct o, o'; simpl; try done;
    intros H; (eapply Forall2_impl; [done|]); simpl.
  - intros ??. by apply vrel_mono.
  - intros ?? [? ?]. split; [done | by eapply vrel_mono].
Qed.

Lemma orel_slots mm o o' :
  same_kind o o' → Forall2 (slot_rel mm) (slots o) (slots o') → orel mm o o'.
Proof.
  destruct o, o'; simpl; try done; intros _ H; rewrite Forall2_fmap in H;
    (eapply Forall2_impl; [exact H|]); simpl.
  - by intros ?? [_ ?].
  - intros ?? [[= ?] ?]. done.
Qed.

Lemma dict_set_fresh k v kvs :
  k ∉ fst <$> kvs → dict_set k v kvs = kvs ++ [(k, v)].
Proof.
  induction kvs as [|kv kvs IH]; simpl; [done|].
  intros [Hne Hk]%not_elem_of_cons.
  destruct (String.eqb_spec k (fst kv)); [done|]. by rewrite IH.
Qed.

Lemma slots_tags mm sl sl' :
  Forall2 (slot_rel mm) sl sl' → fst <$> sl = fst <$> sl'.
Proof.
  induction 1 as [|ta ta' sl sl' [E _] _ IH]; [done|].
  by rewrite !fmap_cons, E, IH.
Qed.

(** Storing the image of the next member extends a partial copy. *)
Lemma store_slot_step n mm o op done ta r a' :
  obj_wf n o →
  slots o = done ++ ta :: r →
  same_kind o op →
  Forall2 (slot_rel mm) done (slots op) →
  vrel mm (snd ta) a' →
  same_kind o (store_slot (fst ta) a' op) ∧
  Forall2 (slot_rel mm) (done ++ [ta]) (slots (store_slot (fst ta) a' op)).
Proof.
  intros [_ Hnd] Hsl Hk Hdone Ha.
  destruct o as [xs|kvs], op as [ys|kvs']; try done; simpl in *.
  - assert (Ht : fst ta = None).
    { assert (Hin : ta ∈ (fun a => (@None string, a)) <$> xs).
      { rewrite Hsl. apply elem_of_app. right. left. }
      apply list_elem_of_fmap in Hin as (? & -> & _). done. }
    rewrite Ht. simpl. split; [done|]. rewrite fmap_app. simpl.
    apply Forall2_app; [done|]. constructor; [|constructor]. by split.
  - assert (Ht : ∃ k, fst ta = Some k ∧ k ∉ fst <$> kvs') .
    { assert (Hin : ta ∈ (fun kv : string * hval => (Some (fst kv), snd kv)) <$> kvs).
      { rewrite Hsl. apply elem_of_app. right. left. }
      apply list_elem_of_fmap in Hin as (kv & -> & _). exists (fst kv).
      split; [done|]. intros Hin.
      assert (Hkeys : Some <$> (fst <$> kvs')
                      = fst <$> done).
      { apply slots_tags in Hdone. rewrite Hdone, <- !list_fmap_compose. done. }
      assert (Hall : Some <$> (fst <$> kvs)
                     = (fst <$> done) ++ Some (fst kv) :: (fst <$> r)).
      { rewrite <- list_fmap_compose.
        change (Some ∘ fst) with
          (fst ∘ (fun kv : string * hval => (Some (fst kv), snd kv))).
        rewrite list_fmap_compose, Hsl, fmap_app. done. }
      assert (Hnd' : NoDup (Some <$> (fst <$> kvs))).
      { apply NoDup_fmap_2; [|done]. by intros ?? [=]. }
      rewrite Hall in Hnd'. apply NoDup_app in Hnd' as (_ & Hdis & _).
      apply (Hdis (Some (fst kv))); [|left].
      rewrite <- Hkeys. by apply list_elem_of_fmap_2. }
    destruct Ht as (k & Ht & Hfresh). rewrite Ht. simpl. split; [done|].
    rewrite dict_set_fresh by done. rewrite fmap_app. simpl.
    apply Forall2_app; [done|]. constructor; [|constructor].
    split; [by rewrite Ht | done].
Qed.

Lemma copying_alter h0 l' f h mm :
  length h0 ≤ l' → copying h0 (h, mm) → copying h0 (alter f l' h, mm).
Proof.
  intros Hl' [Hold Hmm]. split; simpl in *.
  - intros l o Hl. rewrite list_lookup_alter_ne; [by apply Hold|].
    apply lookup_lt_Some in Hl. lia.
  - intros l l1 Hl. rewrite length_alter. by apply Hmm.
Qed.

Section CopyFacts.

Variable h0 : heap.
Hypothesis h0_wf : heap_wf h0.

Lemma h0_obj_wf l o : h0 !! l = Some o → obj_wf (length h0) o.
Proof. intros Hl. unfold heap_wf in h0_wf. by eapply Forall_lookup_1 in h0_wf. Qed.

(** What [deepcopy] with fuel [f] does, taken as given for the loop. *)
Local Abbreviation deepcopy_ok f :=
  (∀ x st y st',
    copying h0 st → val_wf (length h0) x →
    deepcopy f x st = Some (y, st') →
    copy_post h0 (fun _ => True) st st' ∧ vrel (snd st') x y).

Lemma copy_slots_spec f l l' o :
  deepcopy_ok f →
  h0 !! l = Some o →
  ∀ sl done st op st',
    slots o = done ++ sl →
    copying h0 st →
    snd st !! l = Some l' →
    fst st !! l' = Some op →
    same_kind o op →
    Forall2 (slot_rel (snd st)) done (slots op) →
    copy_slots (deepcopy f) l' sl st = Some st' →
    copy_post h0 (fun x => x ≠ l') st st' ∧
    ∃ o', fst st' !! l' = Some o' ∧ orel (snd st') o o'.
Proof.
  intros IHf Hl. assert (Hwf := h0_obj_wf l o Hl).
  induction sl as [|ta r IH]; intros done st op st' Hsl Hc Hmm Hop Hk Hdone; simpl.
  - intros [= <-]. rewrite app_nil_r in Hsl. split.
    + split_and!; [done | done | done | done |]. intros ?? H1 H2. congruence.
    + exists op. split; [done|]. apply orel_slots; [done | by rewrite Hsl].
  - destruct (deepcopy f (snd ta) st) as [[a' [h1 mm1]]|] eqn:Hcp; [|done].
    intros Hloop.
    apply IHf in Hcp as [(Hc1 & Hkeep1 & Hlen1 & Hsub1 & Hnew1) Ha]; [|done|].
    2:{ destruct Hwf as [Hv _]. rewrite Hsl in Hv.
        apply Forall_app in Hv as [_ Hv]. by apply Forall_cons in Hv as [? _]. }
    simpl in *.
    assert (Hl'lt : l' < length (fst st)) by (by eapply lookup_lt_Some).
    assert (Hl'ge : length h0 ≤ l') by (destruct Hc as [_ Hr]; apply Hr in Hmm; lia).
    assert (Hop1 : h1 !! l' = Some op) by (by rewrite Hkeep1).
    destruct (store_slot_step (length h0) mm1 o op done ta r a' Hwf Hsl Hk)
      as [Hk2 Hdone2]; [| done |].
    { eapply Forall2_impl; [done|]. intros ??. by apply slot_rel_mono. }
    apply (IH (done ++ [ta]) _ (store_slot (fst ta) a' op)) in Hloop
      as [(Hc2 & Hkeep2 & Hlen2 & Hsub2 & Hnew2) (o' & Ho' & Hrel)]; simpl.
    + simpl in *. rewrite length_alter in *. split.
      * split_and!; [done | | lia | by etrans |].
        -- intros x Hx Hne. rewrite Hkeep2 by (done || lia).
           rewrite list_lookup_alter_ne by done. by apply Hkeep1.
        -- intros x x' Hx' Hx.
           destruct (mm1 !! x) as [x1|] eqn:Hx1.
           ++ assert (x1 = x') as ->.
              { eapply lookup_weaken in Hx1; [|done]. congruence. }
              destruct (Hnew1 x x' Hx1 Hx) as (Hge & o1 & o1' & Ho1 & Ho1' & Hrel1).
              split; [done|]. exists o1, o1'. split_and!; [done | |].
              ** rewrite Hkeep2; [| by eapply lookup_lt_Some | lia].
                 rewrite list_lookup_alter_ne by lia. done.
              ** by eapply orel_mono.
           ++ destruct (Hnew2 x x' Hx' Hx1) as (Hge & Hex). split; [lia | done].
      * eauto.
    + by rewrite <- app_assoc.
    + by apply copying_alter.
    + by eapply lookup_weaken.
    + rewrite list_lookup_alter_eq, Hop1. done.
    + done.
    + done.
Qed.

Lemma deepcopy_spec f : deepcopy_ok f.
Proof.
  induction f as [|f IH]; intros x [h mm] y st' Hc Hx.
  - destruct x; simpl; try (intros [= <- <-]; split; [|done];
      split_and!; try done; intros ?? H1 H2; simpl in *; congruence).
    destruct (mm !! l) as [l'|] eqn:Hl; [|done].
    intros [= <- <-]. split; [|by exists l'].
    split_and!; try done. intros ?? H1 H2; simpl in *; congruence.
  - destruct x; simpl; try (intros [= <- <-]; split; [|done];
      split_and!; try done; intros ?? H1 H2; simpl in *; congruence).
    destruct (mm !! l) as [l'|] eqn:Hl.
    { intros [= <- <-]. split; [|by exists l'].
      split_and!; try done. intros ?? H1 H2; simpl in *; congruence. }
    destruct (h !! l) as [o|] eqn:Ho; [|done].
    destruct (copy_slots _ _ _ _) as [st1|] eqn:Hloop; [|done].
    intros [= <- <-]. simpl in Hx.
    destruct Hc as [Hold Hrange]. simpl in *.
    assert (Ho0 : h0 !! l = Some o).
    { destruct (lookup_lt_is_Some_2 h0 l Hx) as [o0 Ho0].
      rewrite (Hold l o0 Ho0) in Ho. by simplify_eq. }
    assert (Hlen0 : length h0 ≤ length h).
    { destruct (decide (length h0 ≤ length h)) as [|Hn]; [done|].
      destruct (lookup_lt_is_Some_2 h0 (length h)) as [o1 Ho1]; [lia|].
      apply Hold, lookup_lt_Some in Ho1. lia. }
    eapply (copy_slots_spec f l (length h) o IH Ho0 (slots o) []) in Hloop
      as [(Hc2 & Hkeep2 & Hlen2 & Hsub2 & Hnew2) (o' & Ho' & Hrel)]; simpl.
    + simpl in *. rewrite length_app in *. simpl in *.
      assert (Hll : snd st1 !! l = Some (length h)).
      { eapply lookup_weaken; [|done]. apply lookup_insert_eq. }
      split; [|by exists (length h)].
      unfold copy_post. simpl. split_and!; [done | | lia | |].
      * intros x Hx' _. rewrite Hkeep2 by lia. by apply lookup_app_l.
      * etrans; [|done]. by apply insert_subseteq.
      * intros x x' Hx' Hxn. destruct (decide (x = l)) as [->|Hne].
        -- assert (x' = length h) as -> by congruence.
           split; [done|]. eauto.
        -- destruct (Hnew2 x x' Hx') as (Hge & Hex).
           { by rewrite lookup_insert_ne. }
           split; [lia | done].
    + done.
    + split; simpl.
      * intros x ox Hx'. rewrite lookup_app_l; [by apply Hold|].
        apply lookup_lt_Some in Hx'. lia.
      * intros x x'. rewrite length_app. simpl.
        destruct (decide (l = x)) as [<-|Hne].
        -- rewrite lookup_insert_eq. intros [= <-]. lia.
        -- rewrite lookup_insert_ne by done. intros H%Hrange. lia.
    + apply lookup_insert_eq.
    + rewrite lookup_app_r by done. rewrite Nat.sub_diag. done.
    + by destruct o.
    + destruct o; simpl; constructor.
Qed.

Lemma map_size_bounded (mm : gmap nat nat) n :
  (∀ l l', mm !! l = Some l' → l < n) → size mm ≤ n.
Proof.
  intros Hb. rewrite <- (size_dom (D:=gset nat)).
  rewrite <- (size_set_seq (C:=gset nat) 0 n). apply subseteq_size.
  intros l [l' Hl]%elem_of_dom. apply elem_of_set_seq. apply Hb in Hl. lia.
Qed.

Lemma memo_not_full (mm : gmap nat nat) (n l : nat) :
  (∀ l l', mm !! l = Some l' → l < n) → mm !! l = None → l < n → size mm < n.
Proof.
  intros Hb Hl Hn.
  assert (size (<[l:=0]> mm) ≤ n).
  { apply map_size_bounded. intros x x'.
    destruct (decide (l = x)) as [<-|]; [done|].
    rewrite lookup_insert_ne by done. apply Hb. }
  rewrite map_size_insert_None in H by done. lia.
Qed.

Lemma copy_slots_total f l' sl :
  (∀ x st, copying h0 st → val_wf (length h0) x →
           length h0 - size (snd st) ≤ f → is_Some (deepcopy f x st)) →
  length h0 ≤ l' →
  Forall (fun ta => val_wf (length h0) (snd ta)) sl →
  ∀ st, copying h0 st → length h0 - size (snd st) ≤ f →
        is_Some (copy_slots (deepcopy f) l' sl st).
Proof.
  intros IHf Hl'. induction 1 as [|ta r Hta _ IH]; intros st Hc Hf; simpl;
    [by eexists|].
  destruct (IHf (snd ta) st Hc Hta Hf) as [[a' [h1 mm1]] Hcp]. rewrite Hcp.
  apply deepcopy_spec in Hcp as [(Hc1 & _ & _ & Hsub & _) _]; [|done..].
  apply IH.
  - by apply copying_alter.
  - apply map_subseteq_size in Hsub. simpl in *. lia.
Qed.

(** With fuel for every object of the heap not yet in the memo,
    [deepcopy] returns. *)
Lemma deepcopy_total f : ∀ x st,
  copying h0 st → val_wf (length h0) x →
  length h0 - size (snd st) ≤ f → is_Some (deepcopy f x st).
Proof.
  induction f as [|f IH]; intros x [h mm] Hc Hx Hf; simpl in *.
  - destruct x; try by eexists. destruct (mm !! l) as [l'|] eqn:Hl; [by eexists|].
    destruct Hc as [_ Hr].
    assert (size mm < length h0); [|lia].
    eapply memo_not_full; [|done..]. intros ?? H%Hr. simpl in *. lia.
  - destruct x; try by eexists. destruct (mm !! l) as [l'|] eqn:Hl; [by eexists|].
    destruct (lookup_lt_is_Some_2 h0 l Hx) as [o Ho0].
    assert (Hrange := Hc). destruct Hrange as [Hold Hrange]. simpl in Hold.
    rewrite (Hold l o Ho0).
    assert (Hlen0 : length h0 ≤ length h).
    { destruct (decide (length h0 ≤ length h)) as [|Hn]; [done|].
      destruct (lookup_lt_is_Some_2 h0 (length h)) as [o1 Ho1]; [lia|].
      apply Hold, lookup_lt_Some in Ho1. simpl in *. lia. }
    destruct (copy_slots_total f (length h) (slots o) IH Hlen0)
      with (st := (h ++ [empty_like o], <[l:=length h]> mm)) as [st' ->].
    + by destruct (h0_obj_wf l o Ho0).
    + split; simpl in *.
      * intros x ox Hx'. rewrite lookup_app_l; [by apply Hold|].
        apply lookup_lt_Some in Hx'. lia.
      * intros x x'. rewrite length_app. simpl.
        destruct (decide (l = x)) as [<-|Hne].
        -- rewrite lookup_insert_eq. intros [= <-]. lia.
        -- rewrite lookup_insert_ne by done. intros H%Hrange. simpl in *. lia.
    + simpl. rewrite map_size_insert_None by done. lia.
    + by eexists.
Qed.

End CopyFacts.

Lemma mapM_Forall2 {A B C} (f : A → option C) (g : B → option C) l k :
  Forall2 (fun x y => f x = g y) l k → mapM f l = mapM g k.
Proof. induction 1 as [|x y l k E _ IH]; simpl; [done|]. by rewrite E, IH. Qed.

(** Reading through a memo whose every entry is a complete copy gives,
    at every depth, what reading the source gives. *)
Lemma decode_rel (ha hb : heap) mm :
  (∀ l l', mm !! l = Some l' →
           ∃ o o', ha !! l = Some o ∧ hb !! l' = Some o' ∧ orel mm o o') →
  ∀ d v v', vrel mm v v' → decode d hb v' = decode d ha v.
Proof.
  intros Hmm. induction d as [|d IH]; intros v v' Hv.
  - destruct v; simpl in Hv; subst; try done.
    by destruct Hv as (l' & _ & ->).
  - destruct v; simpl in Hv; subst; try done.
    destruct Hv as (l' & Hl & ->). simpl.
    destruct (Hmm l l' Hl) as (o & o' & -> & -> & Hrel).
    destruct o as [xs|kvs], o' as [ys|kvs']; try done; simpl in Hrel.
    + f_equal. apply mapM_Forall2. apply Forall2_flip.
      eapply Forall2_impl; [done|]. simpl. intros x y Hxy. by apply IH.
    + f_equal. apply mapM_Forall2. apply Forall2_flip.
      eapply Forall2_impl; [done|]. simpl. intros x y [E Hxy].
      by rewrite E, (IH _ _ Hxy).
Qed.

(** What the constructor leaves: with fuel for every object of the heap
    it returns; the objects that existed are as they were; the copy reads
    as the argument read; and it reads the same in any heap that agrees
    on the objects allocated by the constructor, whatever that heap holds
    elsewhere. *)
Lemma constructor_copy h0 x fuel :
  heap_wf h0 → val_wf (length h0) x → length h0 ≤ fuel →
  ∃ y h1,
    BaseModule__init__ fuel x h0 = Some (y, h1) ∧
    (∀ l o, h0 !! l = Some o → h1 !! l = Some o) ∧
    (∀ d, decode d h1 y = decode d h0 x) ∧
    ∀ h2, (∀ l, length h0 ≤ l < length h1 → h2 !! l = h1 !! l) →
          ∀ d, decode d h2 y = decode d h0 x.
Proof.
  intros Hwf Hx Hfuel. unfold BaseModule__init__.
  assert (Hc : copying h0 (h0, ∅)).
  { split; simpl; [done|]. intros ??. by rewrite lookup_empty. }
  destruct (deepcopy_total h0 Hwf fuel x (h0, ∅) Hc Hx) as [[y [h1 mm1]] Hcp].
  { simpl. lia. }
  rewrite Hcp. exists y, h1.
  apply (deepcopy_spec h0 Hwf) in Hcp
    as [([Hold Hrange] & _ & _ & _ & Hnew) Hv]; [|done..].
  simpl in *.
  assert (Hall : ∀ l l', mm1 !! l = Some l' →
             ∃ o o', h0 !! l = Some o ∧ h1 !! l' = Some o' ∧ orel mm1 o o').
  { intros l l' Hl. by destruct (Hnew l l' Hl (lookup_empty _)) as [_ ?]. }
  split_and!; [done | done | |].
  { intros d. by apply (decode_rel h0 h1 mm1 Hall d x y). }
  intros h2 Hagree d. apply (decode_rel h0 h2 mm1); [|done].
  intros l l' Hl. destruct (Hall l l' Hl) as (o & o' & Ho & Ho' & Hrel).
  exists o, o'. split_and!; [done | | done].
  rewrite Hagree; [done|]. by apply Hrange in Hl as [_ ?].
Qed.


(** * Facts about the engine *)

Section EngineFacts.

Context {tensor scalar : Type}.
Variable mean : tensor → option scalar.
Variable py_repr : pyval → string.
Variable dispatch :
  path → module → pyval → @world tensor scalar → outcome * @world tensor scalar.
Variable update_init_info :
  path → module → string → @world tensor scalar → outcome * @world tensor scalar.

Local Open Scope M_scope.

Local Abbreviation state := (@state tensor scalar).
Local Abbreviation M := (@M tensor scalar).
Local Abbreviation run := (init_weights mean py_repr dispatch update_init_info).
Local Abbreviation trav := (traverse mean py_repr dispatch update_init_info).
Local Abbreviation install := (install_tracking mean).
Local Abbreviation rules := (initialize dispatch).
Local Abbreviation update := (call_update_init_info update_init_info).
Local Abbreviation step := (child_step update_init_info).
Local Abbreviation loop := (for_children update_init_info).

(** ** Sequencing *)

Lemma bind_ext (c k k' : M) s :
  (∀ s1, k s1 = k' s1) → (c ;; k) s = (c ;; k') s.
Proof. intros H. unfold bind. destruct (c s) as [[|e] s1]; [apply H | done]. Qed.

Lemma bind_assoc (c k k' : M) s : ((c ;; k) ;; k') s = (c ;; (k ;; k')) s.
Proof. unfold bind. by destruct (c s) as [[|e] s1]. Qed.

Lemma bind_cong_l (c c' k : M) s : c s = c' s → (c ;; k) s = (c' ;; k) s.
Proof. unfold bind. by intros ->. Qed.

Lemma bind_ret_r (c : M) s : (c ;; ret) s = c s.
Proof. unfold bind, ret. by destruct (c s) as [[|e] s1]. Qed.

Lemma bind_Ok (c k : M) s s1 : c s = (Ok, s1) → (c ;; k) s = k s1.
Proof. unfold bind. by intros ->. Qed.

Lemma bind_Raise (c k : M) s e s1 :
  c s = (Raise e, s1) → (c ;; k) s = (Raise e, s1).
Proof. unfold bind. by intros ->. Qed.

Lemma bind_inv (c k : M) s r s' :
  (c ;; k) s = (r, s') →
  (∃ s1, c s = (Ok, s1) ∧ k s1 = (r, s')) ∨
  (∃ e, c s = (Raise e, s') ∧ r = Raise e).
Proof.
  unfold bind. destruct (c s) as [[|e] s1]; intros H.
  - left. by exists s1.
  - right. exists e. by simplify_eq.
Qed.

(** ** What [unwrap_model] returns *)

Lemma child_named_module_eq {A} (k : path → module → A) (d : A)
      (here : option (path * module)) q l : ∀ i,
  Forall (fun nc => ∀ q', on_unwrapped k d q' (snd nc) =
                          match unwrap_model q' (snd nc) with
                          | Some (q'', c') => k q'' c'
                          | None => d
                          end) l →
  child_named_module
    (match here with Some (q'', c') => k q'' c' | None => d end)
    (on_unwrapped k d) q i l =
  match child_named_module here unwrap_model q i l with
  | Some (q'', c') => k q'' c'
  | None => d
  end.
Proof.
  induction l as [|nc l IH]; intros i Hl; simpl; [done|].
  apply Forall_cons in Hl as [Hnc Hl].
  destruct (String.eqb (fst nc) "module"); [apply Hnc | by apply IH].
Qed.

Lemma unwrap_model_unfold q c :
  unwrap_model q c =
  if existsb (fun np => String.eqb (fst np) "module") (parameters c) then None
  else child_named_module (Some (q, c)) unwrap_model q 0 (children c).
Proof. by destruct c. Qed.

Lemma on_unwrapped_eq {A} (k : path → module → A) (d : A) : ∀ c q,
  on_unwrapped k d q c =
  match unwrap_model q c with
  | Some (q', c') => k q' c'
  | None => d
  end.
Proof.
  induction c as [c hw cfg ps ch IH] using module_ind'. intros q.
  rewrite unwrap_model_unfold. simpl.
  destruct (existsb _ ps); [done|].
  by apply (child_named_module_eq k d (Some (q, Module c hw cfg ps ch))).
Qed.

Lemma child_step_eq (visit : path → module → M) q c s :
  step visit q c s =
  match unwrap_model q c with
  | Some (q', target) =>
      if has_init_weights target && negb (is_init_getattr s q') then
        (visit q' target ;; update q' target (child_info (cls target))) s
      else (Ok, s)
  | None => (Ok, s)
  end.
Proof.
  unfold child_step. rewrite on_unwrapped_eq.
  by destruct (unwrap_model q c) as [[q' t]|].
Qed.

Lemma child_named_module_subtree (here : option (path * module)) q l q' c' : ∀ i,
  Forall (fun nc => ∀ q0 q1 c1, unwrap_model q0 (snd nc) = Some (q1, c1) →
                                ∃ y, q1 = q0 ++ y ∧ subtree y (snd nc) = Some c1) l →
  child_named_module here unwrap_model q i l = Some (q', c') →
  here = Some (q', c') ∨
  ∃ j nc y, l !! j = Some nc ∧ q' = q ++ (i + j) :: y ∧
            subtree y (snd nc) = Some c'.
Proof.
  induction l as [|nc l IH]; intros i Hl; simpl; [by left|].
  apply Forall_cons in Hl as [Hnc Hl].
  destruct (String.eqb (fst nc) "module").
  - intros (y & -> & Hy)%Hnc. right. exists 0, nc, y.
    rewrite Nat.add_0_r, <- app_assoc. done.
  - intros [?|(j & nc' & y & Hj & -> & Hy)]%IH; [by left | | done].
    right. exists (S j), nc', y. rewrite Nat.add_succ_r. done.
Qed.

(** What [unwrap_model] returns for a module is a module of its
    subtree. *)
Lemma unwrap_model_subtree : ∀ c q q' c',
  unwrap_model q c = Some (q', c') →
  ∃ y, q' = q ++ y ∧ subtree y c = Some c'.
Proof.
  induction c as [c hw cfg ps ch IH] using module_ind'. intros q q' c'.
  rewrite unwrap_model_unfold. simpl. destruct (existsb _ ps); [done|].
  intros H. apply child_named_module_subtree in H; [|exact IH].
  destruct H as [[= <- <-]|(j & nc & y & Hj & -> & Hy)].
  - exists []. by rewrite app_nil_r.
  - exists (j :: y). simpl. by rewrite Hj.
Qed.

Lemma modules_child_subseteq p m k nc q :
  children m !! k = Some nc → q ∈ modules (p ++ [k]) (snd nc) → q ∈ modules p m.
Proof.
  destruct m as [c hw cfg ps ch]. cbn [children]. intros Hk Hq.
  apply elem_of_modules. right. eauto.
Qed.

Lemma subtree_modules y : ∀ c q c' x,
  subtree y c = Some c' → x ∈ modules (q ++ y) c' → x ∈ modules q c.
Proof.
  induction y as [|k y IH]; intros c q c' x; simpl.
  - intros [= <-]. by rewrite app_nil_r.
  - destruct (children c !! k) as [nc|] eqn:Hk; [|done]. intros Hy Hx.
    eapply (modules_child_subseteq q c k nc); [done|].
    eapply IH; [done|]. by rewrite <- app_assoc.
Qed.

Lemma unwrap_model_modules q c q' c' x :
  unwrap_model q c = Some (q', c') → x ∈ modules q' c' → x ∈ modules q c.
Proof.
  intros (y & -> & Hy)%unwrap_model_subtree. by apply subtree_modules.
Qed.

Lemma child_named_module_none {A} (here : A) unwrap q (l : list (string * module)) :
  ∀ i, forallb (fun nc => negb (String.eqb (fst nc) "module") &&
                          no_module_attr (snd nc)) l = true →
       child_named_module here unwrap q i l = here.
Proof.
  induction l as [|nc l IH]; intros i; simpl; [done|].
  intros [[Hn _]%andb_true_iff Hl]%andb_true_iff.
  apply negb_true_iff in Hn. rewrite Hn. by apply IH.
Qed.

Lemma no_module_attr_unwrap q c :
  no_module_attr c = true → unwrap_model q c = Some (q, c).
Proof.
  rewrite unwrap_model_unfold. destruct c as [c hw cfg ps ch]. simpl.
  intros [Hps Hch]%andb_true_iff. apply negb_true_iff in Hps. rewrite Hps.
  by apply child_named_module_none.
Qed.

Lemma no_module_attr_inv c hw cfg ps ch :
  no_module_attr (Module c hw cfg ps ch) = true →
  ∀ k nc, ch !! k = Some nc → no_module_attr (snd nc) = true.
Proof.
  simpl. intros [_ H]%andb_true_iff k nc Hk.
  rewrite forallb_forall in H. apply list_elem_of_lookup_2, list_elem_of_In in Hk.
  by apply H, andb_true_iff in Hk as [_ ?].
Qed.

(** ** The call as three stages: installation when the call is
    top-level, the traversal, finalisation when the call is top-level *)

Lemma init_weights_eq p m s :
  run p m s =
  if negb (has_init_weights m) then (Raise AttributeError, s)
  else if has_tracking s p then trav p m s
  else (install p m ;; trav p m ;; _finalize_init p m) s.
Proof.
  destruct m as [c hw cfg ps ch].
  cbn [init_weights has_init_weights].
  destruct hw; [|done]. cbn [negb].
  destruct (has_tracking s p); cbn [negb when].
  - unfold bind at 1. unfold ret at 1.
    unfold traverse. cbn [cls init_cfg children].
    destruct (_is_init s !! p) as [[]|]; [| |done].
    + apply bind_ret_r.
    + apply bind_ext. intros s1.
      destruct (partition_cfg cfg) as [e|[o pr]]; [done|].
      do 3 (apply bind_ext; intros ?). apply bind_ret_r.
  - set (m := Module c true cfg ps ch). apply bind_ext. intros s0.
    symmetry. destruct (_is_init s0 !! p) as [[]|] eqn:Hf.
    + erewrite bind_Ok; [|unfold traverse; rewrite Hf; reflexivity]. done.
    + etrans.
      { apply bind_cong_l. unfold traverse. rewrite Hf. reflexivity. }
      rewrite bind_assoc. apply bind_ext. intros s1. simpl.
      destruct (partition_cfg cfg) as [e|[o pr]]; [done|].
      do 2 (etrans; [apply bind_assoc|]; apply bind_ext; intros ?).
      apply bind_assoc.
    + by erewrite bind_Raise; [|unfold traverse; rewrite Hf; reflexivity].
Qed.

(** ** A rule for relations between the state at entry and at exit

    A relation that is a preorder, contains each elementary effect of a
    node and passes from a child to its parent holds of every call,
    whatever its outcome. *)

Lemma sound_ret (R : state → state → Prop) : (∀ s, R s s) → sound R ret.
Proof. intros HR s r s' [= _ <-]. apply HR. Qed.

Lemma sound_bind (R : state → state → Prop) (c k : M) :
  (∀ s1 s2 s3, R s1 s2 → R s2 s3 → R s1 s3) →
  sound R c → sound R k → sound R (c ;; k).
Proof.
  intros HR Hc Hk s r s' [(s1 & H1 & H2) | (e & H1 & _)]%bind_inv.
  - eapply HR; [eapply Hc | eapply Hk]; eauto.
  - eapply Hc; eauto.
Qed.

Lemma sound_when (R : state → state → Prop) b (c : M) :
  (∀ s, R s s) → sound R c → sound R (when b c).
Proof. intros HR Hc. destruct b; [done | by apply sound_ret]. Qed.

Section Rule.

Variable R : path → module → state → state → Prop.
Hypothesis R_refl : ∀ p m s, R p m s s.
Hypothesis R_trans :
  ∀ p m s1 s2 s3, R p m s1 s2 → R p m s2 s3 → R p m s1 s3.
Hypothesis R_child :
  ∀ p m k nc s s', children m !! k = Some nc →
                   R (p ++ [k]) (snd nc) s s' → R p m s s'.
Hypothesis R_log : ∀ p m lv msg s, R p m s (emit (ELog lv msg) s).
Hypothesis R_dispatch :
  ∀ p m cfg, sound (R p m) (call_dispatch dispatch p m cfg).
Hypothesis R_update :
  ∀ p m info, sound (R p m) (update p m info).
Hypothesis R_mark : ∀ p m s, R p m s (set_is_init p true s).
Hypothesis R_install :
  ∀ p m s r s', has_tracking s p = false →
                install p m s = (r, s') → R p m s s'.
Hypothesis R_finalize :
  ∀ p m s s1 r s', has_tracking s p = false →
                   R p m s s1 →
                   _finalize_init p m s1 = (r, s') → R p m s s'.

Lemma R_below y : ∀ p m mq s s',
  subtree y m = Some mq → R (p ++ y) mq s s' → R p m s s'.
Proof.
  induction y as [|k y IH]; intros p m mq s s'; simpl.
  - intros [= <-]. by rewrite app_nil_r.
  - destruct (children m !! k) as [nc|] eqn:Hk; [|done]. intros Hy HR.
    eapply R_child; [done|]. eapply IH; [done|]. by rewrite <- app_assoc.
Qed.

Lemma rules_sound p m cfgs : sound (R p m) (rules p m cfgs).
Proof.
  induction cfgs as [|cfg cfgs IH]; simpl.
  - by apply sound_ret.
  - apply sound_bind; eauto.
Qed.

Lemma step_sound q c :
  (∀ y mq, subtree y c = Some mq → ∀ p, sound (R p mq) (run p mq)) →
  sound (R q c) (step run q c).
Proof.
  intros Hv s r s'. rewrite child_step_eq.
  destruct (unwrap_model q c) as [[q' t]|] eqn:Hu;
    [|intros [= _ <-]; apply R_refl].
  destruct (_ && _); [|intros [= _ <-]; apply R_refl].
  apply unwrap_model_subtree in Hu as (y & -> & Hy).
  intros H. eapply R_below; [exact Hy|]. revert H.
  apply sound_bind; eauto.
Qed.

Lemma loop_sound p m cs : ∀ i,
  (∀ k nc, cs !! k = Some nc →
           children m !! (i + k) = Some nc ∧
           ∀ y mq, subtree y (snd nc) = Some mq →
                   ∀ q, sound (R q mq) (run q mq)) →
  sound (R p m) (loop run p i cs).
Proof.
  induction cs as [|nc cs IH]; intros i Hcs; simpl.
  - by apply sound_ret.
  - apply sound_bind; [eauto | |].
    + destruct (Hcs 0 nc eq_refl) as [Hk Hs]. rewrite Nat.add_0_r in Hk.
      intros s r s' Hrun. eapply R_child; [done|].
      by eapply step_sound.
    + apply IH. intros k nc' Hk.
      specialize (Hcs (S k) nc' Hk). by rewrite Nat.add_succ_r in Hcs.
Qed.

Lemma traverse_sound p m :
  (∀ k nc, children m !! k = Some nc →
           ∀ y mq, subtree y (snd nc) = Some mq →
                   ∀ q, sound (R q mq) (run q mq)) →
  sound (R p m) (trav p m).
Proof.
  intros IH s r s'. unfold traverse.
  destruct (_is_init s !! p) as [[]|].
  - intros [= _ <-]. apply R_log.
  - revert s r s'. apply sound_bind; [eauto| |].
    + apply sound_when; [eauto|]. intros s r s' [= _ <-]. apply R_log.
    + intros s r s'. destruct (partition_cfg _) as [e|[o pr]].
      * intros [= _ <-]. apply R_refl.
      * revert s r s'.
        repeat (apply sound_bind; [eauto|..]).
        -- apply sound_when; [eauto | apply rules_sound].
        -- apply loop_sound. intros k nc Hk. split; [done | exact (IH k nc Hk)].
        -- apply sound_when; [eauto | apply rules_sound].
        -- intros s r s' [= _ <-]. apply R_mark.
  - intros [= _ <-]. apply R_refl.
Qed.

Lemma run_sound_of_traverse p m :
  sound (R p m) (trav p m) → sound (R p m) (run p m).
Proof.
  intros Ht s r s'. rewrite init_weights_eq.
  destruct (negb _); [intros [= _ <-]; apply R_refl|].
  destruct (has_tracking s p) eqn:Htop; [apply Ht|].
  intros [(s0 & H0 & H) | (e & H0 & _)]%bind_inv;
    [|by eapply R_install].
  assert (R0 : R p m s s0) by (by eapply R_install).
  apply bind_inv in H as [(s1 & H1 & H2) | (e & H1 & _)].
  - eapply (R_finalize p m s s1); [done | | done].
    eapply R_trans; [done | by eapply Ht].
  - eapply R_trans; [done | by eapply Ht].
Qed.

Lemma init_weights_sound_below : ∀ m y mq,
  subtree y m = Some mq → ∀ p, sound (R p mq) (run p mq).
Proof.
  induction m as [c hw cfg ps ch IH] using module_ind'.
  intros [|k y] mq; simpl.
  - intros [= <-] p. apply run_sound_of_traverse, traverse_sound.
    intros k nc Hk. rewrite Forall_lookup in IH. apply (IH k nc Hk).
  - destruct (ch !! k) as [nc|] eqn:Hk; [|done].
    rewrite Forall_lookup in IH. apply (IH k nc Hk).
Qed.

Theorem init_weights_sound : ∀ m p, sound (R p m) (run p m).
Proof. intros m. by apply (init_weights_sound_below m []). Qed.

Theorem engine_sound :
  (∀ m p, sound (R p m) (run p m)) ∧ (∀ m p, sound (R p m) (trav p m)).
Proof.
  split; [apply init_weights_sound|].
  intros m p. apply traverse_sound. intros k nc _ y mq _ q.
  apply init_weights_sound.
Qed.

End Rule.

(** ** Installation *)

Lemma attach_lookup_ne l qs a q : q ∉ qs → attach l qs a !! q = a !! q.
Proof.
  revert a. induction qs as [|q0 qs IH]; intros a Hq; [done|].
  apply not_elem_of_cons in Hq as [Hne Hq].
  change (attach l (q0 :: qs) a) with (attach l qs (<[q0:=l]> a)).
  rewrite IH by done. by apply lookup_insert_ne.
Qed.

Lemma attach_lookup_eq l qs a q : q ∈ qs → attach l qs a !! q = Some l.
Proof.
  revert a. induction qs as [|q0 qs IH]; intros a Hq; [by inversion Hq|].
  change (attach l (q0 :: qs) a) with (attach l qs (<[q0:=l]> a)).
  destruct (decide (q ∈ qs)) as [Hin|Hnin].
  - by apply IH.
  - apply elem_of_cons in Hq as [->|]; [|done].
    rewrite attach_lookup_ne by done. apply lookup_insert_eq.
Qed.

(** What installation does to the state, whether the loop over the
    parameters runs to its end or not. *)
Lemma install_inv p m (s : state) r s' :
  install p m s = (r, s') →
  _is_init s' = _is_init s ∧
  tensors (st_world s') = tensors (st_world s) ∧
  log_handlers s' = log_handlers s ∧
  next_ref s' = S (next_ref s) ∧
  trace s' = trace s ++ [EInstall p (next_ref s)] ∧
  (∀ l, l ≠ next_ref s → dicts (st_world s') l = dicts (st_world s) l) ∧
  ∃ ok d,
    fill_dict mean (cls m) (st_world s) (named_parameters m) ∅ = (ok, d) ∧
    dicts (st_world s') (next_ref s) = d ∧
    if ok then
      r = Ok ∧
      _params_init_info s' =
        attach (next_ref s) (modules p m) (<[p := next_ref s]> (_params_init_info s))
    else
      r = Raise RuntimeError ∧
      _params_init_info s' = <[p := next_ref s]> (_params_init_info s).
Proof.
  unfold install_tracking.
  destruct (fill_dict _ _ _ _ _) as [[] d] eqn:Hfill; intros [= <- <-]; simpl;
    (split_and!; [done.. | |]);
    try (intros l Hl; by destruct (decide (l = next_ref s)));
    eexists _, d; (split; [done|]);
    (split; [by destruct (decide (next_ref s = next_ref s))|]); done.
Qed.

Lemma install_Ok p m (s s0 : state) :
  install p m s = (Ok, s0) →
  ∀ q, _params_init_info s0 !! q =
       if bool_decide (q ∈ modules p m) then Some (next_ref s)
       else _params_init_info s !! q.
Proof.
  intros (_ & _ & _ & _ & _ & _ & ok & d & _ & _ & H)%install_inv q.
  destruct ok; [|by destruct H]. destruct H as [_ ->].
  case_bool_decide as Hq; [by apply attach_lookup_eq|].
  rewrite attach_lookup_ne by done. apply lookup_insert_ne.
  intros <-. apply Hq, modules_root.
Qed.

Lemma install_Raise p m (s : state) e s' :
  install p m s = (Raise e, s') →
  e = RuntimeError ∧
  _params_init_info s' = <[p := next_ref s]> (_params_init_info s).
Proof.
  intros (_ & _ & _ & _ & _ & _ & ok & d & _ & _ & H)%install_inv.
  destruct ok; destruct H as [[=] H]; by subst.
Qed.

Lemma install_tracked p m (s s0 : state) q :
  install p m s = (Ok, s0) → q ∈ modules p m →
  _params_init_info s0 !! q = Some (next_ref s).
Proof.
  intros H Hq. rewrite (install_Ok p m s s0 H). by rewrite bool_decide_eq_true_2.
Qed.

Lemma install_has_tracked p m (s s0 : state) :
  install p m s = (Ok, s0) → tracked (modules p m) s0.
Proof. intros H q Hq. rewrite (install_tracked p m s s0 q H Hq). by eexists. Qed.

(** ** The frame of a call *)

Lemma frame_refl N (s : state) : frame N s s.
Proof.
  repeat split; [by left | done | ].
  exists []. by rewrite app_nil_r.
Qed.

Lemma frame_trans N (s1 s2 s3 : state) :
  frame N s1 s2 → frame N s2 s3 → frame N s1 s3.
Proof.
  intros (Hh1 & Hf1 & Ha1 & Hn1 & evs1 & Ht1 & He1)
         (Hh2 & Hf2 & Ha2 & Hn2 & evs2 & Ht2 & He2).
  split_and!.
  - congruence.
  - intros q. destruct (Hf2 q) as [E2|[? E2]]; [|by right].
    destruct (Hf1 q) as [E1|[? E1]]; [left | right]; split_and?; congruence.
  - intros q Hq. rewrite Ha2, Ha1; done.
  - lia.
  - exists (evs1 ++ evs2). split; [by rewrite Ht2, Ht1, app_assoc|].
    by apply Forall_app.
Qed.

Lemma frame_mono N N' (s s' : state) :
  (∀ q, q ∈ N → q ∈ N') → frame N s s' → frame N' s s'.
Proof.
  intros Hsub (Hh & Hf & Ha & Hn & evs & Ht & He). split_and!; try done.
  - intros q. destruct (Hf q) as [E|[? E]]; [by left | right; auto].
  - intros q Hq. apply Ha. naive_solver.
  - exists evs. split; [done|]. eapply Forall_impl; [done|].
    intros e. unfold ev_within. destruct (ev_path e); auto.
Qed.

Lemma frame_emit N (e : event) (s : state) :
  ev_within N e → frame N s (emit e s).
Proof.
  intros He. repeat split; [by left | done |].
  exists [e]. split; [done | by constructor].
Qed.

Lemma frame_set_world N w (s : state) : frame N s (set_world w s).
Proof.
  repeat split; [by left | done | ].
  exists []. by rewrite app_nil_r.
Qed.

Lemma frame_dispatch p m cfg :
  sound (frame (modules p m)) (call_dispatch dispatch p m cfg).
Proof.
  intros s r s'. unfold call_dispatch.
  destruct (dispatch _ _ _ _) as [[] w]; intros [= _ <-];
    (eapply frame_trans; [apply (frame_set_world _ w)|]);
    apply frame_emit; apply modules_root.
Qed.

Lemma frame_update p m info :
  sound (frame (modules p m)) (update p m info).
Proof.
  intros s r s'. unfold call_update_init_info.
  destruct (update_init_info _ _ _ _) as [[] w]; intros [= _ <-].
  - eapply frame_trans; [apply (frame_set_world _ w)|].
    apply frame_emit; apply modules_root.
  - apply frame_set_world.
Qed.

Lemma frame_mark p m (s : state) :
  frame (modules p m) s (set_is_init p true s).
Proof.
  repeat split; [| done | exists []; by rewrite app_nil_r].
  intros q. simpl. destruct (decide (q = p)) as [->|Hne].
  - right. split; [apply modules_root | apply lookup_insert_eq].
  - left. by apply lookup_insert_ne.
Qed.

Lemma frame_install p m : sound (frame (modules p m)) (install p m).
Proof.
  intros s r s' H.
  assert (Hinv := install_inv p m s r s' H).
  destruct Hinv as (F & _ & Hh & Hn & T & _ & ok & d & _ & _ & Ha).
  split_and!; [done | by left; rewrite F | | lia |].
  - intros q Hq. destruct ok; destruct Ha as [_ ->].
    + rewrite attach_lookup_ne by done. apply lookup_insert_ne.
      intros <-. apply Hq, modules_root.
    + apply lookup_insert_ne. intros <-. apply Hq, modules_root.
  - exists [EInstall p (next_ref s)]. split; [done|].
    constructor; [apply modules_root | constructor].
Qed.

Lemma frame_report_loop N out p nps :
  (∀ txt, ev_path (out txt) = None) →
  sound (frame N) (report_loop out p nps : M).
Proof.
  intros Hout. induction nps as [|[name prm] nps IH]; intros s r s'; simpl.
  - intros [= _ <-]. apply frame_refl.
  - destruct (_params_init_info s !! p) as [l|];
      [|intros [= _ <-]; apply frame_refl].
    destruct (dicts _ l !! _) as [e|]; [|intros [= _ <-]; apply frame_set_world].
    destruct (init_info e) as [info|]; [|intros [= _ <-]; apply frame_refl].
    intros Hrun. eapply frame_trans; [|by eapply IH].
    apply frame_emit. unfold ev_within. by rewrite Hout.
Qed.

Lemma frame_cleanup_loop N qs :
  (∀ q, q ∈ qs → q ∈ N) →
  sound (frame N) (cleanup_loop qs : M).
Proof.
  induction qs as [|q0 qs IH]; intros Hsub s r s'; simpl.
  - intros [= _ <-]. apply frame_refl.
  - destruct (_params_init_info s !! q0) as [l|];
      [|intros [= _ <-]; apply frame_refl].
    intros Hrun. eapply frame_trans; [|eapply IH; [|done]].
    + split_and!; [done | by left | | simpl; lia | exists []; by rewrite app_nil_r].
      intros q Hq. simpl. apply lookup_delete_ne. intros ->.
      apply Hq, Hsub. left.
    + intros q Hq. apply Hsub. by right.
Qed.

Lemma frame_finalize p m :
  sound (frame (modules p m)) (_finalize_init p m : M).
Proof.
  unfold _finalize_init.
  repeat (apply sound_bind; [apply frame_trans | ..]).
  - intros s r s'. unfold dump_info.
    destruct (first_file_handler 0 _) as [[h []]|].
    + revert s r s'. repeat (apply sound_bind; [apply frame_trans | ..]).
      * intros s r s' [= _ <-]. by apply frame_emit.
      * by apply frame_report_loop.
      * intros s r s' [= _ <-]. by apply frame_emit.
    + intros [= _ <-]. apply frame_refl.
    + by apply frame_report_loop.
  - by apply frame_cleanup_loop.
  - intros s r s' [= _ <-]. apply frame_emit, modules_root.
Qed.

Lemma frame_engine :
  (∀ m p, sound (frame (modules p m)) (run p m)) ∧
  (∀ m p, sound (frame (modules p m)) (trav p m)).
Proof.
  apply (engine_sound (fun p m => frame (modules p m))).
  - intros; apply frame_refl.
  - intros ?????; apply frame_trans.
  - intros q c k nc s s' Hk. apply frame_mono.
    intros ?; by apply modules_child_subseteq.
  - intros; by apply frame_emit.
  - apply frame_dispatch.
  - apply frame_update.
  - apply frame_mark.
  - intros q c s r s' _ H. by eapply frame_install.
  - intros q c s s1 r s' _ H Hfin.
    eapply frame_trans; [done|]. by eapply frame_finalize.
Qed.

(** Whatever its outcome, a call changes flags only upwards and only
    inside the subtree it is made on. *)
Lemma init_weights_frame m p : sound (frame (modules p m)) (run p m).
Proof. apply frame_engine. Qed.

Lemma traverse_frame m p : sound (frame (modules p m)) (trav p m).
Proof. apply frame_engine. Qed.

(** ** Calls below the top level leave the tracking attribute alone *)

Lemma quiet_refl N (s : state) : quiet N s s.
Proof. intros _. split_and!; [done..|]. exists []. by rewrite app_nil_r. Qed.

Lemma quiet_trans N (s1 s2 s3 : state) :
  quiet N s1 s2 → quiet N s2 s3 → quiet N s1 s3.
Proof.
  intros H1 H2 Ht. destruct (H1 Ht) as (Ha1 & Hn1 & evs1 & Ht1 & He1).
  destruct H2 as (Ha2 & Hn2 & evs2 & Ht2 & He2).
  { intros q Hq. rewrite Ha1. by apply Ht. }
  split_and!; [congruence.. |].
  exists (evs1 ++ evs2). split; [by rewrite Ht2, Ht1, app_assoc|].
  by apply Forall_app.
Qed.

Lemma quiet_mono N N' (s s' : state) :
  (∀ q, q ∈ N → q ∈ N') → quiet N s s' → quiet N' s s'.
Proof. intros Hsub H Ht. apply H. intros q Hq. by apply Ht, Hsub. Qed.

Lemma quiet_emit N (e : event) (s : state) :
  is_tracking_event e = false → quiet N s (emit e s).
Proof.
  intros He _. split_and!; [done..|]. exists [e]. split; [done|]. by constructor.
Qed.

Lemma quiet_same N (s s' : state) :
  _params_init_info s' = _params_init_info s → next_ref s' = next_ref s →
  trace s' = trace s → quiet N s s'.
Proof.
  intros Ha Hn Ht _. split_and!; [done..|]. exists []. by rewrite app_nil_r.
Qed.

Lemma quiet_dispatch N p m cfg :
  sound (quiet N) (call_dispatch dispatch p m cfg).
Proof.
  intros s r s'. unfold call_dispatch.
  destruct (dispatch _ _ _ _) as [[] w]; intros [= _ <-];
    (eapply quiet_trans; [apply (quiet_same _ _ (set_world w s)); done|]);
    by apply quiet_emit.
Qed.

Lemma quiet_update N p m info :
  sound (quiet N) (update p m info).
Proof.
  intros s r s'. unfold call_update_init_info.
  destruct (update_init_info _ _ _ _) as [[] w]; intros [= _ <-].
  - eapply quiet_trans; [apply (quiet_same _ _ (set_world w s)); done|].
    by apply quiet_emit.
  - by apply quiet_same.
Qed.

Lemma tracked_has_tracking p m (s : state) :
  tracked (modules p m) s → has_tracking s p = true.
Proof.
  intros Ht. unfold has_tracking. apply bool_decide_eq_true, Ht, modules_root.
Qed.

Lemma quiet_engine :
  (∀ m p, sound (quiet (modules p m)) (run p m)) ∧
  (∀ m p, sound (quiet (modules p m)) (trav p m)).
Proof.
  apply (engine_sound (fun p m => quiet (modules p m))).
  - intros; apply quiet_refl.
  - intros ?????; apply quiet_trans.
  - intros q c k nc s s' Hk. apply quiet_mono.
    intros ?; by apply modules_child_subseteq.
  - intros; by apply quiet_emit.
  - intros; apply quiet_dispatch.
  - intros; apply quiet_update.
  - intros; by apply quiet_same.
  - intros q c s r s' Hno _ Ht. apply tracked_has_tracking in Ht. congruence.
  - intros q c s s1 r s' Hno _ _ Ht. apply tracked_has_tracking in Ht.
    congruence.
Qed.

Lemma init_weights_quiet m p : sound (quiet (modules p m)) (run p m).
Proof. apply quiet_engine. Qed.

Lemma traverse_quiet m p : sound (quiet (modules p m)) (trav p m).
Proof. apply quiet_engine. Qed.

(** ** Finalisation *)

Lemma detach_lookup_ne (qs : list path) (a : gmap path nat) (q : path) :
  q ∉ qs → detach qs a !! q = a !! q.
Proof.
  revert a. induction qs as [|q0 qs IH]; intros a Hq; [done|].
  apply not_elem_of_cons in Hq as [Hne Hq].
  change (detach (q0 :: qs) a) with (detach qs (delete q0 a)).
  rewrite IH by done. by apply lookup_delete_ne.
Qed.

Lemma detach_lookup_None (qs : list path) (a : gmap path nat) (q : path) :
  a !! q = None → detach qs a !! q = None.
Proof.
  revert a. induction qs as [|q0 qs IH]; intros a Hq; [done|].
  change (detach (q0 :: qs) a) with (detach qs (delete q0 a)).
  apply IH. rewrite lookup_delete. by case_decide.
Qed.

Lemma detach_lookup_eq (qs : list path) (a : gmap path nat) (q : path) :
  q ∈ qs → detach qs a !! q = None.
Proof.
  revert a. induction qs as [|q0 qs IH]; intros a Hq; [by inversion Hq|].
  change (detach (q0 :: qs) a) with (detach qs (delete q0 a)).
  apply elem_of_cons in Hq as [->|Hq]; [|by apply IH].
  apply detach_lookup_None, lookup_delete_eq.
Qed.

Lemma cleanup_loop_Ok qs (s s' : state) :
  cleanup_loop qs s = (Ok, s') →
  s' = set_info_attrs (detach qs (_params_init_info s)) s.
Proof.
  revert s. induction qs as [|q0 qs IH]; intros s; simpl.
  - intros [= <-]. by destruct s.
  - destruct (_params_init_info s !! q0); [|done].
    intros Hrun. by apply IH in Hrun.
Qed.

Lemma cleanup_loop_tracked qs (s : state) :
  NoDup qs → tracked qs s → ∃ s', cleanup_loop qs s = (Ok, s').
Proof.
  revert s. induction qs as [|q0 qs IH]; intros s Hnd Ht; simpl.
  - by eexists.
  - apply NoDup_cons in Hnd as [Hq0 Hnd].
    destruct (Ht q0) as [l ->]; [left|].
    apply IH; [done|]. intros q Hq. simpl.
    rewrite lookup_delete_ne by (intros ->; done). apply Ht. by right.
Qed.

Lemma report_loop_fields out p nps (s : state) r s' :
  report_loop out p nps s = (r, s') →
  _is_init s' = _is_init s ∧
  _params_init_info s' = _params_init_info s ∧
  next_ref s' = next_ref s ∧
  log_handlers s' = log_handlers s ∧
  tensors (st_world s') = tensors (st_world s) ∧
  (is_Some (_params_init_info s !! p) → r = Ok ∨ r = Raise KeyError) ∧
  ∃ lines, trace s' = trace s ++ map out lines.
Proof.
  revert s. induction nps as [|[name prm] nps IH]; intros s; simpl.
  - intros [= <- <-]. split_and!; auto. exists []. by rewrite app_nil_r.
  - destruct (_params_init_info s !! p) as [l|] eqn:Hl.
    + destruct (dicts _ l !! _) as [e|].
      * destruct (init_info e) as [info|].
        -- intros Hrun. apply IH in Hrun as (? & ? & ? & ? & ? & Hr & lines & Ht).
           split_and!; try done.
           ++ intros _. apply Hr. simpl. by rewrite Hl.
           ++ exists (report_line name (p_shape prm) info :: lines).
              rewrite Ht. simpl. by rewrite <- app_assoc.
        -- intros [= <- <-]. split_and!; auto. exists []. by rewrite app_nil_r.
      * intros [= <- <-]. split_and!; auto. exists []. by rewrite app_nil_r.
    + intros [= <- <-]. split_and!; auto.
      * by intros [? ?].
      * exists []. by rewrite app_nil_r.
Qed.

(** A dump succeeds when every parameter has a description; here every
    description is [info]. *)
Lemma report_loop_const out p nps l info (s : state) :
  _params_init_info s !! p = Some l →
  (∀ np, np ∈ nps →
         ∃ e, dicts (st_world s) l !! p_id (snd np) = Some e ∧
              init_info e = Some info) →
  ∃ s', report_loop out p nps s = (Ok, s') ∧ same_but_trace s s' ∧
        trace s' = trace s ++
          map (fun np => out (report_line (fst np) (p_shape (snd np)) info)) nps.
Proof.
  revert s. induction nps as [|[name prm] nps IH]; intros s Hl Hd; simpl.
  - exists s. split_and!; try done. by rewrite app_nil_r.
  - rewrite Hl. destruct (Hd (name, prm)) as (e & He & Hinfo); [left|].
    simpl in He. rewrite He, Hinfo.
    destruct (IH (emit (out (report_line name (p_shape prm) info)) s))
      as (s' & -> & Hsame & Ht); [done | |].
    { intros np Hnp. apply Hd. by right. }
    exists s'. split_and!; [done | apply Hsame |].
    rewrite Ht. simpl. by rewrite <- app_assoc.
Qed.

Lemma dedup_by_id_covers l : ∀ seen np,
  np ∈ l → p_id (snd np) ∉ seen →
  ∃ np', np' ∈ dedup_by_id seen l ∧ p_id (snd np') = p_id (snd np).
Proof.
  induction l as [|x l IH]; intros seen np Hin Hseen; [by inversion Hin|].
  simpl. case_bool_decide as Hx.
  - apply elem_of_cons in Hin as [->|Hin]; [done|]. by apply IH.
  - destruct (decide (p_id (snd x) = p_id (snd np))) as [E|Hne].
    + exists x. split; [left | done].
    + apply elem_of_cons in Hin as [->|Hin]; [done|].
      destruct (IH ({[p_id (snd x)]} ∪ seen) np Hin) as (np' & Hnp' & E).
      { intros [Hs|Hs]%elem_of_union; [|done].
        apply elem_of_singleton in Hs. congruence. }
      exists np'. split; [by right | done].
Qed.

Lemma dedup_by_id_subseteq l : ∀ seen np, np ∈ dedup_by_id seen l → np ∈ l.
Proof.
  induction l as [|x l IH]; intros seen np; simpl; [done|].
  case_bool_decide as Hx.
  - intros H. right. by eapply IH.
  - intros [->|H]%elem_of_cons; [left | right; by eapply IH].
Qed.

(** ** The loop of lines 53-57 *)

Local Abbreviation ids nps := ((fun np : string * param => p_id (snd np)) <$> nps).

Local Abbreviation described c w i :=
  (Some {| init_info := Some (unchanged_info c);
           tmp_mean_value := mean (tensors w i) |}).

Lemma fill_dict_spec c (w : world) nps : ∀ d ok d',
  fill_dict mean c w nps d = (ok, d') →
  if ok then
    Forall (fun np => is_Some (mean (tensors w (p_id (snd np))))) nps ∧
    ∀ i, d' !! i = if bool_decide (i ∈ ids nps) then described c w i else d !! i
  else
    ∃ pre np post,
      nps = pre ++ np :: post ∧
      Forall (fun np => is_Some (mean (tensors w (p_id (snd np))))) pre ∧
      mean (tensors w (p_id (snd np))) = None ∧
      ∀ i, d' !! i =
           if bool_decide (i = p_id (snd np)) then
             Some {| init_info := Some (unchanged_info c);
                     tmp_mean_value := d !! i ≫= tmp_mean_value |}
           else if bool_decide (i ∈ ids pre) then described c w i
           else d !! i.
Proof.
  induction nps as [|np nps IH]; intros d ok d'; simpl.
  - intros [= <- <-]. split; [constructor | done].
  - destruct (mean (tensors w (p_id (snd np)))) as [v|] eqn:Hm.
    + intros H. apply IH in H. destruct ok; cbv iota in *.
      * destruct H as [Hall Hl]. split; [constructor; [by rewrite Hm|done]|].
        intros i. rewrite Hl. case_bool_decide as Hi.
        -- rewrite bool_decide_eq_true_2; [done | by right].
        -- destruct (decide (i = p_id (snd np))) as [->|Hne].
           ++ rewrite bool_decide_eq_true_2 by left.
              by rewrite lookup_insert_eq, Hm.
           ++ rewrite !lookup_insert_ne by done.
              rewrite bool_decide_eq_false_2; [done|].
              by intros [?|?]%elem_of_cons.
      * destruct H as (pre & np' & post & -> & Hpre & Hnp' & Hl).
        exists (np :: pre), np', post. split; [done|].
        split; [constructor; [by rewrite Hm|done]|]. split; [done|].
        assert (Hne : p_id (snd np') ≠ p_id (snd np)) by (intros E; congruence).
        intros i. rewrite Hl. case_bool_decide as Hi.
        { subst i. by rewrite !lookup_insert_ne. }
        case_bool_decide as Hi'.
        -- rewrite bool_decide_eq_true_2; [done | by right].
        -- destruct (decide (i = p_id (snd np))) as [->|Hne'].
           ++ rewrite bool_decide_eq_true_2 by left.
              by rewrite lookup_insert_eq, Hm.
           ++ rewrite !lookup_insert_ne by done.
              rewrite bool_decide_eq_false_2; [done|].
              by intros [?|?]%elem_of_cons.
    + intros [= <- <-]. cbv iota. exists [], np, nps. split; [done|].
      split; [constructor|]. split; [done|]. intros i.
      case_bool_decide as Hi.
      * subst i. rewrite lookup_insert_eq. by destruct (d !! _).
      * rewrite lookup_insert_ne by done.
        rewrite bool_decide_eq_false_2; [done|]. by intros ?%elem_of_nil.
Qed.

(** The loop runs to its end exactly when the mean of every parameter
    can be taken. *)
Lemma fill_dict_ok c (w : world) nps d ok d' :
  fill_dict mean c w nps d = (ok, d') →
  ok = forallb (fun np => bool_decide (is_Some (mean (tensors w (p_id (snd np)))))) nps.
Proof.
  revert d. induction nps as [|np nps IH]; intros d; simpl.
  - by intros [= <- _].
  - destruct (mean _) as [v|] eqn:Hm.
    + rewrite bool_decide_eq_true_2 by done. apply IH.
    + intros [= <- _]. rewrite bool_decide_eq_false_2; [done|]. by intros [? ?].
Qed.

Lemma install_returns p m (s : state) :
  mean_defined mean m s = true → ∃ s0, install p m s = (Ok, s0).
Proof.
  intros Hm. unfold install_tracking.
  destruct (fill_dict _ _ _ _ _) as [ok d] eqn:Hf.
  apply fill_dict_ok in Hf. unfold mean_defined in Hm. rewrite Hm in Hf. subst ok.
  by eexists.
Qed.

Lemma install_Ok_mean_defined p m (s s0 : state) :
  install p m s = (Ok, s0) → mean_defined mean m s = true.
Proof.
  unfold install_tracking.
  destruct (fill_dict _ _ _ _ _) as [ok d] eqn:Hf.
  apply fill_dict_ok in Hf. destruct ok; [by intros _|done].
Qed.

(** Installation that returns has given every parameter of the tree,
    whichever node owns it, the default description naming the class of
    the node the call is made on, and the mean its buffer has at that
    moment. *)
Lemma install_entries p m (s s0 : state) name prm :
  install p m s = (Ok, s0) →
  (name, prm) ∈ named_parameters_raw "" m →
  is_Some (mean (tensors (st_world s) (p_id prm))) ∧
  dicts (st_world s0) (next_ref s) !! p_id prm =
  Some {| init_info := Some (unchanged_info (cls m));
          tmp_mean_value := mean (tensors (st_world s) (p_id prm)) |}.
Proof.
  intros (_ & _ & _ & _ & _ & _ & ok & d & Hf & -> & H)%install_inv Hin.
  destruct ok; [|by destruct H]. apply fill_dict_spec in Hf as [Hall Hl].
  destruct (dedup_by_id_covers _ ∅ _ Hin) as (np' & Hnp' & E); [set_solver|].
  simpl in E. split.
  - rewrite Forall_forall in Hall. rewrite <- E. by apply Hall.
  - rewrite Hl, bool_decide_eq_true_2; [done|].
    apply list_elem_of_fmap. by exists np'.
Qed.

Lemma install_defaults p m (s s0 : state) np :
  install p m s = (Ok, s0) →
  np ∈ named_parameters m →
  ∃ e, dicts (st_world s0) (next_ref s) !! p_id (snd np) = Some e ∧
       init_info e = Some (unchanged_info (cls m)).
Proof.
  intros H Hnp. destruct np as [name prm].
  destruct (install_entries p m s s0 name prm H) as [_ He].
  { by apply dedup_by_id_subseteq in Hnp. }
  eexists. split; [exact He | done].
Qed.

Lemma dump_info_fields p m (s : state) r s' :
  dump_info p m s = (r, s') →
  _is_init s' = _is_init s ∧
  _params_init_info s' = _params_init_info s ∧
  next_ref s' = next_ref s ∧
  log_handlers s' = log_handlers s ∧
  tensors (st_world s') = tensors (st_world s) ∧
  (is_Some (_params_init_info s !! p) →
   r = Ok ∨ r = Raise KeyError ∨
   (r = Raise AttributeError ∧ stream_ready (log_handlers s) = false ∧
    trace s' = trace s)) ∧
  ∃ evs, trace s' = trace s ++ evs ∧
         Forall (fun e => is_tracking_event e = false ∧ is_rule_event e = false
                          ∧ ev_path e = None) evs.
Proof.
  unfold dump_info, stream_ready.
  destruct (first_file_handler 0 _) as [[h []]|].
  2:{ intros [= <- <-]. split_and!; auto.
      exists []. by rewrite app_nil_r. }
  - intros [(s1 & [= <-] & H2) | (e & [=] & _)]%bind_inv.
    apply bind_inv in H2 as [(s2 & H2 & [= <- <-]) | (e & H2 & ->)];
      apply report_loop_fields in H2
        as (? & ? & ? & ? & ? & Hr & lines & Ht); simpl in *.
    + split_and!; try done; [by left|].
      exists (EWrite h report_header :: map (EWrite h) lines ++ [EFlush h]).
      split; [rewrite Ht; simpl; by rewrite <- !app_assoc|].
      constructor; [done|]. apply Forall_app. split; [|by repeat constructor].
      apply Forall_forall. by intros e (? & -> & _)%list_elem_of_fmap.
    + split_and!; try done.
      { intros Hs. destruct (Hr Hs) as [[=]|[= ->]]. by right; left. }
      exists (EWrite h report_header :: map (EWrite h) lines).
      split; [rewrite Ht; simpl; by rewrite <- !app_assoc|].
      constructor; [done|].
      apply Forall_forall. by intros e' (? & -> & _)%list_elem_of_fmap.
  - intros (? & ? & ? & ? & ? & Hr & lines & Ht)%report_loop_fields.
    split_and!; try done.
    { intros Hs. destruct (Hr Hs) as [->|[= ->]]; [by left | by right; left]. }
    exists (map (ELog INFO) lines). split; [done|].
    apply Forall_forall. by intros e' (? & -> & _)%list_elem_of_fmap.
Qed.

(** Finalisation on a subtree that carries the attribute on every node:
    it returns unless the dump meets a parameter without description or
    a file handler without stream; it never touches a flag or a buffer;
    when it returns the attribute is gone from every node of the
    subtree, and when it raises the attribute is still on every node. *)
Lemma finalize_spec p m (s : state) r s' :
  tracked (modules p m) s →
  _finalize_init p m s = (r, s') →
  _is_init s' = _is_init s ∧
  next_ref s' = next_ref s ∧
  log_handlers s' = log_handlers s ∧
  tensors (st_world s') = tensors (st_world s) ∧
  ∃ evs,
    Forall (fun e => is_tracking_event e = false ∧ is_rule_event e = false
                     ∧ ev_path e = None) evs ∧
    match r with
    | Ok =>
        _params_init_info s' = detach (modules p m) (_params_init_info s) ∧
        trace s' = trace s ++ evs ++ [ECleanup p]
    | Raise e =>
        (e = KeyError ∨
         (e = AttributeError ∧ stream_ready (log_handlers s) = false)) ∧
        _params_init_info s' = _params_init_info s ∧
        trace s' = trace s ++ evs
    end.
Proof.
  intros Htr. unfold _finalize_init.
  intros [(s1 & H1 & H2) | (e & H1 & ->)]%bind_inv;
    apply dump_info_fields in H1 as (Hi & Ha & Hn & Hh & Hw & Hr & evs & Ht & He).
  - destruct (cleanup_loop_tracked (modules p m) s1) as [s2 Hc].
    { apply NoDup_modules. }
    { intros q Hq. rewrite Ha. by apply Htr. }
    rewrite (bind_Ok _ _ _ _ Hc) in H2. injection H2 as <- <-.
    apply cleanup_loop_Ok in Hc as ->. simpl.
    split_and!; try done. exists evs. split; [done|].
    split; [by rewrite Ha | by rewrite Ht, app_assoc].
  - split_and!; try done. exists evs. split; [done|].
    destruct Hr as [|[[= ->]|([= ->] & ? & _)]];
      [apply Htr, modules_root | done | by split_and!; [left|..]
       | by split_and!; [right|..]].
Qed.

(** ** A top-level call, stage by stage *)

(** A call on a node without the tracking attribute first installs it.
    If the loop over the parameters raises, that is the end of the call.
    Otherwise the attribute is on the whole subtree, the traversal does
    not touch it, and finalisation follows only if the traversal
    returned. *)
Lemma top_level_call p m (s : state) r s' :
  has_init_weights m = true →
  has_tracking s p = false →
  run p m s = (r, s') →
  (install p m s = (Raise RuntimeError, s') ∧ r = Raise RuntimeError) ∨
  ∃ s0 r1 s1,
    install p m s = (Ok, s0) ∧
    trav p m s0 = (r1, s1) ∧
    _params_init_info s1 = _params_init_info s0 ∧
    next_ref s1 = S (next_ref s) ∧
    (∃ evs, trace s1 = trace s ++ EInstall p (next_ref s) :: evs ∧
            Forall (fun e => is_tracking_event e = false) evs) ∧
    match r1 with
    | Ok => _finalize_init p m s1 = (r, s')
    | Raise e => r = Raise e ∧ s' = s1
    end.
Proof.
  intros Hw Htop. rewrite init_weights_eq, Hw, Htop. simpl negb. cbv iota.
  intros [(s0 & H0 & Hrun) | (e & H0 & ->)]%bind_inv.
  2:{ left. destruct (install_Raise _ _ _ _ _ H0) as [-> _]. done. }
  right. destruct (trav p m s0) as [r1 s1] eqn:Ht.
  exists s0, r1, s1. split; [done|]. split; [done|].
  destruct (traverse_quiet _ _ _ _ _ Ht (install_has_tracked p m s s0 H0))
    as (Ha & Hn & evs & Hev & Hq).
  apply install_inv in H0 as (_ & _ & _ & Hn0 & T0 & _).
  split_and!; [done | congruence | |].
  - exists evs. split; [|done]. rewrite Hev, T0. by rewrite <- app_assoc.
  - unfold bind in Hrun. rewrite Ht in Hrun. destruct r1; [done|].
    by injection Hrun as <- <-.
Qed.

(** ** Flags, repeated calls, provenance and the lifetime of the
    tracking map *)

(** C8. The flag [_is_init] of a node never goes from true back to
    false: whatever node [init_weights] or [_finalize_init] is run on,
    from whatever state and with whatever outcome, a node whose flag was
    true still has it true afterwards. *)
Theorem C8_is_init_never_reset p m (s : state) q :
  _is_init s !! q = Some true →
  (∀ r s', run p m s = (r, s') → _is_init s' !! q = Some true) ∧
  (∀ r s', _finalize_init p m s = (r, s') → _is_init s' !! q = Some true).
Proof.
  intros Hq. split; intros r s' Hrun.
  - apply init_weights_frame in Hrun as (_ & Hf & _).
    destruct (Hf q) as [E|[_ E]]; congruence.
  - apply frame_finalize in Hrun as (_ & Hf & _).
    destruct (Hf q) as [E|[_ E]]; congruence.
Qed.

Lemma traverse_initialized p m (s : state) :
  _is_init s !! p = Some true →
  trav p m s = (Ok, emit (ELog WARNING (multiple_times_msg (cls m))) s).
Proof. intros H. unfold traverse. by rewrite H. Qed.

Lemma no_path_no_collaborator e :
  ev_path e = None → is_collaborator_event e = false.
Proof. by destruct e. Qed.

Lemma install_Raise_mean_defined p m (s : state) e s' :
  install p m s = (Raise e, s') → mean_defined mean m s = false.
Proof.
  intros H. destruct (mean_defined mean m s) eqn:Hm; [|done].
  destruct (install_returns p m s Hm) as [s0 H0]. congruence.
Qed.

(** C1 (amended). A call on a node whose flag is already true, top-level
    or not, hands no rule to dispatch and no node to
    [update_init_info]; it changes no flag, so a child that is not yet
    initialised stays uninitialised, and it changes no parameter buffer.
    It emits the warning, unless it is a top-level call that raises
    while the tracking map is being installed, at line 57, before the
    guard is reached. *)
Theorem C1_initialized_root_is_skipped_with_its_children p m (s : state) r s' :
  has_init_weights m = true →
  _is_init s !! p = Some true →
  run p m s = (r, s') →
  _is_init s' = _is_init s ∧
  tensors (st_world s') = tensors (st_world s) ∧
  ∃ evs, trace s' = trace s ++ evs ∧
         (has_tracking s p = true ∨ mean_defined mean m s = true →
          ELog WARNING (multiple_times_msg (cls m)) ∈ evs) ∧
         Forall (fun e => is_collaborator_event e = false) evs.
Proof.
  intros Hw Hp Hrun. destruct (has_tracking s p) eqn:Htop.
  - rewrite init_weights_eq, Hw, Htop, traverse_initialized in Hrun by done.
    injection Hrun as <- <-. split_and!; [done..|].
    eexists. split; [done|]. split; [intros _; left | by repeat constructor].
  - destruct (top_level_call p m s r s' Hw Htop Hrun)
      as [[H0 ->] | (s0 & r1 & s1 & H0 & Ht & _ & _ & _ & Hfin)].
    { assert (Hm := install_Raise_mean_defined _ _ _ _ _ H0).
      apply install_inv in H0 as (F & T & _ & _ & Tr & _).
      split_and!; [done..|]. eexists. split; [done|].
      split; [intros [[=]|?]; congruence | by repeat constructor]. }
    assert (Htr := install_has_tracked _ _ _ _ H0).
    apply install_inv in H0 as (F & T & _ & _ & Tr & _).
    rewrite traverse_initialized in Ht by (by rewrite F).
    injection Ht as <- <-.
    apply finalize_spec in Hfin as (Hi & _ & _ & Hts & evs & He & Hr); [|done].
    split_and!; [by rewrite Hi | by rewrite Hts |].
    assert (Hc : Forall (fun e => is_collaborator_event e = false) evs).
    { eapply Forall_impl; [done|]. intros e (_ & _ & ?).
      by apply no_path_no_collaborator. }
    destruct r as [|e].
    + destruct Hr as [_ ->]. simpl. rewrite Tr, <- !app_assoc. simpl.
      eexists. split; [done|]. split; [intros _; right; left|].
      repeat constructor. apply Forall_app. split; [done | by repeat constructor].
    + destruct Hr as (_ & _ & ->). simpl. rewrite Tr, <- !app_assoc. simpl.
      eexists. split; [done|]. split; [intros _; right; left|].
      by repeat constructor.
Qed.

Lemma dump_info_const p m l info (s : state) :
  _params_init_info s !! p = Some l →
  stream_ready (log_handlers s) = true →
  (∀ np, np ∈ named_parameters m →
         ∃ e, dicts (st_world s) l !! p_id (snd np) = Some e ∧
              init_info e = Some info) →
  ∃ s', dump_info p m s = (Ok, s') ∧ same_but_trace s s' ∧
        trace s' = trace s ++
          report_events (log_handlers s)
            (map (fun np => report_line (fst np) (p_shape (snd np)) info)
                 (named_parameters m)).
Proof.
  intros Hl Hs Hd. unfold dump_info, report_events. unfold stream_ready in Hs.
  destruct (first_file_handler 0 _) as [[h []]|]; [|done|].
  - destruct (report_loop_const (EWrite h) p (named_parameters m) l info
                (emit (EWrite h report_header) s) Hl Hd)
      as (s1 & Hrun & Hsame & Ht).
    exists (emit (EFlush h) s1). split_and!.
    + unfold bind, tell. by rewrite Hrun.
    + apply Hsame.
    + simpl. rewrite Ht. simpl. rewrite <- !app_assoc. simpl.
      by rewrite map_map.
  - destruct (report_loop_const (ELog INFO) p (named_parameters m) l info
                s Hl Hd) as (s1 & Hrun & Hsame & Ht).
    exists s1. split_and!; [done | done |]. rewrite Ht. by rewrite map_map.
Qed.

Lemma report_events_plain hs lines :
  Forall (fun e => is_warning e = false ∧ is_rule_event e = false ∧
                   is_tracking_event e = false ∧
                   is_collaborator_event e = false)
         (report_events hs lines).
Proof.
  unfold report_events. destruct (first_file_handler 0 hs) as [[h []]|].
  - constructor; [done|]. apply Forall_app. split; [|by repeat constructor].
    apply Forall_forall. by intros e (? & -> & _)%list_elem_of_fmap.
  - constructor.
  - apply Forall_forall. by intros e (? & -> & _)%list_elem_of_fmap.
Qed.

Lemma filter_nil_Forall {A} (f : A → bool) (l : list A) :
  Forall (fun x => f x = false) l → List.filter f l = [].
Proof. induction 1 as [|x l Hx _ IH]; simpl; [done|]. by rewrite Hx. Qed.

(** C6 (amended). A second top-level call on a tree whose nodes are all
    initialised, the mean of every parameter being defined and the
    logger able to take the dump, returns; hands no rule to dispatch
    and calls no collaborator; emits one warning, for the node the call
    is made on, which reads
    ["<class>.init_weights() called multiple times."], the name of
    the class followed by a dot and the name of the method; and goes
    straight to finalisation: a dump in which every parameter carries
    the default description of the tracking map installed by this very
    call, then the removal of that map from every node.  No flag and no
    buffer changes. *)
Theorem C6_second_call_warns_once_and_finalizes p m (s : state) :
  has_init_weights m = true →
  has_tracking s p = false →
  (∀ q, q ∈ modules p m → _is_init s !! q = Some true) →
  mean_defined mean m s = true →
  stream_ready (log_handlers s) = true →
  ∃ s' evs,
    run p m s = (Ok, s') ∧
    trace s' = trace s ++ evs ∧
    evs = [EInstall p (next_ref s);
           ELog WARNING (cls m +:+ ".init_weights() called multiple times.")] ++
          report_events (log_handlers s)
            (map (fun np =>
                    report_line (fst np) (p_shape (snd np))
                      ("The value is unchanged before and after `init_weights` of "
                       +:+ cls m))
                 (named_parameters m)) ++
          [ECleanup p] ∧
    List.filter is_rule_event evs = [] ∧
    List.filter is_collaborator_event evs = [] ∧
    List.filter is_warning evs =
      [ELog WARNING (cls m +:+ ".init_weights() called multiple times.")] ∧
    _is_init s' = _is_init s ∧
    tensors (st_world s') = tensors (st_world s) ∧
    untracked (modules p m) s'.
Proof.
  intros Hw Htop Hall Hm Hs.
  assert (Hp : _is_init s !! p = Some true) by apply Hall, modules_root.
  destruct (install_returns p m s Hm) as [s0 H0].
  assert (Hinv := install_inv _ _ _ _ _ H0).
  destruct Hinv as (F0 & T0 & Hh0 & _ & Tr0 & _).
  set (s1 := emit (ELog WARNING (multiple_times_msg (cls m))) s0).
  destruct (dump_info_const p m (next_ref s) (unchanged_info (cls m)) s1)
    as (s2 & Hdump & (Hi2 & Ha2 & Hw2 & Hn2 & Hh2) & Ht2).
  { simpl. eapply install_tracked; [done | apply modules_root]. }
  { simpl. by rewrite Hh0. }
  { intros np Hnp. exact (install_defaults p m s s0 np H0 Hnp). }
  destruct (cleanup_loop_tracked (modules p m) s2) as [s3 Hc].
  { apply NoDup_modules. }
  { intros q Hq. rewrite Ha2. exact (install_has_tracked p m s s0 H0 q Hq). }
  exists (emit (ECleanup p) s3). eexists. split_and!; [| |reflexivity|..].
  - rewrite init_weights_eq, Hw, Htop. simpl negb. cbv iota.
    rewrite (bind_Ok _ _ _ _ H0).
    erewrite bind_Ok; [|apply traverse_initialized; by rewrite F0].
    unfold _finalize_init. fold s1.
    rewrite (bind_Ok _ _ _ _ Hdump), (bind_Ok _ _ _ _ Hc). done.
  - apply cleanup_loop_Ok in Hc as ->. simpl. rewrite Ht2. simpl.
    rewrite Tr0, Hh0, <- !app_assoc. reflexivity.
  - apply filter_nil_Forall. repeat constructor.
    apply Forall_app. split; [|by repeat constructor].
    eapply Forall_impl; [apply report_events_plain|]. by intros e (_ & ? & _).
  - apply filter_nil_Forall. repeat constructor.
    apply Forall_app. split; [|by repeat constructor].
    eapply Forall_impl; [apply report_events_plain|]. by intros e (_ & _ & _ & ?).
  - simpl. rewrite List.filter_app, filter_nil_Forall; [done|].
    eapply Forall_impl; [apply report_events_plain|]. by intros e (? & _).
  - apply cleanup_loop_Ok in Hc as ->. simpl. by rewrite Hi2.
  - apply cleanup_loop_Ok in Hc as ->. simpl. by rewrite Hw2.
  - apply cleanup_loop_Ok in Hc as ->. intros q Hq. simpl.
    by apply detach_lookup_eq.
Qed.

Lemma named_parameters_raw_covers x : ∀ m prefix mq n prm,
  subtree x m = Some mq → (n, prm) ∈ parameters mq →
  ∃ name, (name, prm) ∈ named_parameters_raw prefix m.
Proof.
  induction x as [|k x IH]; intros [c hw cfg ps ch] prefix mq n prm; simpl.
  - intros [= <-] Hin. exists (qualify prefix n).
    apply elem_of_app. left. apply list_elem_of_In, in_map_iff.
    exists (n, prm). split; [done | by apply list_elem_of_In].
  - destruct (ch !! k) as [nc|] eqn:Hk; [|done]. intros Hsub Hin.
    destruct (IH _ (qualify prefix (fst nc)) _ _ _ Hsub Hin) as [name Hname].
    exists name. apply elem_of_app. right.
    apply list_elem_of_In, in_flat_map. exists nc.
    split; apply list_elem_of_In; [by eapply list_elem_of_lookup_2 | done].
Qed.

Lemma append_inj_r (a b c : string) : a +:+ b = a +:+ c → b = c.
Proof. induction a as [|x a IH]; simpl; [done|]. intros [= H]. by apply IH. Qed.


(** C3 (amended). A top-level call made while no node of the subtree
    carries the tracking map first creates a fresh map, on the node the
    call is made on.  If taking the mean of a parameter raises (line
    57), the call ends there with [RuntimeError]: the map is on that
    node only, no other node of the subtree has it, and nothing removes
    it.  Otherwise one and the same map is on every node before
    anything else happens; the traversal never installs or removes it;
    if the call returns, the map is gone from every node, removed once,
    as the last thing the call does; if the call raises, a
    rule-dispatch failure included, there is no cleanup and the map is
    still on every node. *)
Theorem C3_tracking_map_lifetime p m (s : state) r s' :
  has_init_weights m = true →
  untracked (modules p m) s →
  run p m s = (r, s') →
  (mean_defined mean m s = false ∧
   r = Raise RuntimeError ∧
   trace s' = trace s ++ [EInstall p (next_ref s)] ∧
   _params_init_info s' !! p = Some (next_ref s) ∧
   ∀ q, q ∈ modules p m → q ≠ p → _params_init_info s' !! q = None) ∨
  (mean_defined mean m s = true ∧
   ∃ s0,
     install p m s = (Ok, s0) ∧
     (∀ q, q ∈ modules p m → _params_init_info s0 !! q = Some (next_ref s)) ∧
     (∀ r1 s1, trav p m s0 = (r1, s1) →
               _params_init_info s1 = _params_init_info s0) ∧
     ∃ evs,
       Forall (fun e => is_tracking_event e = false) evs ∧
       match r with
       | Ok =>
           untracked (modules p m) s' ∧
           trace s' = trace s ++ EInstall p (next_ref s) :: evs ++ [ECleanup p]
       | Raise _ =>
           (∀ q, q ∈ modules p m →
                 _params_init_info s' !! q = Some (next_ref s)) ∧
           trace s' = trace s ++ EInstall p (next_ref s) :: evs
       end).
Proof.
  intros Hw Hun Hrun.
  assert (Htop : has_tracking s p = false).
  { unfold has_tracking. apply bool_decide_eq_false.
    rewrite (Hun p (modules_root p m)). by intros [? ?]. }
  destruct (top_level_call p m s r s' Hw Htop Hrun)
    as [[H0 ->] | (s0 & r1 & s1 & H0 & Ht & Ha & _ & (evs & Hev & Hq) & Hfin)].
  { left. assert (Hm := install_Raise_mean_defined _ _ _ _ _ H0).
    destruct (install_Raise _ _ _ _ _ H0) as [_ Ha].
    apply install_inv in H0 as (_ & _ & _ & _ & Tr & _).
    split_and!; [done.. | |].
    - rewrite Ha. apply lookup_insert_eq.
    - intros q Hq0 Hne. rewrite Ha, lookup_insert_ne by done. by apply Hun. }
  right. split; [by eapply install_Ok_mean_defined|]. exists s0.
  assert (Hall : ∀ q, q ∈ modules p m →
                      _params_init_info s0 !! q = Some (next_ref s)).
  { intros q Hq0. by eapply install_tracked. }
  split_and!; [done | done | |].
  - intros r1' s1' Ht'.
    by destruct (traverse_quiet _ _ _ _ _ Ht' (install_has_tracked p m s s0 H0)).
  - destruct r1 as [|e].
    + apply finalize_spec in Hfin as (_ & _ & _ & _ & evs' & He' & Hr).
      2:{ intros q Hq0. rewrite Ha. by eapply install_has_tracked. }
      exists (evs ++ evs'). split.
      { apply Forall_app. split; [done|].
        eapply Forall_impl; [done|]. by intros e (? & _). }
      destruct r as [|e].
      * destruct Hr as [Ha' ->]. split.
        -- intros q Hq0. rewrite Ha'. by apply detach_lookup_eq.
        -- rewrite Hev. rewrite <- !app_assoc. simpl. by rewrite <- ?app_assoc.
      * destruct Hr as (_ & Ha' & ->). split.
        -- intros q Hq0. rewrite Ha', Ha. by apply Hall.
        -- rewrite Hev. by rewrite <- !app_assoc.
    + destruct Hfin as [-> ->]. exists evs. split; [done|]. split; [|done].
      intros q Hq0. rewrite Ha. by apply Hall.
Qed.

(** ** Rules *)

Lemma split_cfgs_filter cfgs : ∀ o pr,
  Forall (fun c => rule_ok c = true) cfgs →
  split_cfgs cfgs o pr =
  inr (o ++ List.filter (fun c => negb (is_override c)) cfgs,
       pr ++ List.filter is_override cfgs).
Proof.
  induction cfgs as [|cfg cfgs IH]; intros o pr Hok; simpl.
  - by rewrite !app_nil_r.
  - apply Forall_cons in Hok as [Hcfg Hok].
    destruct cfg as [| | | | | |items]; try done. simpl in Hcfg |- *.
    rewrite Hcfg. simpl.
    destruct (is_pretrained_type _); simpl; rewrite IH by done;
      by rewrite <- app_assoc.
Qed.

Lemma split_cfgs_error cfgs : ∀ o pr e,
  split_cfgs cfgs o pr = inl e → e = AssertionError ∨ e = TypeError.
Proof.
  induction cfgs as [|cfg cfgs IH]; intros o pr e; simpl; [done|].
  destruct cfg as [| | | | | |items]; try (intros [= <-]; by left).
  destruct (negb _); [intros [= <-]; by right|].
  destruct (is_pretrained_type _); apply IH.
Qed.

Lemma partition_cfg_error cfg e :
  partition_cfg cfg = inl e → e = AssertionError ∨ e = TypeError.
Proof.
  unfold partition_cfg. destruct (truthy cfg); [apply split_cfgs_error | done].
Qed.

Lemma split_cfgs_accepts cfgs : ∀ o pr o' pr',
  split_cfgs cfgs o pr = inr (o', pr') → Forall (fun c => rule_ok c = true) cfgs.
Proof.
  induction cfgs as [|cfg cfgs IH]; intros o pr o' pr'; simpl; [done|].
  destruct cfg as [| | | | | |items]; try done.
  destruct (hashable _) eqn:Hh; simpl; [|done].
  destruct (is_pretrained_type _); intros H%IH; by constructor.
Qed.

Lemma partition_cfg_accepts cfg o pr :
  partition_cfg cfg = inr (o, pr) →
  o = standard_rules cfg ∧ pr = override_rules cfg.
Proof.
  intros H. unfold standard_rules, override_rules.
  assert (Hok : Forall (fun c => rule_ok c = true) (rules_of cfg)).
  { unfold partition_cfg, rules_of in *. destruct (truthy cfg); [|done].
    by eapply split_cfgs_accepts. }
  unfold partition_cfg, rules_of in *. destruct (truthy cfg).
  - rewrite split_cfgs_filter in H by done. by injection H as <- <-.
  - by injection H as <- <-.
Qed.

Lemma partition_cfg_rules_ok cfg o pr :
  partition_cfg cfg = inr (o, pr) →
  Forall (fun c => rule_ok c = true) (rules_of cfg).
Proof.
  unfold partition_cfg, rules_of. destruct (truthy cfg); [|done].
  apply split_cfgs_accepts.
Qed.

Lemma split_cfgs_rejects cfgs : ∀ o pr c,
  List.find (fun c => negb (rule_ok c)) cfgs = Some c →
  split_cfgs cfgs o pr = inl (split_error c).
Proof.
  induction cfgs as [|c0 cfgs IH]; intros o pr c H; simpl in H; [done|].
  destruct (rule_ok c0) eqn:E; simpl in H.
  - destruct c0; try done. simpl in E |- *. rewrite E. simpl.
    destruct (is_pretrained_type _); by apply IH.
  - injection H as <-. destruct c0; try done. simpl in E |- *. by rewrite E.
Qed.

Lemma dispatch_inv p m cfg (s : state) r s' :
  call_dispatch dispatch p m cfg s = (r, s') →
  _is_init s' = _is_init s ∧
  _params_init_info s' = _params_init_info s ∧
  next_ref s' = next_ref s ∧
  log_handlers s' = log_handlers s ∧
  trace s' = trace s ++ [match r with
                         | Ok => EApply p cfg
                         | Raise e => EApplyFailed p cfg e
                         end].
Proof.
  unfold call_dispatch.
  destruct (dispatch _ _ _ _) as [[|e] w]; by intros [= <- <-].
Qed.

Lemma rules_inv p m cfgs : ∀ (s : state) r s',
  rules p m cfgs s = (r, s') →
  _is_init s' = _is_init s ∧
  _params_init_info s' = _params_init_info s ∧
  ∃ evs, trace s' = trace s ++ evs ∧ rules_record p cfgs r evs.
Proof.
  induction cfgs as [|cfg cfgs IH]; intros s r s'; simpl.
  - intros [= <- <-]. split_and!; [done..|]. exists []. by rewrite app_nil_r.
  - intros [(s1 & H1 & H2) | (e & H1 & ->)]%bind_inv.
    + apply dispatch_inv in H1 as (F1 & A1 & _ & _ & T1).
      apply IH in H2 as (F2 & A2 & evs & T2 & Hrec).
      split_and!; [congruence..|]. exists (EApply p cfg :: evs). split.
      * rewrite T2, T1. by rewrite <- app_assoc.
      * destruct r as [|e]; simpl in *; [by rewrite Hrec|].
        destruct Hrec as (applied & c & rest & -> & ->).
        by exists (cfg :: applied), c, rest.
    + apply dispatch_inv in H1 as (F1 & A1 & _ & _ & T1).
      split_and!; [done..|]. exists [EApplyFailed p cfg e]. split; [done|].
      by exists [], cfg, cfgs.
Qed.

Lemma when_rules_inv p m cfgs (s : state) r s' :
  when (nonempty cfgs) (rules p m cfgs) s = (r, s') →
  _is_init s' = _is_init s ∧
  _params_init_info s' = _params_init_info s ∧
  ∃ evs, trace s' = trace s ++ evs ∧ rules_record p cfgs r evs.
Proof.
  destruct cfgs as [|cfg cfgs]; [|apply rules_inv].
  intros [= <- <-]. split_and!; [done..|]. exists []. by rewrite app_nil_r.
Qed.

Lemma rules_Ok p m cfgs (s s' : state) :
  rules p m cfgs s = (Ok, s') →
  _is_init s' = _is_init s ∧
  _params_init_info s' = _params_init_info s ∧
  trace s' = trace s ++ map (EApply p) cfgs.
Proof.
  intros (? & ? & evs & ? & Hrec)%rules_inv. simpl in Hrec. by subst evs.
Qed.

Lemma when_rules_Ok p m cfgs (s s' : state) :
  when (nonempty cfgs) (rules p m cfgs) s = (Ok, s') →
  _is_init s' = _is_init s ∧
  _params_init_info s' = _params_init_info s ∧
  trace s' = trace s ++ map (EApply p) cfgs.
Proof.
  intros (? & ? & evs & ? & Hrec)%when_rules_inv. simpl in Hrec. by subst evs.
Qed.

Lemma when_rules_Raise p m cfgs (s : state) e s' :
  when (nonempty cfgs) (rules p m cfgs) s = (Raise e, s') →
  ∃ applied cfg rest,
    cfgs = applied ++ cfg :: rest ∧
    _is_init s' = _is_init s ∧
    trace s' = trace s ++ map (EApply p) applied ++ [EApplyFailed p cfg e].
Proof.
  intros (? & ? & evs & ? & Hrec)%when_rules_inv.
  destruct Hrec as (applied & cfg & rest & -> & ->). by exists applied, cfg, rest.
Qed.

Lemma update_fields p m info (s : state) r s' :
  update p m info s = (r, s') →
  _is_init s' = _is_init s ∧
  _params_init_info s' = _params_init_info s ∧
  next_ref s' = next_ref s ∧
  trace s' = trace s ++ match r with
                        | Ok => [EUpdateInfo p info]
                        | Raise _ => []
                        end.
Proof.
  unfold call_update_init_info.
  destruct (update_init_info _ _ _ _) as [[|e] w]; intros [= <- <-]; simpl;
    by rewrite ?app_nil_r.
Qed.

Lemma all_components_inv c hw cfg ps ch :
  all_components (Module c hw cfg ps ch) = true →
  hw = true ∧ ∀ k nc, ch !! k = Some nc → all_components (snd nc) = true.
Proof.
  simpl. intros [-> Hch]%andb_prop. split; [done|]. intros k nc Hk.
  rewrite forallb_forall in Hch. apply Hch, list_elem_of_In.
  by eapply list_elem_of_lookup_2.
Qed.

Lemma all_components_has_init_weights m :
  all_components m = true → has_init_weights m = true.
Proof. destruct m. by intros [-> _]%all_components_inv. Qed.

Lemma app_self_nil {A} (l evs : list A) : l = l ++ evs → evs = [].
Proof.
  intros H. apply (app_inv_head l). by rewrite app_nil_r.
Qed.

(** ** The flag of the node a call is made on *)

Lemma cleanup_loop_fields qs : ∀ (s : state) r s',
  cleanup_loop qs s = (r, s') →
  _is_init s' = _is_init s ∧ trace s' = trace s.
Proof.
  induction qs as [|q qs IH]; intros s r s'; simpl.
  - by intros [= _ <-].
  - destruct (_params_init_info s !! q); [|by intros [= _ <-]].
    by intros (-> & ->)%IH.
Qed.

Lemma finalize_flags p m (s : state) r s' :
  _finalize_init p m s = (r, s') → _is_init s' = _is_init s.
Proof.
  unfold _finalize_init.
  intros [(s1 & H1 & H2) | (e & H1 & _)]%bind_inv.
  - apply dump_info_fields in H1 as (F1 & _).
    apply bind_inv in H2 as [(s2 & H2 & [= _ <-]) | (e & H2 & _)];
      apply cleanup_loop_fields in H2 as [F2 _]; simpl; congruence.
  - by apply dump_info_fields in H1 as (F1 & _).
Qed.

Lemma traverse_Ok_root_flag p m (s s' : state) :
  trav p m s = (Ok, s') → _is_init s' !! p = Some true.
Proof.
  unfold traverse. destruct (_is_init s !! p) as [[]|] eqn:Hp; [| |done].
  - intros [= <-]. done.
  - intros [(s1 & H1 & H2) | (e & _ & [=])]%bind_inv.
    destruct (partition_cfg (init_cfg m)) as [e|[o pr]]; [done|].
    apply bind_inv in H2 as [(s2 & H2 & H3) | (e & _ & [=])].
    apply bind_inv in H3 as [(s3 & H3 & H4) | (e & _ & [=])].
    apply bind_inv in H4 as [(s4 & H4 & [= <-]) | (e & _ & [=])].
    simpl. by rewrite lookup_insert_eq.
Qed.

Lemma run_Ok_root_flag p m (s s' : state) :
  run p m s = (Ok, s') → _is_init s' !! p = Some true.
Proof.
  rewrite init_weights_eq. destruct (has_init_weights m); [|done]. simpl.
  destruct (has_tracking s p); [apply traverse_Ok_root_flag|].
  intros [(s0 & H0 & H1) | (e & _ & [=])]%bind_inv.
  apply bind_inv in H1 as [(s1 & H1 & H2) | (e & _ & [=])].
  apply traverse_Ok_root_flag in H1. apply finalize_flags in H2. congruence.
Qed.

Lemma run_Ok_flag_before p m (s s' : state) :
  run p m s = (Ok, s') → is_Some (_is_init s !! p).
Proof.
  rewrite init_weights_eq. destruct (has_init_weights m); [|done]. simpl.
  assert (Ht : ∀ s0 s1 : state, trav p m s0 = (Ok, s1) → is_Some (_is_init s0 !! p)).
  { intros s0 s1. unfold traverse. by destruct (_is_init s0 !! p). }
  destruct (has_tracking s p); [apply Ht|].
  intros [(s0 & H0 & H1) | (e & _ & [=])]%bind_inv.
  apply bind_inv in H1 as [(s1 & H1 & H2) | (e & _ & [=])].
  apply Ht in H1. apply install_inv in H0 as (F0 & _). by rewrite <- F0.
Qed.

(** ** The loop over the children *)

Lemma step_frame q c : sound (frame (modules q c)) (step run q c).
Proof.
  intros s r s'. rewrite child_step_eq.
  destruct (unwrap_model q c) as [[q' t]|] eqn:Hu;
    [|intros [= _ <-]; apply frame_refl].
  destruct (_ && _); [|intros [= _ <-]; apply frame_refl].
  intros H. apply (frame_mono (modules q' t)).
  { intros x. by apply unwrap_model_modules. }
  revert s r s' H. apply sound_bind; [apply frame_trans | | apply frame_update].
  apply init_weights_frame.
Qed.

Lemma loop_frame p m cs : ∀ i,
  (∀ k nc, cs !! k = Some nc → children m !! (i + k) = Some nc) →
  sound (frame (modules p m)) (loop run p i cs).
Proof.
  induction cs as [|nc cs IH]; intros i Hcs; simpl.
  - apply sound_ret, frame_refl.
  - apply sound_bind; [apply frame_trans | |].
    + intros s r s' H%step_frame. eapply frame_mono; [|done].
      intros q. apply modules_child_subseteq.
      specialize (Hcs 0 nc eq_refl). by rewrite Nat.add_0_r in Hcs.
    + apply IH. intros k nc' Hk. specialize (Hcs (S k) nc' Hk).
      by rewrite Nat.add_succ_r in Hcs.
Qed.

Lemma loop_events p cs : ∀ i (s s' : state),
  loop run p i cs s = (Ok, s') →
  ∃ chunks,
    trace s' = trace s ++ concat chunks ∧
    length chunks = length cs ∧
    ∀ k evs nc, chunks !! k = Some evs → cs !! k = Some nc →
                Forall (ev_within (modules (p ++ [i + k]) (snd nc))) evs.
Proof.
  induction cs as [|nc cs IH]; intros i s s'; simpl.
  - intros [= <-]. exists []. by rewrite app_nil_r.
  - intros [(s1 & H1 & H2) | (e & _ & [=])]%bind_inv.
    apply step_frame in H1 as (_ & _ & _ & _ & evs & Ht & He).
    apply IH in H2 as (chunks & Ht' & Hlen & Hch).
    exists (evs :: chunks). split_and!.
    + rewrite Ht', Ht. simpl. by rewrite <- app_assoc.
    + simpl. by rewrite Hlen.
    + intros [|k] evs' nc'; simpl.
      * intros [= <-] [= <-]. by rewrite Nat.add_0_r.
      * intros Hk Hk'. rewrite Nat.add_succ_r. by eapply Hch.
Qed.

(** The events of a pass over a node that was not yet initialised and
    whose pass returns. *)
Lemma traverse_events p m (s s' : state) :
  _is_init s !! p = Some false →
  trav p m s = (Ok, s') →
  ∃ o pr chunks,
    partition_cfg (init_cfg m) = inr (o, pr) ∧
    trace s' =
      trace s ++
      (if truthy (init_cfg m)
       then [ELog DEBUG ("Initializing " +:+ cls m +:+ " with init_cfg="
                         +:+ py_repr (init_cfg m))]
       else []) ++
      map (EApply p) o ++ concat chunks ++ map (EApply p) pr ∧
    length chunks = length (children m) ∧
    ∀ k evs nc, chunks !! k = Some evs → children m !! k = Some nc →
                Forall (ev_within (modules (p ++ [k]) (snd nc))) evs.
Proof.
  intros Hp. unfold traverse. rewrite Hp.
  intros [(s1 & H1 & H2) | (e & _ & [=])]%bind_inv.
  destruct (partition_cfg (init_cfg m)) as [e|[o pr]]; [done|].
  apply bind_inv in H2 as [(s2 & H2 & H3) | (e & _ & [=])].
  apply bind_inv in H3 as [(s3 & H3 & H4) | (e & _ & [=])].
  apply bind_inv in H4 as [(s4 & H4 & [= <-]) | (e & _ & [=])].
  apply when_rules_Ok in H2 as (_ & _ & Ht2).
  apply loop_events in H3 as (chunks & Ht3 & Hlen & Hch).
  apply when_rules_Ok in H4 as (_ & _ & Ht4).
  exists o, pr, chunks. split_and!; [done | | done | done].
  assert (Ht1 : trace s1 = trace s ++
            (if truthy (init_cfg m)
             then [ELog DEBUG ("Initializing " +:+ cls m +:+ " with init_cfg="
                               +:+ py_repr (init_cfg m))]
             else [])).
  { destruct (truthy (init_cfg m)); simpl in H1; injection H1 as <-; simpl;
      [done | by rewrite app_nil_r]. }
  simpl. by rewrite Ht4, Ht3, Ht2, Ht1, <- !app_assoc.
Qed.

(** C7. On an [init_cfg] made of dicts (one dict, or a list of dicts),
    the split puts every rule whose ["type"] is not ["Pretrained"] or
    [PretrainedInit] among the Standard rules and the others among the
    Override rules, each group in the order of [init_cfg]; one dict
    counts as a list of one rule; [None], an empty list and an empty dict
    give no rule.  The rules of a group are handed to dispatch in their
    order, and on a childless node nothing but them is handed to
    dispatch. *)
Theorem C7_rule_partitioning cfg :
  Forall (fun c => rule_ok c = true) (rules_of cfg) →
  partition_cfg cfg =
    inr (List.filter (fun c => negb (is_override c)) (rules_of cfg),
         List.filter is_override (rules_of cfg)) ∧
  (∀ items, items ≠ [] → rules_of (PDict items) = [PDict items]) ∧
  (∀ items, rules_of (PList items) = items) ∧
  rules_of PNone = [] ∧ rules_of (PDict []) = [] ∧
  (∀ p m cfgs (s s' : state),
      rules p m cfgs s = (Ok, s') → trace s' = trace s ++ map (EApply p) cfgs) ∧
  (∀ p c ps (s s' : state),
      _is_init s !! p = Some false →
      trav p (Module c true cfg ps []) s = (Ok, s') →
      List.filter is_collaborator_event
        (drop (length (trace s)) (trace s')) =
      map (EApply p) (List.filter (fun c => negb (is_override c)) (rules_of cfg)) ++
      map (EApply p) (List.filter is_override (rules_of cfg))).
Proof.
  intros Hok.
  assert (Hpart : partition_cfg cfg =
    inr (List.filter (fun c => negb (is_override c)) (rules_of cfg),
         List.filter is_override (rules_of cfg))).
  { unfold partition_cfg, rules_of in *. destruct (truthy cfg); [|done].
    by rewrite split_cfgs_filter. }
  split_and!; try done.
  - by intros [|??].
  - by intros [|??].
  - intros p m cfgs s s' H. by apply rules_Ok in H as (_ & _ & ?).
  - intros p c ps s s' Hp Ht.
    apply traverse_events in Ht as (o & pr & chunks & Hpart' & Ht & Hlen & _);
      [|done].
    simpl in Hpart', Hlen. rewrite Hpart in Hpart'. injection Hpart' as <- <-.
    destruct chunks; [|done]. rewrite Ht, drop_app_length. simpl.
    rewrite !List.filter_app.
    assert (Hdbg : ∀ l : list event,
               Forall (fun e => is_collaborator_event e = false) l →
               List.filter is_collaborator_event l = []).
    { intros l. apply filter_nil_Forall. }
    rewrite Hdbg by (destruct (truthy cfg); by repeat constructor). simpl.
    assert (Hall : ∀ l, List.filter is_collaborator_event (map (EApply p) l)
                        = map (EApply p) l).
    { induction l as [|x l IH]; simpl; [done | by rewrite IH]. }
    by rewrite !Hall.
Qed.
(** ** The record of the loop over the children *)

Lemma child_record_flags (s1 s : state) q0 c0 evs :
  (∀ q, q ∈ modules q0 c0 → _is_init s1 !! q = _is_init s !! q) →
  child_record run s1 q0 c0 evs → child_record run s q0 c0 evs.
Proof.
  intros Hf. unfold child_record.
  destruct (unwrap_model q0 c0) as [[q c]|] eqn:Hu; [|done].
  unfold is_init_getattr. rewrite Hf; [done|].
  eapply unwrap_model_modules; [done | apply modules_root].
Qed.

Lemma step_record q c (s : state) r s' :
  step run q c s = (r, s') →
  ∃ evs, trace s' = trace s ++ evs ∧
         Forall (ev_within (modules q c)) evs ∧
         (r = Ok → child_record run s q c evs).
Proof.
  intros H. destruct (step_frame q c s r s' H) as (_ & _ & _ & _ & evs & T & W).
  exists evs. split; [done|]. split; [done|]. intros ->.
  rewrite child_step_eq in H. unfold child_record.
  destruct (unwrap_model q c) as [[q' t]|].
  2:{ injection H as <-. by eapply app_self_nil. }
  destruct (has_init_weights t && negb (is_init_getattr s q')) eqn:E.
  2:{ injection H as <-. by eapply app_self_nil. }
  apply bind_inv in H as [(sb & H1 & H2) | (e & _ & [=])].
  apply andb_true_iff in E as [_ E]. exists s, sb. split_and!.
  - apply run_Ok_flag_before in H1 as [b Hb].
    unfold is_init_getattr in E. rewrite Hb in E |- *. simpl in E.
    by destruct b.
  - done.
  - by eapply run_Ok_root_flag.
  - apply update_fields in H2 as (_ & _ & _ & T2).
    apply init_weights_frame in H1 as (_ & _ & _ & _ & evs1 & T1 & _).
    rewrite T1, drop_app_length.
    rewrite T2, T1, <- app_assoc in T. by apply app_inv_head in T.
Qed.

Lemma loop_record p cs : ∀ i (s : state) r s',
  loop run p i cs s = (r, s') →
  ∃ chunks,
    trace s' = trace s ++ concat chunks ∧
    length chunks ≤ length cs ∧
    (r = Ok → length chunks = length cs) ∧
    ∀ k evs nc,
      chunks !! k = Some evs → cs !! k = Some nc →
      Forall (ev_within (modules (p ++ [i + k]) (snd nc))) evs ∧
      (r = Ok ∨ S k < length chunks →
       child_record run s (p ++ [i + k]) (snd nc) evs).
Proof.
  induction cs as [|nc cs IH]; intros i s r s'; simpl.
  - intros [= <- <-]. exists []. rewrite app_nil_r. split_and!; try done.
  - intros [(s1 & H1 & H2) | (e & H1 & ->)]%bind_inv.
    + assert (Hfr := step_frame _ _ _ _ _ H1).
      apply step_record in H1 as (evs & T1 & W1 & R1).
      apply IH in H2 as (chunks & T2 & Hle & Hlen & Hch).
      exists (evs :: chunks). split_and!.
      * rewrite T2, T1. simpl. by rewrite <- app_assoc.
      * simpl. lia.
      * intros Hr. simpl. by rewrite Hlen.
      * intros [|k] evs' nc'; simpl.
        -- intros [= <-] [= <-]. rewrite Nat.add_0_r. split; [done|].
           intros _. by apply R1.
        -- intros Hk Hk'. rewrite Nat.add_succ_r.
           destruct (Hch k evs' nc' Hk Hk') as [Hw Hrec]. split; [done|].
           intros Hc. apply (child_record_flags s1).
           ++ intros q Hq. destruct Hfr as (_ & Hfl & _).
              destruct (Hfl q) as [Heq | [Hin _]]; [done|].
              assert (i = S i + k) by (by eapply modules_siblings). lia.
           ++ apply Hrec. destruct Hc as [Hc | Hc]; [by left | right; lia].
    + apply step_record in H1 as (evs & T1 & W1 & _).
      exists [evs]. split_and!.
      * simpl. by rewrite app_nil_r.
      * simpl. lia.
      * done.
      * intros [|k] evs' nc'; simpl; [|done].
        intros [= <-] [= <-]. rewrite Nat.add_0_r. split; [done|].
        intros [? | ?]; [done | lia].
Qed.

Lemma rules_record_nil p r : rules_record p [] r [] → r = Ok.
Proof.
  destruct r as [|e]; [done|]. intros (applied & cfg & rest & H & _).
  by destruct applied.
Qed.

(** The record of a pass over a node that is not yet initialised,
    whatever its outcome. *)
Lemma traverse_record p m (s : state) r s' :
  _is_init s !! p = Some false →
  trav p m s = (r, s') →
  ∃ dbg standard chunks override,
    trace s' = trace s ++ dbg ++ standard ++ concat chunks ++ override ∧
    Forall (fun e => is_collaborator_event e = false) dbg ∧
    ordered_phases run p m s (r = Ok) standard chunks override.
Proof.
  intros Hp. unfold traverse. rewrite Hp.
  set (dbg := if truthy (init_cfg m)
              then [ELog DEBUG ("Initializing " +:+ cls m +:+ " with init_cfg="
                                +:+ py_repr (init_cfg m))]
              else []).
  assert (Hdbg : Forall (fun e => is_collaborator_event e = false) dbg).
  { unfold dbg. destruct (truthy _); by repeat constructor. }
  intros H. apply bind_inv in H as [(s1 & H1 & H2) | (e & H1 & _)].
  2:{ by destruct (truthy (init_cfg m)). }
  assert (F1 : _is_init s1 = _is_init s ∧ trace s1 = trace s ++ dbg).
  { unfold dbg. destruct (truthy (init_cfg m)); simpl in H1; injection H1 as <-;
      simpl; by rewrite ?app_nil_r. }
  destruct F1 as [F1 T1]. clear H1.
  destruct (partition_cfg (init_cfg m)) as [e|[o pr]] eqn:Hpart.
  { injection H2 as <- <-. exists dbg, [], [], []. split_and!; try done.
    - by rewrite T1, !app_nil_r.
    - unfold ordered_phases. split_and!; try done; try by left.
      + simpl. lia.
      + by intros [? | [? | ?]].
      + by intros [? | ?]. }
  apply partition_cfg_accepts in Hpart as [-> ->].
  apply bind_inv in H2 as [(s2 & H2 & H3) | (e & H2 & ->)].
  2:{ apply when_rules_inv in H2 as (_ & _ & evs & T2 & Hrec).
      exists dbg, evs, [], []. split_and!; try done.
      - rewrite T2, T1. simpl. by rewrite !app_nil_r, <- app_assoc.
      - unfold ordered_phases. split_and!; try done.
        + right. by exists (Raise e).
        + by left.
        + simpl. lia.
        + by intros [? | [? | ?]].
        + by intros [? | ?]. }
  apply when_rules_Ok in H2 as (F2 & _ & T2).
  assert (Hfl : ∀ q, _is_init s2 !! q = _is_init s !! q).
  { intros q. by rewrite F2, F1. }
  apply bind_inv in H3 as [(s3 & H3 & H4) | (e & H3 & ->)].
  2:{ apply loop_record in H3 as (chunks & T3 & Hle & _ & Hch).
      exists dbg, (map (EApply p) (standard_rules (init_cfg m))), chunks, [].
      split_and!; try done.
      - rewrite T3, T2, T1. by rewrite !app_nil_r, <- !app_assoc.
      - unfold ordered_phases. split_and!; try done.
        + right. by exists Ok.
        + by left.
        + intros k evs nc Hk Hk'. destruct (Hch k evs nc Hk Hk') as [Hw Hrec].
          split; [done|]. intros Hlt. apply (child_record_flags s2); [done|].
          apply Hrec. by right.
        + by intros [? | ?]. }
  apply loop_record in H3 as (chunks & T3 & Hle & Hlen & Hch).
  specialize (Hlen eq_refl).
  assert (Hall : ∀ k evs nc,
             chunks !! k = Some evs → children m !! k = Some nc →
             child_record run s (p ++ [k]) (snd nc) evs).
  { intros k evs nc Hk Hk'. destruct (Hch k evs nc Hk Hk') as [_ Hrec].
    apply (child_record_flags s2); [done|]. apply Hrec. by left. }
  assert (Hw : ∀ k evs nc,
             chunks !! k = Some evs → children m !! k = Some nc →
             Forall (ev_within (modules (p ++ [k]) (snd nc))) evs ∧
             (S k < length chunks → child_record run s (p ++ [k]) (snd nc) evs)).
  { intros k evs nc Hk Hk'. split; [|intros _; by eapply Hall].
    by destruct (Hch k evs nc Hk Hk'). }
  apply bind_inv in H4 as [(s4 & H4 & H5) | (e & H4 & ->)].
  2:{ apply when_rules_inv in H4 as (_ & _ & evs & T4 & Hrec).
      exists dbg, (map (EApply p) (standard_rules (init_cfg m))), chunks, evs.
      split_and!; try done.
      - rewrite T4, T3, T2, T1. by rewrite <- !app_assoc.
      - unfold ordered_phases. split_and!; try done.
        + right. by exists Ok.
        + right. by exists (Raise e). }
  apply when_rules_Ok in H4 as (_ & _ & T4). injection H5 as <- <-.
  exists dbg, (map (EApply p) (standard_rules (init_cfg m))), chunks,
         (map (EApply p) (override_rules (init_cfg m))).
  split_and!; try done.
  - simpl. rewrite T4, T3, T2, T1. by rewrite <- !app_assoc.
  - unfold ordered_phases. split_and!; try done.
    + right. by exists Ok.
    + right. by exists Ok.
Qed.

Lemma ordered_phases_state (s0 s : state) p m (F F' : Prop) standard chunks override :
  _is_init s0 = _is_init s → (F' → F) →
  ordered_phases run p m s0 F standard chunks override →
  ordered_phases run p m s F' standard chunks override.
Proof.
  intros Hfl HF (H1 & H2 & H3 & H4 & H5 & H6 & H7).
  assert (Hrec : ∀ q c evs, child_record run s0 q c evs → child_record run s q c evs).
  { intros q c evs. apply child_record_flags. intros x _. by rewrite Hfl. }
  unfold ordered_phases. split_and!; try done.
  - intros k evs nc Hk Hk'. destruct (H4 k evs nc Hk Hk') as [Hw Hr].
    split; [done|]. intros Hlt. by apply Hrec, Hr.
  - intros [? | [? | ?]]; apply H5; auto.
  - intros Hc. destruct H6 as [Hlen Hall]; [destruct Hc; auto|].
    split; [done|]. intros k evs nc Hk Hk'. by eapply Hrec, Hall.
  - intros Hc. apply H7; auto.
Qed.

(** ** Success: every node ends initialised *)

Local Abbreviation initializes m :=
  (∀ p (s s' : state),
    all_components m = true → no_module_attr m = true →
    (∀ q, q ∈ modules p m → _is_init s !! q = Some false) →
    run p m s = (Ok, s') →
    ∀ q, q ∈ modules p m → _is_init s' !! q = Some true).

Lemma step_initializes q c (s s' : state) :
  initializes c →
  all_components c = true → no_module_attr c = true →
  (∀ x, x ∈ modules q c → _is_init s !! x = Some false) →
  step run q c s = (Ok, s') →
  ∀ x, x ∈ modules q c → _is_init s' !! x = Some true.
Proof.
  intros Hinit Hc Hn Hfresh H1.
  rewrite child_step_eq, (no_module_attr_unwrap _ _ Hn) in H1.
  rewrite (all_components_has_init_weights _ Hc) in H1.
  unfold is_init_getattr in H1. rewrite (Hfresh q (modules_root q c)) in H1.
  simpl in H1.
  apply bind_inv in H1 as [(sa & Ha & Hu) | (e & _ & [=])].
  apply update_fields in Hu as (Hu & _).
  intros x Hx. rewrite Hu. by eapply (Hinit q s sa).
Qed.

Lemma loop_initializes p m cs : ∀ i (s s' : state),
  (∀ k nc, cs !! k = Some nc → children m !! (i + k) = Some nc) →
  (∀ k nc, cs !! k = Some nc →
           all_components (snd nc) = true ∧ no_module_attr (snd nc) = true ∧
           initializes (snd nc)) →
  (∀ k nc q, cs !! k = Some nc → q ∈ modules (p ++ [i + k]) (snd nc) →
             _is_init s !! q = Some false) →
  loop run p i cs s = (Ok, s') →
  ∀ k nc q, cs !! k = Some nc → q ∈ modules (p ++ [i + k]) (snd nc) →
            _is_init s' !! q = Some true.
Proof.
  induction cs as [|nc cs IH]; intros i s s' Hch Hcomp Hfresh; simpl;
    [by intros _ k nc q [=]|].
  intros [(s1 & H1 & H2) | (e & _ & [=])]%bind_inv.
  destruct (Hcomp 0 nc eq_refl) as (Hc & Hn & Hinit).
  assert (Hfr := step_frame _ _ _ _ _ H1). destruct Hfr as (_ & Hfr & _).
  assert (Hhead : ∀ q, q ∈ modules (p ++ [i]) (snd nc) →
                       _is_init s1 !! q = Some true).
  { eapply step_initializes; try done.
    intros q' Hq'. apply (Hfresh 0 nc); [done | by rewrite Nat.add_0_r]. }
  assert (Hrest := loop_frame p m cs (S i)).
  intros k nc' q Hk Hq. destruct k as [|k]; simpl in Hk.
  - injection Hk as <-. rewrite Nat.add_0_r in Hq.
    apply Hrest in H2 as (_ & Hf2 & _).
    2:{ intros k' nc'' Hk'. specialize (Hch (S k') nc'' Hk').
        by rewrite Nat.add_succ_r in Hch. }
    destruct (Hf2 q) as [E|[_ E]]; [|done]. rewrite E. by apply Hhead.
  - rewrite Nat.add_succ_r in Hq.
    eapply (IH (S i) s1 s'); try done.
    + intros k' nc'' Hk'. specialize (Hch (S k') nc'' Hk').
      by rewrite Nat.add_succ_r in Hch.
    + intros k' nc'' Hk'. by apply (Hcomp (S k')).
    + intros k' nc'' q' Hk' Hq'.
      destruct (Hfr q') as [E|[Hin _]].
      * rewrite E. apply (Hfresh (S k') nc''); [done|].
        by rewrite Nat.add_succ_r.
      * pose proof (modules_siblings _ _ _ _ _ _ Hin Hq'). lia.
Qed.

Lemma traverse_initializes c hw cfg ps ch p (s s' : state) :
  Forall (fun nc => initializes (snd nc)) ch →
  all_components (Module c hw cfg ps ch) = true →
  no_module_attr (Module c hw cfg ps ch) = true →
  (∀ q, q ∈ modules p (Module c hw cfg ps ch) → _is_init s !! q = Some false) →
  trav p (Module c hw cfg ps ch) s = (Ok, s') →
  ∀ q, q ∈ modules p (Module c hw cfg ps ch) → _is_init s' !! q = Some true.
Proof.
  intros IH Hcomp Hno Hfresh. set (m := Module c hw cfg ps ch) in *.
  apply all_components_inv in Hcomp as [-> Hcomp].
  assert (Hno' := no_module_attr_inv _ _ _ _ _ Hno).
  unfold traverse. rewrite (Hfresh p (modules_root p m)).
  intros [(s1 & H1 & H2) | (e & _ & [=])]%bind_inv.
  destruct (partition_cfg (init_cfg m)) as [e|[o pr]]; [done|].
  apply bind_inv in H2 as [(s2 & H2 & H3) | (e & _ & [=])].
  apply bind_inv in H3 as [(s3 & H3 & H4) | (e & _ & [=])].
  apply bind_inv in H4 as [(s4 & H4 & [= <-]) | (e & _ & [=])].
  apply when_rules_Ok in H2 as (Hi2 & _ & _).
  apply when_rules_Ok in H4 as (Hi4 & _ & _).
  assert (Hi1 : _is_init s1 = _is_init s).
  { destruct (truthy (init_cfg m)); simpl in H1; by injection H1 as <-. }
  intros q [->|(k & nc & Hk & Hq)]%elem_of_modules; simpl.
  - apply lookup_insert_eq.
  - rewrite lookup_insert_ne by (symmetry; by eapply modules_child_ne).
    rewrite Hi4. rewrite Forall_lookup in IH.
    eapply (loop_initializes p m ch 0 s2 s3); try done.
    + intros k' nc' Hk'.
      split_and!; [by eapply Hcomp | by eapply Hno' | by eapply IH].
    + intros k' nc' q' Hk' Hq'. rewrite Hi2, Hi1. apply Hfresh.
      apply elem_of_modules. right. eauto.
Qed.

Lemma init_weights_initializes m : initializes m.
Proof.
  induction m as [c hw cfg ps ch IH] using module_ind'.
  intros p s s' Hcomp Hno Hfresh Hrun. set (m := Module c hw cfg ps ch) in *.
  assert (Hw := all_components_has_init_weights _ Hcomp).
  destruct (has_tracking s p) eqn:Htop.
  - rewrite init_weights_eq, Hw, Htop in Hrun. simpl in Hrun.
    by eapply traverse_initializes.
  - destruct (top_level_call p m s Ok s' Hw Htop Hrun)
      as [[_ [=]] | (s0 & r1 & s1 & Hi & Ht & Ha & _ & _ & Hfin)].
    destruct r1 as [|e]; [|by destruct Hfin].
    apply finalize_flags in Hfin. rewrite Hfin.
    apply install_inv in Hi as (F0 & _).
    eapply (traverse_initializes c hw cfg ps ch p s0); try done.
    intros q Hq. rewrite F0. by apply Hfresh.
Qed.

(** C4. After a top-level call that returns, no node of the tree carries
    the tracking map.  If moreover every node of the tree is a component
    without an attribute named [module], and none of them was initialised
    when the call began, every node of the tree is initialised. *)
Theorem C4_success_initializes_all_and_removes_tracking p m (s s' : state) :
  has_tracking s p = false →
  run p m s = (Ok, s') →
  (∀ q, q ∈ modules p m → _params_init_info s' !! q = None) ∧
  (all_components m = true →
   no_module_attr m = true →
   (∀ q, q ∈ modules p m → _is_init s !! q = Some false) →
   ∀ q, q ∈ modules p m → _is_init s' !! q = Some true).
Proof.
  intros Htop Hrun. split.
  - assert (Hw : has_init_weights m = true).
    { rewrite init_weights_eq in Hrun. by destruct (has_init_weights m). }
    destruct (top_level_call p m s Ok s' Hw Htop Hrun)
      as [[_ [=]] | (s0 & r1 & s1 & Hi & Ht & Ha & _ & _ & Hfin)].
    destruct r1 as [|e]; [|by destruct Hfin].
    apply finalize_spec in Hfin as (_ & _ & _ & _ & evs & _ & Ha' & _).
    2:{ intros q' Hq'. rewrite Ha. by eapply install_has_tracked. }
    intros q Hq. rewrite Ha'. by apply detach_lookup_eq.
  - intros Hcomp Hno Hfresh. by eapply init_weights_initializes.
Qed.

(** ** Failure: where the flags stand when dispatch raises *)

Lemma flat_mapi_app {A B} (f : nat → A → list B) (l1 l2 : list A) : ∀ i,
  flat_mapi f i (l1 ++ l2) = flat_mapi f i l1 ++ flat_mapi f (i + length l1) l2.
Proof.
  induction l1 as [|a l1 IH]; intros i; simpl.
  - by rewrite Nat.add_0_r.
  - by rewrite IH, Nat.add_succ_r, <- app_assoc.
Qed.

Lemma NoDup_completion_order m : ∀ p, NoDup (completion_order p m).
Proof.
  induction m as [c hw cfg ps ch IH] using module_ind'. intros p. simpl.
  rewrite Forall_lookup in IH. apply NoDup_app. split_and!.
  - apply NoDup_flat_mapi.
    + intros k nc Hk. by apply (IH _ _ Hk).
    + intros k1 k2 a1 a2 x _ _ H1%elem_of_completion_order
             H2%elem_of_completion_order.
      eapply modules_siblings; eauto.
  - intros x (k & nc & Hk & Hx)%elem_of_flat_mapi ->%list_elem_of_singleton.
    apply elem_of_completion_order in Hx. by eapply modules_child_ne.
  - apply NoDup_singleton.
Qed.

(** The nodes of a subtree complete one after the other. *)
Lemma completion_order_subtree y : ∀ c q t,
  subtree y c = Some t →
  ∃ A B, completion_order q c = A ++ completion_order (q ++ y) t ++ B ∧
         (y = [] → A = [] ∧ B = []).
Proof.
  induction y as [|k y IH]; intros c q t; simpl.
  - intros [= <-]. exists [], []. by rewrite !app_nil_r.
  - destruct (children c !! k) as [nc|] eqn:Hk; [|done]. intros Hy.
    destruct (IH (snd nc) (q ++ [k]) t Hy) as (A & B & HAB & _).
    destruct c as [c hw cfg ps ch]. simpl in Hk |- *.
    assert (Hlen : length (take k ch) = k).
    { apply length_take_le. apply lookup_lt_Some in Hk. lia. }
    set (F := fun (i : nat) (c0 : string * module) =>
                completion_order (q ++ [i]) (snd c0)).
    assert (E : flat_mapi F 0 ch =
                flat_mapi F 0 (take k ch) ++
                completion_order (q ++ [k]) (snd nc) ++
                flat_mapi F (S k) (drop (S k) ch)).
    { rewrite <- (take_drop_middle ch k nc Hk) at 1.
      rewrite flat_mapi_app. simpl. by rewrite Hlen. }
    rewrite E, HAB, <- (app_assoc q [k] y). simpl.
    exists (flat_mapi F 0 (take k ch) ++ A),
           (B ++ flat_mapi F (S k) (drop (S k) ch) ++ [q]).
    split; [|done]. by rewrite <- !app_assoc.
Qed.

Lemma loop_keeps p cs : ∀ i (s : state) r s' q,
  loop run p i cs s = (r, s') →
  (∀ k nc, cs !! k = Some nc → q ∉ modules (p ++ [i + k]) (snd nc)) →
  _is_init s' !! q = _is_init s !! q.
Proof.
  induction cs as [|nc cs IH]; intros i s r s' q; simpl.
  - by intros [= _ <-].
  - intros Hrun Hq.
    assert (Hhead : ∀ s1 r1, step run (p ++ [i]) (snd nc) s = (r1, s1) →
                             _is_init s1 !! q = _is_init s !! q).
    { intros s1 r1 (_ & Hf & _)%step_frame.
      destruct (Hf q) as [E|[Hin _]]; [done|].
      specialize (Hq 0 nc eq_refl). by rewrite Nat.add_0_r in Hq. }
    apply bind_inv in Hrun as [(s1 & H1 & H2) | (e & H1 & _)].
    + rewrite <- (Hhead _ _ H1). eapply IH; [done|].
      intros k nc' Hk. specialize (Hq (S k) nc' Hk).
      by rewrite Nat.add_succ_r in Hq.
    + by eapply Hhead.
Qed.

Lemma elem_of_later_children p (cs : list (string * module)) : ∀ i q,
  q ∈ flat_mapi (fun i (c : string * module) => completion_order (p ++ [i]) (snd c)) i cs →
  ∃ k nc, cs !! k = Some nc ∧ q ∈ modules (p ++ [i + k]) (snd nc).
Proof.
  intros i q (k & nc & Hk & Hq)%elem_of_flat_mapi.
  exists k, nc. split; [done|]. by apply elem_of_completion_order.
Qed.

Lemma loop_rise p cs : ∀ i (s : state) r s' q,
  loop run p i cs s = (r, s') →
  _is_init s !! q = Some true → _is_init s' !! q = Some true.
Proof.
  induction cs as [|nc cs IH]; intros i s r s' q; simpl.
  - by intros [= _ <-].
  - intros Hrun Hq.
    assert (Hhead : ∀ s1 r1, step run (p ++ [i]) (snd nc) s = (r1, s1) →
                             _is_init s1 !! q = Some true).
    { intros s1 r1 (_ & Hf & _)%step_frame.
      destruct (Hf q) as [E|[_ E]]; congruence. }
    apply bind_inv in Hrun as [(s1 & H1 & H2) | (e & H1 & _)].
    + eapply IH; [done|]. by eapply Hhead.
    + by eapply Hhead.
Qed.

Lemma below_child m p k q : q ∈ modules (p ++ [k]) m → p `prefix_of` q.
Proof.
  intros [x ->]%modules_prefix. exists (k :: x). by rewrite <- app_assoc.
Qed.

(** What a call has recorded, with respect to failed dispatches: none;
    or one, which is the last event, whose exception is the outcome of
    the call, and which is about a node [f] of [order] such that [f] and
    the nodes after it in [order] have the flag they had, and, when
    [fresh] holds, the nodes before [f] that are not below it are
    initialised. *)
Local Abbreviation failure_record order s s' r evs fresh :=
  (Forall (fun e => is_failure e = false) evs ∨
   ∃ evs0 f cfg e,
     (evs = evs0 ++ [EApplyFailed f cfg e])%list ∧
     Forall (fun e => is_failure e = false) evs0 ∧
     r = Raise e ∧
     ∃ l1 l2, order = l1 ++ f :: l2 ∧
       (∀ q, q ∈ f :: l2 → _is_init s' !! q = _is_init s !! q) ∧
       (fresh → ∀ q, q ∈ l1 → ¬ f `prefix_of` q → _is_init s' !! q = Some true)).

Local Abbreviation fails_in_order m :=
  (∀ p (s : state) r s',
    run p m s = (r, s') →
    ∃ evs, trace s' = trace s ++ evs ∧
      failure_record (completion_order p m) s s' r evs
        (all_components m = true ∧ no_module_attr m = true ∧
         ∀ q, q ∈ modules p m → _is_init s !! q = Some false)).

Lemma step_fails q c :
  (∀ y mq, subtree y c = Some mq → fails_in_order mq) →
  ∀ (s : state) r s',
    step run q c s = (r, s') →
    ∃ evs, trace s' = trace s ++ evs ∧
      failure_record (completion_order q c) s s' r evs
        (all_components c = true ∧ no_module_attr c = true ∧
         ∀ x, x ∈ modules q c → _is_init s !! x = Some false).
Proof.
  intros IH s r s'. rewrite child_step_eq.
  destruct (unwrap_model q c) as [[q' t]|] eqn:Hu.
  2:{ intros [= <- <-]. exists []. rewrite app_nil_r. split; [done|]. by left. }
  destruct (_ && _).
  2:{ intros [= <- <-]. exists []. rewrite app_nil_r. split; [done|]. by left. }
  destruct (unwrap_model_subtree _ _ _ _ Hu) as (y & -> & Hy).
  intros [(sb & H1 & H2) | (e & H1 & ->)]%bind_inv.
  - apply (IH y t Hy) in H1 as (evs1 & T1 & [Hnf | Hf]).
    2:{ by destruct Hf as (? & ? & ? & ? & _ & _ & [=] & _). }
    apply update_fields in H2 as (_ & _ & _ & T2).
    eexists. split; [rewrite T2, T1, <- app_assoc; done|]. left.
    apply Forall_app. split; [done|]. destruct r; by repeat constructor.
  - assert (Hfr := init_weights_frame _ _ _ _ _ H1).
    destruct Hfr as (_ & Hfl & _).
    apply (IH y t Hy) in H1 as (evs & T & [Hnf | Hf]).
    { exists evs. split; [done|]. by left. }
    destruct Hf as (evs0 & f & cfg & e0 & -> & Hnf & He & l1 & l2 & Hco & Hsame & Htrue).
    exists (evs0 ++ [EApplyFailed f cfg e0]). split; [done|]. right.
    exists evs0, f, cfg, e0. split_and!; [done..|].
    destruct (completion_order_subtree y c q t Hy) as (A & B & HAB & Hnil).
    exists (A ++ l1), (l2 ++ B). split_and!.
    + rewrite HAB, Hco. by rewrite <- !app_assoc.
    + intros x Hx. rewrite app_comm_cons in Hx.
      apply elem_of_app in Hx as [Hx | Hx]; [by apply Hsame|].
      destruct (Hfl x) as [E | [Hin _]]; [done|].
      apply elem_of_completion_order in Hin.
      pose proof (NoDup_completion_order c q) as Hnd. rewrite HAB in Hnd.
      apply NoDup_app in Hnd as (_ & _ & Hnd).
      apply NoDup_app in Hnd as (_ & Hnd & _). by destruct (Hnd x Hin).
    + intros (Hc & Hn & Hfresh) x Hx Hnp.
      rewrite (no_module_attr_unwrap _ _ Hn) in Hu.
      injection Hu as Hq ->.
      assert (y = []) as ->.
      { apply (app_inv_head q). by rewrite app_nil_r. }
      destruct (Hnil eq_refl) as [-> _]. simpl in Hx.
      apply Htrue; try done. split_and!; try done.
      intros x' Hx'. apply Hfresh. by rewrite app_nil_r in Hx'.
Qed.

Lemma loop_fails p cs : ∀ i (s : state) r s',
  (∀ k nc, cs !! k = Some nc →
           ∀ y mq, subtree y (snd nc) = Some mq → fails_in_order mq) →
  loop run p i cs s = (r, s') →
  ∃ evs, trace s' = trace s ++ evs ∧
    failure_record
      (flat_mapi (fun i (c : string * module) => completion_order (p ++ [i]) (snd c)) i cs)
      s s' r evs
      ((∀ k nc, cs !! k = Some nc →
                all_components (snd nc) = true ∧ no_module_attr (snd nc) = true) ∧
       (∀ k nc q, cs !! k = Some nc → q ∈ modules (p ++ [i + k]) (snd nc) →
                  _is_init s !! q = Some false)).
Proof.
  induction cs as [|nc cs IH]; intros i s r s' Hch; simpl.
  { intros [= <- <-]. exists []. rewrite app_nil_r. split; [done|]. by left. }
  intros [(s1 & H1 & H2) | (e & H1 & ->)]%bind_inv.
  - (* the child at [i] returned *)
    assert (Hfr := step_frame _ _ _ _ _ H1).
    destruct Hfr as (_ & Hf & _).
    assert (Hstep := H1).
    apply step_fails in H1 as (evs1 & T1 & [Hnf1 | Hf1]);
      [| by destruct Hf1 as (? & ? & ? & ? & _ & _ & [=] & _)
       | exact (Hch 0 nc eq_refl)].
    assert (Hrise : ∀ q, _is_init s1 !! q = Some true →
                         _is_init s' !! q = Some true)
      by (intros q; by eapply loop_rise).
    apply IH in H2 as (evs & T & Hrec).
    2:{ intros k nc' Hk. by apply (Hch (S k)). }
    exists (evs1 ++ evs). split; [by rewrite T, T1, <- app_assoc|].
    destruct Hrec as [Hnf | Hrec]; [left; by apply Forall_app|].
    destruct Hrec as (evs0 & f & cfg & e0 & -> & Hnf & He & l1 & l2 & Hco & Hsame & Htrue).
    right. exists (evs1 ++ evs0), f, cfg, e0.
    split_and!; [by rewrite <- app_assoc | by apply Forall_app | done |].
    exists (completion_order (p ++ [i]) (snd nc) ++ l1), l2.
    split_and!; [by rewrite Hco, <- app_assoc | |].
    + intros q Hq. rewrite Hsame by done.
      destruct (Hf q) as [E|[Hin _]]; [done|].
      destruct (elem_of_later_children p cs (S i) q) as (k & nc' & Hk & Hq').
      { rewrite Hco. apply elem_of_app. by right. }
      pose proof (modules_siblings _ _ _ _ _ _ Hin Hq'). lia.
    + intros [Hcomp Hfresh] q [Hq|Hq]%elem_of_app Hnp.
      * apply elem_of_completion_order in Hq. apply Hrise.
        destruct (Hcomp 0 nc eq_refl) as [Hc Hn].
        eapply (step_initializes (p ++ [i]) (snd nc) s s1); try done.
        -- apply init_weights_initializes.
        -- intros q' Hq'. apply (Hfresh 0 nc); [done | by rewrite Nat.add_0_r].
      * apply Htrue; [|done|done]. split.
        -- intros k nc' Hk. by apply (Hcomp (S k)).
        -- intros k nc' q' Hk Hq'.
           destruct (Hf q') as [E|[Hin _]].
           ++ rewrite E. apply (Hfresh (S k) nc'); [done|].
              by rewrite Nat.add_succ_r.
           ++ pose proof (modules_siblings _ _ _ _ _ _ Hin Hq'). lia.
  - (* the child at [i] raised *)
    assert (Hfr := step_frame _ _ _ _ _ H1). destruct Hfr as (_ & Hf & _).
    apply step_fails in H1 as (evs & T & Hrec); [|exact (Hch 0 nc eq_refl)].
    exists evs. split; [done|].
    destruct Hrec as [Hnf | Hrec]; [by left|].
    destruct Hrec as (evs0 & f & cfg & e0 & -> & Hnf & He & l1 & l2 & Hco & Hsame & Htrue).
    right. exists evs0, f, cfg, e0. split_and!; [done..|].
    exists l1, (l2 ++ flat_mapi (fun i (c : string * module) => completion_order (p ++ [i]) (snd c))
                                (S i) cs).
    split_and!; [rewrite Hco, <- app_assoc; done | |].
    + intros q Hq. rewrite app_comm_cons in Hq.
      apply elem_of_app in Hq as [Hq|Hq]; [by apply Hsame|].
      destruct (Hf q) as [E|[Hin _]]; [done|].
      destruct (elem_of_later_children p cs (S i) q Hq) as (k & nc' & Hk & Hq').
      pose proof (modules_siblings _ _ _ _ _ _ Hin Hq'). lia.
    + intros [Hcomp Hfresh] q Hq Hnp. apply Htrue; [|done..].
      destruct (Hcomp 0 nc eq_refl) as [Hc Hn]. split_and!; [done..|].
      intros q' Hq'. apply (Hfresh 0 nc); [done | by rewrite Nat.add_0_r].
Qed.

Lemma map_apply_no_failure p cfgs :
  Forall (fun e => is_failure e = false) (map (EApply p) cfgs).
Proof. induction cfgs; by constructor. Qed.

Lemma traverse_fails c hw cfg0 ps ch p (s : state) r s' :
  (∀ k nc, ch !! k = Some nc →
           ∀ y mq, subtree y (snd nc) = Some mq → fails_in_order mq) →
  trav p (Module c hw cfg0 ps ch) s = (r, s') →
  ∃ evs, trace s' = trace s ++ evs ∧
    failure_record (completion_order p (Module c hw cfg0 ps ch)) s s' r evs
      (all_components (Module c hw cfg0 ps ch) = true ∧
       no_module_attr (Module c hw cfg0 ps ch) = true ∧
       ∀ q, q ∈ modules p (Module c hw cfg0 ps ch) → _is_init s !! q = Some false).
Proof.
  intros IH. unfold traverse. cbn [init_cfg children cls].
  set (m := Module c hw cfg0 ps ch).
  assert (Hbelow : ∀ q,
    q ∈ flat_mapi (fun i (c : string * module) => completion_order (p ++ [i]) (snd c))
                  0 ch → p `prefix_of` q).
  { intros q (k & nc & _ & Hq)%elem_of_later_children. by eapply below_child. }
  destruct (_is_init s !! p) as [[]|].
  { intros [= <- <-]. eexists. split; [done|]. left. by repeat constructor. }
  2:{ intros [= <- <-]. exists []. rewrite app_nil_r. split; [done|]. by left. }
  intros [(s1 & H1 & H2) | (e & H1 & _)]%bind_inv.
  2:{ destruct (truthy cfg0); done. }
  assert (H1' : _is_init s1 = _is_init s ∧
                ∃ dbg, trace s1 = trace s ++ dbg ∧
                       Forall (fun e => is_failure e = false) dbg).
  { destruct (truthy cfg0); simpl in H1; injection H1 as <-;
      split; try done; eexists; (split; [|shelve]); simpl;
      [done | by rewrite app_nil_r].
    Unshelve. all: by repeat constructor. }
  destruct H1' as (Hi1 & dbg & Ht1 & Hdbg).
  destruct (partition_cfg cfg0) as [e|[o pr]] eqn:Hpart.
  { injection H2 as <- <-. exists dbg. split; [done|]. by left. }
  apply bind_inv in H2 as [(s2 & H2 & H3) | (e & H2 & ->)].
  2:{ (* a Standard rule of this node *)
    apply when_rules_Raise in H2 as (applied & cfg' & rest & _ & Hi & Ht).
    exists (dbg ++ map (EApply p) applied ++ [EApplyFailed p cfg' e]).
    split; [by rewrite Ht, Ht1, <- !app_assoc|]. right.
    exists (dbg ++ map (EApply p) applied), p, cfg', e.
    split_and!; [by rewrite <- !app_assoc | | done |].
    { apply Forall_app. split; [done | apply map_apply_no_failure]. }
    eexists _, []. split_and!; [done | |].
    - intros q _. by rewrite Hi, Hi1.
    - intros _ q Hq Hnp. destruct Hnp. by apply Hbelow. }
  apply when_rules_Ok in H2 as (Hi2 & _ & Ht2).
  apply bind_inv in H3 as [(s3 & H3 & H4) | (e & H3 & ->)].
  2:{ (* the loop over the children raised *)
    assert (Hkeep := loop_keeps p ch 0 s2 _ s' p H3).
    apply loop_fails in H3 as (evs & Ht & Hrec); [|done].
    exists (dbg ++ map (EApply p) o ++ evs).
    split; [by rewrite Ht, Ht2, Ht1, <- !app_assoc|].
    destruct Hrec as [Hnf | Hrec].
    { left. rewrite !Forall_app. split_and!; [done | apply map_apply_no_failure | done]. }
    destruct Hrec as (evs0 & f & cfg & e0 & -> & Hnf & He & l1 & l2 & Hco & Hsame & Htrue).
    right. exists (dbg ++ map (EApply p) o ++ evs0), f, cfg, e0.
    split_and!; [by rewrite <- !app_assoc | | done |].
    { rewrite !Forall_app. split_and!; [done | apply map_apply_no_failure | done]. }
    exists l1, (l2 ++ [p]). split_and!; [simpl; by rewrite Hco, <- app_assoc | |].
    - intros q Hq. rewrite app_comm_cons in Hq.
      apply elem_of_app in Hq as [Hq|Hq].
      + by rewrite Hsame, Hi2, Hi1.
      + apply list_elem_of_singleton in Hq as ->.
        rewrite Hkeep, Hi2, Hi1; [done|].
        intros k nc _ Hin. by eapply modules_child_ne.
    - intros (Hcomp & Hno & Hfresh) q Hq Hnp.
      apply all_components_inv in Hcomp as [_ Hcomp].
      assert (Hno' := no_module_attr_inv _ _ _ _ _ Hno).
      apply Htrue; [|done|done]. split.
      + intros k nc Hk. split; [by eapply Hcomp | by eapply Hno'].
      + intros k nc q' Hk Hq'. rewrite Hi2, Hi1. apply Hfresh.
        apply elem_of_modules. right. eauto. }
  assert (Hkeep := loop_keeps p ch 0 s2 _ s3 p H3).
  apply loop_fails in H3 as (evs3 & Ht3 & [Hnf3 | Hrec]);
    [| by destruct Hrec as (? & ? & ? & ? & _ & _ & [=] & _) | done].
  apply bind_inv in H4 as [(s4 & H4 & [= <- <-]) | (e & H4 & ->)].
  { apply when_rules_Ok in H4 as (_ & _ & Ht4).
    exists (dbg ++ map (EApply p) o ++ evs3 ++ map (EApply p) pr).
    split; [simpl; by rewrite Ht4, Ht3, Ht2, Ht1, <- !app_assoc|].
    left. rewrite !Forall_app.
    split_and!; try done; apply map_apply_no_failure. }
  (* an Override rule of this node *)
  apply when_rules_Raise in H4 as (applied & cfg' & rest & _ & Hi & Ht).
  exists (dbg ++ map (EApply p) o ++ evs3 ++ map (EApply p) applied
              ++ [EApplyFailed p cfg' e]).
  split; [by rewrite Ht, Ht3, Ht2, Ht1, <- !app_assoc|]. right.
  exists (dbg ++ map (EApply p) o ++ evs3 ++ map (EApply p) applied), p, cfg', e.
  split_and!; [by rewrite <- !app_assoc | | done |].
  { rewrite !Forall_app. split_and!; try done; apply map_apply_no_failure. }
  eexists _, []. split_and!; [done | |].
  - intros q ->%list_elem_of_singleton.
    rewrite Hi, Hkeep, Hi2, Hi1; [done|].
    intros k nc _ Hin. by eapply modules_child_ne.
  - intros _ q Hq Hnp. destruct Hnp. by apply Hbelow.
Qed.

Lemma run_fails_of_traverse m :
  (∀ p (s : state) r s',
      trav p m s = (r, s') →
      ∃ evs, trace s' = trace s ++ evs ∧
        failure_record (completion_order p m) s s' r evs
          (all_components m = true ∧ no_module_attr m = true ∧
           ∀ q, q ∈ modules p m → _is_init s !! q = Some false)) →
  fails_in_order m.
Proof.
  intros Ht p s r s' Hrun.
  rewrite init_weights_eq in Hrun.
  destruct (has_init_weights m) eqn:Hw.
  2:{ injection Hrun as <- <-. exists []. rewrite app_nil_r. split; [done|]. by left. }
  simpl in Hrun.
  destruct (has_tracking s p) eqn:Htop; [by apply Ht|].
  apply bind_inv in Hrun as [(s0 & H0 & Hrun) | (e & H0 & ->)].
  2:{ apply install_inv in H0 as (_ & _ & _ & _ & T0 & _).
      eexists. split; [done|]. left. by repeat constructor. }
  assert (Htr := install_has_tracked _ _ _ _ H0).
  apply install_inv in H0 as (F0 & _ & _ & _ & T0 & _).
  apply bind_inv in Hrun as [(s1 & H1 & H2) | (e & H1 & ->)].
  - assert (Hq := traverse_quiet _ _ _ _ _ H1 Htr). destruct Hq as (Ha & _).
    apply Ht in H1 as (evs1 & T1 & [Hnf | Hrec]);
      [| by destruct Hrec as (? & ? & ? & ? & _ & _ & [=] & _)].
    apply finalize_spec in H2 as (_ & _ & _ & _ & evs & He & Hr).
    2:{ intros q Hq. rewrite Ha. by apply Htr. }
    assert (Hev : Forall (fun e => is_failure e = false) evs).
    { eapply Forall_impl; [done|]. intros e (_ & Hrule & _). by destruct e. }
    exists (EInstall p (next_ref s) :: evs1 ++
            match r with Ok => evs ++ [ECleanup p] | Raise _ => evs end).
    split.
    + destruct r as [|e]; [destruct Hr as [_ Hr] | destruct Hr as (_ & _ & Hr)];
        rewrite Hr, T1, T0, <- !app_assoc; simpl; by rewrite <- ?app_assoc.
    + left. constructor; [done|]. apply Forall_app. split; [done|].
      destruct r; [|done]. apply Forall_app. split; [done|]. by repeat constructor.
  - apply Ht in H1 as (evs1 & T1 & Hrec).
    exists (EInstall p (next_ref s) :: evs1).
    split; [rewrite T1, T0, <- app_assoc; done|].
    destruct Hrec as [Hnf | Hrec]; [left; by constructor|].
    destruct Hrec as (evs0 & f & cfg & e0 & -> & Hnf & He & l1 & l2 & Hco & Hsame & Htrue).
    right. exists (EInstall p (next_ref s) :: evs0), f, cfg, e0.
    split_and!; [done | by constructor | done |].
    exists l1, l2. split_and!; [done | |].
    + intros q Hq. rewrite <- F0. by apply Hsame.
    + intros (Hc & Hn & Hfresh). apply Htrue. split_and!; try done.
      intros q Hq. rewrite F0. by apply Hfresh.
Qed.

Lemma init_weights_fails_below : ∀ m y mq,
  subtree y m = Some mq → fails_in_order mq.
Proof.
  induction m as [c hw cfg ps ch IH] using module_ind'.
  rewrite Forall_lookup in IH.
  intros [|k y] mq; simpl.
  - intros [= <-]. apply run_fails_of_traverse. intros p s r s'.
    apply traverse_fails. intros k nc Hk. exact (IH k nc Hk).
  - destruct (ch !! k) as [nc|] eqn:Hk; [|done]. exact (IH k nc Hk y mq).
Qed.

(** C5. When dispatch fails on a rule of a node [f] during a call of
    [init_weights], the exception it raised is the outcome of the call
    and the failed dispatch is the last event of the call: the rule is
    not tried again, nothing else is handed to a collaborator, and the
    call does not finalise.  With the nodes in the order in which they
    complete, children in declaration order before their parent: [f]
    and every node after it have the flag they had when the call began,
    so they are still false if they were false; no flag that is true is
    taken back; and on a tree of components without an attribute named
    [module] that were all uninitialised, every node before [f] that is
    not below [f] has completed and is true. *)
Theorem C5_dispatch_failure_aborts p m (s : state) r s' f cfg e :
  run p m s = (r, s') →
  EApplyFailed f cfg e ∈ drop (length (trace s)) (trace s') →
  r = Raise e ∧
  (∃ evs, trace s' = trace s ++ evs ++ [EApplyFailed f cfg e] ∧
          Forall (fun e => is_failure e = false) evs) ∧
  (∃ l1 l2, completion_order p m = l1 ++ f :: l2 ∧
            (∀ q, q ∈ f :: l2 → _is_init s' !! q = _is_init s !! q) ∧
            (all_components m = true → no_module_attr m = true →
             (∀ q, q ∈ modules p m → _is_init s !! q = Some false) →
             ∀ q, q ∈ l1 → ¬ f `prefix_of` q → _is_init s' !! q = Some true)) ∧
  (∀ q, _is_init s' !! q = _is_init s !! q ∨
        (q ∈ modules p m ∧ _is_init s' !! q = Some true)).
Proof.
  intros Hrun Hin.
  assert (Hfr := init_weights_frame _ _ _ _ _ Hrun). destruct Hfr as (_ & Hfl & _).
  apply (init_weights_fails_below m [] m eq_refl) in Hrun as (evs & T & Hrec).
  rewrite T, drop_app_length in Hin.
  destruct Hrec as [Hnf | Hrec].
  { rewrite Forall_forall in Hnf. by specialize (Hnf _ Hin). }
  destruct Hrec as (evs0 & f' & cfg' & e' & -> & Hnf & -> & l1 & l2 & Hco & Hsame & Htrue).
  apply elem_of_app in Hin as [Hin | Hin].
  { rewrite Forall_forall in Hnf. by specialize (Hnf _ Hin). }
  apply list_elem_of_singleton in Hin. injection Hin as <- <- <-.
  split_and!; [done | by exists evs0 | | done].
  exists l1, l2. split_and!; [done..|].
  intros Hc Hn Hfresh. by apply Htrue.
Qed.

(** C10. The constructor stores a deep copy of its argument.  On a heap
    without dangling references it returns, leaving the caller's objects
    as they are; what the node holds reads, at every depth, as the
    argument read when the node was built; and in any later heap that
    differs from the one the constructor left only in objects that
    existed before the call (the caller's), or in objects allocated
    afterwards, the node's [init_cfg] reads the same and every call of
    [init_weights] on the node, from any state, has the same outcome and
    leaves the same state. *)
Theorem C10_constructor_stores_a_deep_copy (h0 : heap) (x : hval) (fuel : nat) :
  heap_wf h0 → val_wf (length h0) x → length h0 ≤ fuel →
  ∃ y h1,
    BaseModule__init__ fuel x h0 = Some (y, h1) ∧
    (∀ l o, h0 !! l = Some o → h1 !! l = Some o) ∧
    (∀ d, decode d h1 y = decode d h0 x) ∧
    ∀ h2, (∀ l, length h0 ≤ l < length h1 → h2 !! l = h1 !! l) →
          (∀ d, decode d h2 y = decode d h1 y) ∧
          ∀ d c ps ch p (s : state),
            (fun m => run p m s) <$> node_of d h2 c y ps ch =
            (fun m => run p m s) <$> node_of d h1 c y ps ch.
Proof.
  intros Hwf Hx Hfuel.
  destruct (constructor_copy h0 x fuel Hwf Hx Hfuel)
    as (y & h1 & Hinit & Hold & Hsame & Hindep).
  exists y, h1. split_and!; [done..|].
  intros h2 Hagree.
  assert (Hd : ∀ d, decode d h2 y = decode d h1 y).
  { intros d. by rewrite Hsame, (Hindep h2 Hagree). }
  split; [done|]. intros d c ps ch p s. unfold node_of. by rewrite Hd.
Qed.
(** ** Children the loop of lines 87-93 passes over *)

Lemma untouched_refl Q (s : state) : untouched Q s s.
Proof. split; [done|]. exists []. by rewrite app_nil_r. Qed.

Lemma untouched_trans Q (s1 s2 s3 : state) :
  untouched Q s1 s2 → untouched Q s2 s3 → untouched Q s1 s3.
Proof.
  intros [F1 (e1 & T1 & A1)] [F2 (e2 & T2 & A2)]. split.
  - intros q Hq. by rewrite F2, F1.
  - exists (e1 ++ e2). rewrite T2, T1, app_assoc. split; [done|].
    by apply Forall_app.
Qed.

Lemma untouched_emit Q e (s : state) : avoids Q e → untouched Q s (emit e s).
Proof.
  intros H. split; [done|]. exists [e]. split; [done|]. by apply Forall_singleton.
Qed.

Lemma avoids_no_path Q e : ev_path e = None → avoids Q e.
Proof. intros H q _. by rewrite H. Qed.

Lemma frame_untouched N Q (s s' : state) :
  (∀ q, q ∈ N → q ∉ Q) → frame N s s' → untouched Q s s'.
Proof.
  intros Hd (_ & Hf & _ & _ & evs & Ht & He). split.
  - intros q Hq. destruct (Hf q) as [E|[HN _]]; [exact E|]. by destruct (Hd q HN).
  - exists evs. split; [done|]. eapply Forall_impl; [exact He|].
    intros e Hw q Hq Hp. unfold ev_within in Hw. rewrite Hp in Hw.
    by apply (Hd q).
Qed.

Lemma untouched_dispatch Q p m cfg :
  p ∉ Q → sound (untouched Q) (call_dispatch dispatch p m cfg).
Proof.
  intros Hp s r s' H. apply dispatch_inv in H as (F & _ & _ & _ & T).
  split; [by rewrite F|]. eexists [_]. split; [done|].
  apply Forall_singleton. intros q Hq. destruct r; intros [= <-]; done.
Qed.

Lemma untouched_rules Q p m cfgs :
  p ∉ Q → sound (untouched Q) (rules p m cfgs).
Proof.
  intros Hp. induction cfgs as [|cfg cfgs IH]; simpl.
  - apply sound_ret, untouched_refl.
  - apply sound_bind; [apply untouched_trans | by apply untouched_dispatch | done].
Qed.

Lemma untouched_sibling p i k c c0 :
  i ≠ k → sound (untouched (modules (p ++ [k]) c0)) (step run (p ++ [i]) c).
Proof.
  intros Hne s r s' H. eapply frame_untouched; [|by eapply step_frame].
  intros q H1 H2. apply Hne. by eapply modules_siblings.
Qed.

Lemma untouched_finalize Q p m :
  p ∉ Q → sound (untouched Q) (_finalize_init p m : M).
Proof.
  intros Hp. unfold _finalize_init.
  apply sound_bind; [apply untouched_trans | | apply sound_bind;
                                               [apply untouched_trans | |]].
  - intros s r s' H. apply dump_info_fields in H as (F & _ & _ & _ & _ & _ & evs & T & E).
    split; [by rewrite F|]. exists evs. split; [done|].
    eapply Forall_impl; [exact E|]. intros e (_ & _ & ?). by apply avoids_no_path.
  - intros s r s' H. apply cleanup_loop_fields in H as (F & T).
    split; [by rewrite F|]. exists []. by rewrite app_nil_r.
  - intros s r s' [= <- <-]. apply untouched_emit. intros q Hq [= <-]. done.
Qed.

Lemma skipped_same_flags c q (s s' : state) :
  (∀ x, x ∈ modules q c → _is_init s' !! x = _is_init s !! x) →
  skipped c q s' = skipped c q s.
Proof.
  intros H. unfold skipped.
  destruct (unwrap_model q c) as [[q' t]|] eqn:Hu; [|done].
  unfold is_init_getattr. rewrite H; [done|].
  eapply unwrap_model_modules; [done | apply modules_root].
Qed.

Lemma skipped_untouched c q (s s' : state) :
  untouched (modules q c) s s' → skipped c q s' = skipped c q s.
Proof. intros [F _]. by apply skipped_same_flags. Qed.

Lemma step_skipped visit q c (s : state) :
  skipped c q s = true → step visit q c s = (Ok, s).
Proof.
  rewrite child_step_eq. unfold skipped.
  destruct (unwrap_model q c) as [[q' t]|]; [|done].
  intros H. apply negb_true_iff in H. by rewrite H.
Qed.

Local Abbreviation passes_over c q :=
  (fun s s' : state => skipped c q s = true → untouched (modules q c) s s').

Lemma passes_over_trans c q (s1 s2 s3 : state) :
  passes_over c q s1 s2 → passes_over c q s2 s3 → passes_over c q s1 s3.
Proof.
  intros H1 H2 Hs. specialize (H1 Hs). eapply untouched_trans; [exact H1|].
  apply H2. by rewrite (skipped_untouched c q s1 s2).
Qed.

Lemma passes_over_weaken c q (a : M) :
  sound (untouched (modules q c)) a → sound (passes_over c q) a.
Proof. intros H s r s' Ha _. by eapply H. Qed.

Lemma loop_passes_over p k c0 cs : ∀ i,
  (∀ j nc, cs !! j = Some nc → i + j = k → snd nc = c0) →
  sound (passes_over c0 (p ++ [k])) (loop run p i cs).
Proof.
  induction cs as [|nc cs IH]; intros i Hk; simpl.
  - apply passes_over_weaken, sound_ret, untouched_refl.
  - apply sound_bind; [apply passes_over_trans | |].
    + destruct (decide (i = k)) as [->|Hne].
      * assert (snd nc = c0) as <- by (apply (Hk 0); [done | lia]).
        intros s r s' H Hs. rewrite step_skipped in H by done.
        injection H as <- <-. apply untouched_refl.
      * by apply passes_over_weaken, untouched_sibling.
    + apply IH. intros j nc' Hj Hjk. apply (Hk (S j)); [done | lia].
Qed.

Lemma traverse_passes_over p m k nc :
  children m !! k = Some nc →
  sound (passes_over (snd nc) (p ++ [k])) (trav p m).
Proof.
  intros Hk. set (Q := modules (p ++ [k]) (snd nc)).
  assert (Hp : p ∉ Q) by (intros H; by apply modules_child_ne in H).
  intros s r s'. unfold traverse.
  destruct (_is_init s !! p) as [[]|].
  - intros [= <- <-] _. apply untouched_emit. by apply avoids_no_path.
  - destruct (partition_cfg (init_cfg m)) as [e|[o pr]].
    + intros H _. revert H. refine (sound_bind (untouched Q) _ _ _ _ _ s r s').
      * apply untouched_trans.
      * apply sound_when; [apply untouched_refl|].
        intros s1 r1 s1' [= <- <-]. apply untouched_emit. by apply avoids_no_path.
      * intros s1 r1 s1' [= <- <-]. apply untouched_refl.
    + refine (sound_bind (passes_over (snd nc) (p ++ [k])) _ _ _ _ _ s r s').
      * apply passes_over_trans.
      * apply passes_over_weaken, sound_when; [apply untouched_refl|].
        intros s1 r1 s1' [= <- <-]. apply untouched_emit. by apply avoids_no_path.
      * intros s1 r1 s1'.
        refine (sound_bind (passes_over (snd nc) (p ++ [k])) _ _ _ _ _ s1 r1 s1');
          [apply passes_over_trans | |].
        { apply passes_over_weaken, sound_when; [apply untouched_refl|].
          by apply untouched_rules. }
        apply sound_bind; [apply passes_over_trans | |].
        { apply loop_passes_over. intros j nc' Hj Hjk. simpl in Hjk. subst j.
          rewrite Hk in Hj. by injection Hj as <-. }
        apply sound_bind; [apply passes_over_trans | |].
        { apply passes_over_weaken, sound_when; [apply untouched_refl|].
          by apply untouched_rules. }
        apply passes_over_weaken. intros s2 r2 s2' [= <- <-]. split.
        -- intros q Hq. simpl. rewrite lookup_insert_ne; [done|].
           intros <-. done.
        -- exists []. by rewrite app_nil_r.
  - intros [= <- <-] _. apply untouched_refl.
Qed.

Lemma run_passes_over p m k nc (s : state) r s' :
  children m !! k = Some nc →
  skipped (snd nc) (p ++ [k]) s = true →
  run p m s = (r, s') →
  untouched (modules (p ++ [k]) (snd nc)) s s'.
Proof.
  intros Hk Hs. set (Q := modules (p ++ [k]) (snd nc)).
  assert (Hp : p ∉ Q) by (intros H; by apply modules_child_ne in H).
  rewrite init_weights_eq. destruct (has_init_weights m); simpl.
  2:{ intros [= <- <-]. apply untouched_refl. }
  destruct (has_tracking s p).
  - intros H. by eapply traverse_passes_over.
  - assert (Hi : ∀ r0 s0, install p m s = (r0, s0) → untouched Q s s0).
    { intros r0 s0 (F & _ & _ & _ & T & _)%install_inv.
      split; [by rewrite F|]. exists [EInstall p (next_ref s)]. split; [done|].
      apply Forall_singleton. intros q Hq [= <-]. done. }
    intros [(s0 & H0 & H) | (e & H0 & _)]%bind_inv; [|by eapply Hi].
    eapply untouched_trans; [by eapply Hi|].
    refine (sound_bind (passes_over (snd nc) (p ++ [k])) _ _ _ _ _ _ r s' H _).
    + apply passes_over_trans.
    + by apply traverse_passes_over.
    + by apply passes_over_weaken, untouched_finalize.
    + rewrite (skipped_untouched (snd nc) (p ++ [k]) s s0); [done|].
      by eapply Hi.
Qed.

(** The records of a dump that returned: one for each parameter, in
    order. *)
Lemma report_loop_Ok out p nps : ∀ (s s' : state),
  report_loop out p nps s = (Ok, s') →
  ∃ lines,
    trace s' = trace s ++ map out lines ∧
    Forall2 (fun np line =>
               ∃ info, line = report_line (fst np) (p_shape (snd np)) info)
            nps lines.
Proof.
  induction nps as [|[name prm] nps IH]; intros s s'; simpl.
  - intros [= <-]. exists []. by rewrite app_nil_r.
  - destruct (_params_init_info s !! p) as [l|]; [|done].
    destruct (dicts (st_world s) l !! p_id prm) as [e|]; [|done].
    destruct (init_info e) as [info|]; [|done].
    intros (lines & T & HF)%IH.
    exists (report_line name (p_shape prm) info :: lines). split.
    + rewrite T. simpl. by rewrite <- app_assoc.
    + constructor; [by exists info | done].
Qed.

Lemma dump_info_Ok p m (s s' : state) :
  dump_info p m s = (Ok, s') →
  ∀ np, np ∈ named_parameters m →
        ∃ info,
          let line := report_line (fst np) (p_shape (snd np)) info in
          ELog INFO line ∈ drop (length (trace s)) (trace s') ∨
          ∃ h, EWrite h line ∈ drop (length (trace s)) (trace s').
Proof.
  unfold dump_info. intros H np Hnp.
  assert (Hline : ∀ lines,
    Forall2 (fun np line =>
               ∃ info, line = report_line (fst np) (p_shape (snd np)) info)
            (named_parameters m) lines →
    ∃ info, report_line (fst np) (p_shape (snd np)) info ∈ lines).
  { intros lines HF. apply list_elem_of_lookup in Hnp as [i Hi].
    destruct (Forall2_lookup_l _ _ _ _ _ HF Hi) as (line & Hl & info & ->).
    exists info. by eapply list_elem_of_lookup_2. }
  destruct (first_file_handler 0 (log_handlers s)) as [[h []]|]; [| done |].
  - apply bind_inv in H as [(s1 & [= <-] & H) | (e & _ & [=])].
    apply bind_inv in H as [(s2 & H & [= <-]) | (e & _ & [=])].
    apply report_loop_Ok in H as (lines & T & HF).
    destruct (Hline lines HF) as [info Hin]. exists info. right. exists h.
    simpl. rewrite T. simpl. rewrite <- !app_assoc, drop_app_length. simpl.
    apply elem_of_cons. right. apply elem_of_app. left.
    apply list_elem_of_fmap. eauto.
  - apply report_loop_Ok in H as (lines & T & HF).
    destruct (Hline lines HF) as [info Hin]. exists info. left.
    rewrite T, drop_app_length. apply list_elem_of_fmap. eauto.
Qed.

(** X1. A child the loop passes over (what [unwrap_model] returns for
    it has no [init_weights], or reads initialised when the call
    starts) keeps its flags in a call on its parent, whatever the
    outcome: no flag of its subtree changes and no event of the call is
    about a node of its subtree, so nothing is handed to a collaborator
    for it.  It is not left out of the bookkeeping of a top-level call,
    though: when installation returns, every node of its subtree carries
    the tracking map, and every parameter of its subtree has an entry
    with the default description in it; the map is still on its nodes
    if the call raises later, and if the call returns it has been
    removed from them and each of its parameters has a record in the
    dump. *)
Theorem X1_skipped_child_keeps_its_flags p m k nc (s : state) r s' :
  children m !! k = Some nc →
  skipped (snd nc) (p ++ [k]) s = true →
  run p m s = (r, s') →
  untouched (modules (p ++ [k]) (snd nc)) s s' ∧
  ∀ s0,
    has_init_weights m = true →
    has_tracking s p = false →
    install p m s = (Ok, s0) →
    (∀ q, q ∈ modules (p ++ [k]) (snd nc) →
          _params_init_info s0 !! q = Some (next_ref s) ∧
          _params_init_info s' !! q =
            match r with Ok => None | Raise _ => Some (next_ref s) end) ∧
    (∀ x mq n prm,
        subtree x (snd nc) = Some mq → (n, prm) ∈ parameters mq →
        (∃ e, dicts (st_world s0) (next_ref s) !! p_id prm = Some e ∧
              init_info e = Some (unchanged_info (cls m))) ∧
        (r = Ok →
         ∃ np info,
           np ∈ named_parameters m ∧ p_id (snd np) = p_id prm ∧
           let line := report_line (fst np) (p_shape (snd np)) info in
           ELog INFO line ∈ drop (length (trace s)) (trace s') ∨
           ∃ h, EWrite h line ∈ drop (length (trace s)) (trace s'))).
Proof.
  intros Hk Hs Hrun. split; [by eapply run_passes_over|].
  intros s0 Hw Htop H0.
  assert (HQ : ∀ q, q ∈ modules (p ++ [k]) (snd nc) → q ∈ modules p m).
  { intros q. by apply modules_child_subseteq. }
  destruct (top_level_call p m s r s' Hw Htop Hrun)
    as [[H0' _] | (s0' & r1 & s1 & H0' & Ht & Ha & _ & (evs1 & T1 & _) & Hfin)];
    [congruence|].
  assert (s0' = s0) as -> by congruence.
  assert (Htr := install_has_tracked _ _ _ _ H0).
  assert (Hfin' : match r1 with
                  | Ok => _finalize_init p m s1 = (r, s')
                  | Raise e => r = Raise e ∧ s' = s1
                  end) by done.
  split.
  - intros q Hq. split; [by eapply install_tracked; eauto|].
    destruct r1 as [|e1].
    + apply finalize_spec in Hfin as (_ & _ & _ & _ & evs & _ & Hr).
      2:{ intros q' Hq'. rewrite Ha. by apply Htr. }
      destruct r as [|e].
      * destruct Hr as [-> _]. apply detach_lookup_eq. by apply HQ.
      * destruct Hr as (_ & -> & _). rewrite Ha.
        eapply install_tracked; eauto.
    + destruct Hfin as [-> ->]. rewrite Ha. eapply install_tracked; eauto.
  - intros x mq n prm Hsub Hin.
    destruct (named_parameters_raw_covers (k :: x) m "" mq n prm) as [name Hraw];
      [simpl; by rewrite Hk | done |].
    destruct (install_entries p m s s0 name prm H0 Hraw) as [_ He]. split.
    { eexists. split; [exact He | done]. }
    intros ->. destruct r1 as [|e1]; [|by destruct Hfin'].
    destruct (dedup_by_id_covers _ ∅ _ Hraw) as (np & Hnp & Hid); [set_solver|].
    unfold _finalize_init in Hfin.
    apply bind_inv in Hfin as [(s2 & Hd & Hc) | (e & _ & [=])].
    assert (Hd' := dump_info_fields _ _ _ _ _ Hd).
    destruct Hd' as (_ & _ & _ & _ & _ & _ & evs2 & T2 & _).
    destruct (dump_info_Ok _ _ _ _ Hd np Hnp) as [info Hline].
    apply bind_inv in Hc as [(s3 & Hc & [= <-]) | (e & _ & [=])].
    apply cleanup_loop_fields in Hc as [_ T3].
    exists np, info. split; [done|]. split; [done|].
    rewrite T2, drop_app_length in Hline.
    assert (Hdrop : drop (length (trace s)) (trace (emit (ECleanup p) s3)) =
                    EInstall p (next_ref s) :: evs1 ++ evs2 ++ [ECleanup p]).
    { simpl. rewrite T3, T2, T1. rewrite <- !app_assoc. rewrite drop_app_length.
      done. }
    rewrite Hdrop. cbv zeta in Hline |- *.
    destruct Hline as [Hl | [h Hl]]; [left | right; exists h];
      right; apply elem_of_app; right; apply elem_of_app; by left.
Qed.

(** ** What the split accepts, and what a pass hands to dispatch *)

Lemma filter_split_Permutation {A} (f : A → bool) (l : list A) :
  List.filter (fun x => negb (f x)) l ++ List.filter f l ≡ₚ l.
Proof.
  induction l as [|a l IH]; simpl; [done|]. destruct (f a); simpl.
  - etrans; [symmetry; apply Permutation_middle|]. by constructor.
  - by constructor.
Qed.

Lemma filter_rule_of_own p l :
  List.filter (is_rule_of p) (map (EApply p) l) = map (EApply p) l.
Proof.
  induction l as [|x l IH]; simpl; [done|].
  by rewrite bool_decide_eq_true_2, IH.
Qed.

Lemma rule_of_within p k c e :
  ev_within (modules (p ++ [k]) c) e → is_rule_of p e = false.
Proof.
  destruct e; simpl; try done; unfold ev_within; simpl; intros H;
    apply bool_decide_eq_false_2; intros ->; by apply modules_child_ne in H.
Qed.

Lemma rule_of_no_path p e : ev_path e = None → is_rule_of p e = false.
Proof. by destruct e. Qed.

Lemma traverse_own_rules p m (s s' : state) :
  _is_init s !! p = Some false →
  trav p m s = (Ok, s') →
  Forall (fun c => rule_ok c = true) (rules_of (init_cfg m)) ∧
  ∃ evs,
    trace s' = trace s ++ evs ∧
    List.filter (is_rule_of p) evs =
    map (EApply p)
        (List.filter (fun c => negb (is_override c)) (rules_of (init_cfg m)) ++
         List.filter is_override (rules_of (init_cfg m))).
Proof.
  intros Hp Ht.
  apply traverse_events in Ht as (o & pr & chunks & Hpart & Ht & Hlen & Hch);
    [|done].
  assert (Hok := partition_cfg_rules_ok _ _ _ Hpart).
  apply partition_cfg_accepts in Hpart as (-> & ->). split; [done|].
  unfold standard_rules, override_rules in Ht.
  eexists. split; [exact Ht|].
  rewrite !List.filter_app, !filter_rule_of_own, map_app.
  rewrite (filter_nil_Forall _ (if truthy _ then _ else _)).
  2:{ destruct (truthy _); by repeat constructor. }
  rewrite (filter_nil_Forall _ (concat chunks)); [done|].
  apply Forall_concat, Forall_lookup. intros k evs Hk.
  destruct (lookup_lt_is_Some_2 (children m) k) as [nc Hnc].
  { rewrite <- Hlen. by eapply lookup_lt_Some. }
  eapply Forall_impl; [by eapply Hch|]. intros e. apply rule_of_within.
Qed.

(** X2. In a pass that returns on a node that was not yet initialised,
    every item of the node's [init_cfg] was accepted by the split, and
    the rules of that node handed to dispatch during the whole call,
    children and finalisation included, are its Standard rules followed
    by its Override rules: every rule of [init_cfg] exactly once, none
    dropped and none repeated. *)
Theorem X2_every_rule_dispatched_once p m (s s' : state) :
  has_init_weights m = true →
  _is_init s !! p = Some false →
  run p m s = (Ok, s') →
  let standard :=
    List.filter (fun c => negb (is_override c)) (rules_of (init_cfg m)) in
  let override := List.filter is_override (rules_of (init_cfg m)) in
  Forall (fun c => rule_ok c = true) (rules_of (init_cfg m)) ∧
  List.filter (is_rule_of p) (drop (length (trace s)) (trace s')) =
    map (EApply p) (standard ++ override) ∧
  standard ++ override ≡ₚ rules_of (init_cfg m).
Proof.
  intros Hw Hp Hrun. cbv zeta.
  split_and!; [| |apply filter_split_Permutation].
  - destruct (has_tracking s p) eqn:Htop.
    + rewrite init_weights_eq, Hw, Htop in Hrun. simpl in Hrun.
      by apply traverse_own_rules in Hrun as [? _].
    + destruct (top_level_call p m s Ok s' Hw Htop Hrun)
        as [[_ [=]] | (s0 & r1 & s1 & H0 & Ht & _ & _ & _ & Hfin)].
      destruct r1 as [|e]; [|by destruct Hfin].
      apply install_inv in H0 as (F0 & _).
      apply traverse_own_rules in Ht as [? _]; [done | by rewrite F0].
  - destruct (has_tracking s p) eqn:Htop.
    + rewrite init_weights_eq, Hw, Htop in Hrun. simpl in Hrun.
      apply traverse_own_rules in Hrun as (_ & evs & -> & Hf); [|done].
      by rewrite drop_app_length.
    + destruct (top_level_call p m s Ok s' Hw Htop Hrun)
        as [[_ [=]] | (s0 & r1 & s1 & H0 & Ht & Ha & _ & _ & Hfin)].
      destruct r1 as [|e]; [|by destruct Hfin].
      assert (Htr := install_has_tracked _ _ _ _ H0).
      apply install_inv in H0 as (F0 & _ & _ & _ & T0 & _).
      apply traverse_own_rules in Ht as (_ & evs & Ht & Hf); [|by rewrite F0].
      apply finalize_spec in Hfin as (_ & _ & _ & _ & fin & He & _ & Htr').
      2:{ intros q Hq. rewrite Ha. by apply Htr. }
      rewrite Htr', Ht, T0. rewrite <- !app_assoc, drop_app_length. simpl.
      rewrite !List.filter_app, Hf. simpl.
      rewrite (filter_nil_Forall _ fin); [by rewrite app_nil_r|].
      eapply Forall_impl; [exact He|]. intros e (_ & _ & ?).
      by apply rule_of_no_path.
Qed.

Lemma install_fails p m (s : state) :
  mean_defined mean m s = false →
  ∃ s', install p m s = (Raise RuntimeError, s').
Proof.
  intros Hm. destruct (install p m s) as [[|e] s'] eqn:H.
  - apply install_Ok_mean_defined in H. congruence.
  - apply install_Raise in H as Hr. destruct Hr as [-> _]. by exists s'.
Qed.

(** X3. On a node that is not yet initialised, an item of [init_cfg] the
    split does not accept makes the call raise, with the exception of
    the first such item: [AssertionError] for an item that is not a dict
    (line 75), [TypeError] for a dict whose ["type"] is unhashable (line
    77).  The debug message has been logged by then; no rule was handed
    to dispatch, not even the accepted ones before the offending item;
    no flag and no buffer has changed; and if the call was top-level the
    tracking map it installed stays on every node.  This is so unless
    the call is top-level and taking the mean of a parameter raises
    while the map is installed (line 57): the split is not reached
    then, and the call raises [RuntimeError] right after the map was
    created. *)
Theorem X3_malformed_init_cfg_raises p m (s : state) c :
  has_init_weights m = true →
  _is_init s !! p = Some false →
  List.find (fun c => negb (rule_ok c)) (rules_of (init_cfg m)) = Some c →
  (has_tracking s p = true ∨ mean_defined mean m s = true →
   ∃ s',
     run p m s = (Raise (split_error c), s') ∧
     _is_init s' = _is_init s ∧
     tensors (st_world s') = tensors (st_world s) ∧
     trace s' =
       trace s ++
       (if has_tracking s p then [] else [EInstall p (next_ref s)]) ++
       [ELog DEBUG ("Initializing " +:+ cls m +:+ " with init_cfg="
                    +:+ py_repr (init_cfg m))] ∧
     (has_tracking s p = false →
      ∀ q, q ∈ modules p m → _params_init_info s' !! q = Some (next_ref s))) ∧
  (has_tracking s p = false → mean_defined mean m s = false →
   ∃ s',
     run p m s = (Raise RuntimeError, s') ∧
     _is_init s' = _is_init s ∧
     tensors (st_world s') = tensors (st_world s) ∧
     trace s' = trace s ++ [EInstall p (next_ref s)]).
Proof.
  intros Hw Hp Hfind.
  assert (Htr : truthy (init_cfg m) = true).
  { unfold rules_of in Hfind. by destruct (truthy (init_cfg m)). }
  assert (Hpart : partition_cfg (init_cfg m) = inl (split_error c)).
  { unfold partition_cfg. unfold rules_of in Hfind. rewrite Htr in Hfind |- *.
    by apply split_cfgs_rejects. }
  assert (Htrav : ∀ s0 : state,
             _is_init s0 !! p = Some false →
             trav p m s0 =
             (Raise (split_error c),
              emit (ELog DEBUG ("Initializing " +:+ cls m +:+ " with init_cfg="
                                +:+ py_repr (init_cfg m))) s0)).
  { intros s0 H0. unfold traverse. rewrite H0, Htr, Hpart. done. }
  rewrite init_weights_eq, Hw. simpl negb. cbv iota. split.
  - intros Hg. destruct (has_tracking s p) eqn:Htop.
    + rewrite Htrav by done. eexists. split; [reflexivity|].
      split_and!; try done.
    + destruct Hg as [[=] | Hm].
      destruct (install_returns p m s Hm) as [s0 H0].
      assert (Hatt := install_tracked p m s s0).
      rewrite (bind_Ok _ _ _ _ H0).
      apply install_inv in H0 as H0'. destruct H0' as (F0 & W0 & _ & _ & T0 & _).
      erewrite bind_Raise; [|apply Htrav; by rewrite F0].
      eexists. split; [reflexivity|]. simpl. split_and!; try done.
      * rewrite T0. by rewrite <- app_assoc.
      * intros _ q Hq. by apply Hatt.
  - intros Htop Hm. rewrite Htop.
    destruct (install_fails p m s Hm) as [s' H0].
    rewrite (bind_Raise _ _ _ _ _ H0). exists s'. split; [done|].
    by apply install_inv in H0 as (F0 & W0 & _ & _ & T0 & _).
Qed.
(** ** Calls that are not top-level *)

Lemma nested_refl N (s : state) : nested N s s.
Proof. intros _. split_and!; [done..|]. exists []. by rewrite app_nil_r. Qed.

Lemma nested_trans N (s1 s2 s3 : state) :
  nested N s1 s2 → nested N s2 s3 → nested N s1 s3.
Proof.
  intros H1 H2 Ht. destruct (H1 Ht) as (Ha1 & Hn1 & evs1 & Ht1 & He1).
  destruct H2 as (Ha2 & Hn2 & evs2 & Ht2 & He2).
  { intros q Hq. rewrite Ha1. by apply Ht. }
  split_and!; [congruence.. |].
  exists (evs1 ++ evs2). split; [by rewrite Ht2, Ht1, app_assoc|].
  by apply Forall_app.
Qed.

Lemma nested_mono N N' (s s' : state) :
  (∀ q, q ∈ N → q ∈ N') → nested N s s' → nested N' s s'.
Proof. intros Hsub H Ht. apply H. intros q Hq. by apply Ht, Hsub. Qed.

Lemma nested_emit N (e : event) (s : state) :
  is_tracking_event e = false → is_report_event e = false →
  nested N s (emit e s).
Proof.
  intros He He' _. split_and!; [done..|]. exists [e]. split; [done|].
  by constructor.
Qed.

Lemma nested_same N (s s' : state) :
  _params_init_info s' = _params_init_info s → next_ref s' = next_ref s →
  trace s' = trace s → nested N s s'.
Proof.
  intros Ha Hn Ht _. split_and!; [done..|]. exists []. by rewrite app_nil_r.
Qed.

Lemma nested_dispatch N p m cfg :
  sound (nested N) (call_dispatch dispatch p m cfg).
Proof.
  intros s r s' (_ & A & Hn & _ & T)%dispatch_inv _.
  split_and!; [done..|]. eexists. split; [done|]. by destruct r; repeat constructor.
Qed.

Lemma nested_update N p m info :
  sound (nested N) (update p m info).
Proof.
  intros s r s' (_ & A & Hn & T)%update_fields _.
  split_and!; [done..|]. eexists. split; [done|]. by destruct r; repeat constructor.
Qed.

Lemma nested_rules N p m cfgs : sound (nested N) (rules p m cfgs).
Proof.
  induction cfgs as [|cfg cfgs IH]; simpl.
  - apply sound_ret, nested_refl.
  - apply sound_bind; [apply nested_trans | apply nested_dispatch | done].
Qed.

Lemma nested_step q c :
  (∀ y mq, subtree y c = Some mq →
           ∀ p, sound (nested (modules p mq)) (run p mq)) →
  sound (nested (modules q c)) (step run q c).
Proof.
  intros Hv s r s'. rewrite child_step_eq.
  destruct (unwrap_model q c) as [[q' t]|] eqn:Hu;
    [|intros [= _ <-]; apply nested_refl].
  destruct (_ && _); [|intros [= _ <-]; apply nested_refl].
  intros H. apply (nested_mono (modules q' t)).
  { intros x. by apply unwrap_model_modules. }
  apply unwrap_model_subtree in Hu as (y & -> & Hy).
  revert s r s' H.
  apply sound_bind; [apply nested_trans | by apply (Hv y) | apply nested_update].
Qed.

Lemma nested_loop p m cs : ∀ i,
  (∀ k nc, cs !! k = Some nc →
           children m !! (i + k) = Some nc ∧
           ∀ y mq, subtree y (snd nc) = Some mq →
                   ∀ q, sound (nested (modules q mq)) (run q mq)) →
  sound (nested (modules p m)) (loop run p i cs).
Proof.
  induction cs as [|nc cs IH]; intros i Hcs; simpl.
  - apply sound_ret, nested_refl.
  - apply sound_bind; [apply nested_trans | |].
    + destruct (Hcs 0 nc eq_refl) as [Hk Hs]. rewrite Nat.add_0_r in Hk.
      intros s r s' Hrun.
      eapply nested_mono; [intros ?; by apply modules_child_subseteq|].
      by eapply nested_step.
    + apply IH. intros k nc' Hk.
      specialize (Hcs (S k) nc' Hk). by rewrite Nat.add_succ_r in Hcs.
Qed.

Lemma nested_traverse p m :
  (∀ k nc, children m !! k = Some nc →
           ∀ y mq, subtree y (snd nc) = Some mq →
                   ∀ q, sound (nested (modules q mq)) (run q mq)) →
  sound (nested (modules p m)) (trav p m).
Proof.
  intros IH s r s'. unfold traverse.
  destruct (_is_init s !! p) as [[]|].
  - intros [= _ <-]. by apply nested_emit.
  - revert s r s'. apply sound_bind; [apply nested_trans| |].
    + apply sound_when; [apply nested_refl|].
      intros s r s' [= _ <-]. by apply nested_emit.
    + intros s r s'. destruct (partition_cfg _) as [e|[o pr]].
      * intros [= _ <-]. apply nested_refl.
      * revert s r s'.
        repeat (apply sound_bind; [apply nested_trans|..]).
        -- apply sound_when; [apply nested_refl | apply nested_rules].
        -- apply nested_loop. intros k nc Hk. split; [done | exact (IH k nc Hk)].
        -- apply sound_when; [apply nested_refl | apply nested_rules].
        -- intros s r s' [= _ <-]. by apply nested_same.
  - intros [= _ <-]. apply nested_refl.
Qed.

Lemma nested_run_of_traverse p m :
  sound (nested (modules p m)) (trav p m) →
  sound (nested (modules p m)) (run p m).
Proof.
  intros Htrav s r s' H Ht. revert H. rewrite init_weights_eq.
  destruct (negb _); [intros [= _ <-]; exact (nested_refl _ _ Ht)|].
  rewrite (tracked_has_tracking p m s Ht). intros H.
  exact (Htrav s r s' H Ht).
Qed.

Lemma nested_run_below : ∀ m y mq,
  subtree y m = Some mq → ∀ p, sound (nested (modules p mq)) (run p mq).
Proof.
  induction m as [c hw cfg ps ch IH] using module_ind'.
  rewrite Forall_lookup in IH.
  intros [|k y] mq; simpl.
  - intros [= <-] p. apply nested_run_of_traverse, nested_traverse.
    intros k nc Hk. exact (IH k nc Hk).
  - destruct (ch !! k) as [nc|] eqn:Hk; [|done]. exact (IH k nc Hk y mq).
Qed.

Lemma nested_run : ∀ m p, sound (nested (modules p m)) (run p m).
Proof. intros m. by apply (nested_run_below m []). Qed.

(** A pass over [p] neither gives [p] a tracking map nor takes it
    away: only calls on nodes below [p] are made. *)
Local Abbreviation own p :=
  (fun s s' : state =>
     _params_init_info s' !! p = _params_init_info s !! p ∧
     ∃ evs, trace s' = trace s ++ evs ∧
            Forall (fun e => is_tracking_event e = true → ev_path e ≠ Some p) evs).

Lemma own_refl p (s : state) : own p s s.
Proof. split; [done|]. exists []. by rewrite app_nil_r. Qed.

Lemma own_trans p (s1 s2 s3 : state) : own p s1 s2 → own p s2 s3 → own p s1 s3.
Proof.
  intros [A1 (e1 & T1 & F1)] [A2 (e2 & T2 & F2)]. split; [congruence|].
  exists (e1 ++ e2). split; [by rewrite T2, T1, app_assoc | by apply Forall_app].
Qed.

Lemma own_emit p e (s : state) : is_tracking_event e = false → own p s (emit e s).
Proof.
  intros He. split; [done|]. exists [e]. split; [done|].
  apply Forall_singleton. by rewrite He.
Qed.

Lemma own_rules p q m cfgs : sound (own p) (rules q m cfgs).
Proof.
  induction cfgs as [|cfg cfgs IH]; simpl.
  - apply sound_ret, own_refl.
  - apply sound_bind; [apply own_trans | | done].
    intros s r s' (_ & A & _ & _ & T)%dispatch_inv. split; [by rewrite A|].
    eexists. split; [done|]. by destruct r; repeat constructor.
Qed.

Lemma own_loop p cs : ∀ i, sound (own p) (loop run p i cs).
Proof.
  induction cs as [|nc cs IH]; intros i; simpl.
  - apply sound_ret, own_refl.
  - apply sound_bind; [apply own_trans | | done].
    intros s r s' (_ & _ & Ha & _ & evs & T & W)%step_frame. split.
    + apply Ha. intros H. by apply modules_child_ne in H.
    + exists evs. split; [done|]. eapply Forall_impl; [done|].
      intros e He _ Hp. unfold ev_within in He. rewrite Hp in He.
      by apply modules_child_ne in He.
Qed.

Lemma own_traverse p m : sound (own p) (trav p m).
Proof.
  intros s r s'. unfold traverse.
  destruct (_is_init s !! p) as [[]|].
  - intros [= _ <-]. by apply own_emit.
  - revert s r s'. apply sound_bind; [apply own_trans| |].
    + apply sound_when; [apply own_refl|].
      intros s r s' [= _ <-]. by apply own_emit.
    + intros s r s'. destruct (partition_cfg _) as [e|[o pr]].
      * intros [= _ <-]. apply own_refl.
      * revert s r s'.
        repeat (apply sound_bind; [apply own_trans|..]).
        -- apply sound_when; [apply own_refl | apply own_rules].
        -- apply own_loop.
        -- apply sound_when; [apply own_refl | apply own_rules].
        -- intros s r s' [= _ <-]. split; [done|]. exists []. by rewrite app_nil_r.
  - intros [= _ <-]. apply own_refl.
Qed.

(** X4. Only a call that returns removes the tracking map, so a
    top-level call that raised, for whatever reason, leaves its map on
    the node it was made on; a later call on the same node, be it with
    a corrected [init_cfg] anywhere in the tree, finds the map and is
    therefore not top-level: whatever its outcome, it neither installs
    a map on that node nor removes the one that is there.  When the
    first call had completed the installation (the mean of every
    parameter could be taken), its map is on every node of the tree;
    the later call then installs nothing anywhere, writes no provenance
    record (nothing to a file handler, nothing at level info) and
    removes nothing: the map is still on every node afterwards.  When
    the first call raised during installation, at line 57, it raised
    [RuntimeError] and only the node it was made on got the map: the
    other nodes have what they had, so calls the later call makes on
    nodes below may be top-level ones. *)
Theorem X4_stale_map_blocks_finalisation p m m' (s : state) e s1 r s' :
  has_init_weights m = true →
  has_tracking s p = false →
  run p m s = (Raise e, s1) →
  modules p m' = modules p m →
  run p m' s1 = (r, s') →
  _params_init_info s1 !! p = Some (next_ref s) ∧
  _params_init_info s' !! p = Some (next_ref s) ∧
  (∃ evs, trace s' = trace s1 ++ evs ∧
          Forall (fun e => is_tracking_event e = true → ev_path e ≠ Some p) evs) ∧
  (mean_defined mean m s = true →
   (∀ q, q ∈ modules p m → _params_init_info s1 !! q = Some (next_ref s)) ∧
   (∀ q, q ∈ modules p m → _params_init_info s' !! q = Some (next_ref s)) ∧
   ∃ evs, trace s' = trace s1 ++ evs ∧
          Forall (fun e => is_tracking_event e = false ∧
                           is_report_event e = false) evs) ∧
  (mean_defined mean m s = false →
   e = RuntimeError ∧
   trace s1 = trace s ++ [EInstall p (next_ref s)] ∧
   ∀ q, q ∈ modules p m → q ≠ p →
        _params_init_info s1 !! q = _params_init_info s !! q).
Proof.
  intros Hw Htop Hrun Hsame Hrun'.
  assert (Hs1 : _params_init_info s1 !! p = Some (next_ref s) ∧
                (mean_defined mean m s = true →
                 ∀ q, q ∈ modules p m →
                      _params_init_info s1 !! q = Some (next_ref s)) ∧
                (mean_defined mean m s = false →
                 e = RuntimeError ∧
                 trace s1 = trace s ++ [EInstall p (next_ref s)] ∧
                 ∀ q, q ∈ modules p m → q ≠ p →
                      _params_init_info s1 !! q = _params_init_info s !! q)).
  { destruct (top_level_call p m s _ s1 Hw Htop Hrun)
      as [[H0 He] | (s0 & r1 & s2 & H0 & Ht & Ha & _ & _ & Hfin)].
    - injection He as ->.
      assert (Hm := install_Raise_mean_defined _ _ _ _ _ H0).
      apply install_Raise in H0 as H0'. destruct H0' as [_ Ha].
      apply install_inv in H0 as (_ & _ & _ & _ & T & _).
      split_and!.
      + rewrite Ha. apply lookup_insert_eq.
      + intros ?. congruence.
      + intros _. split_and!; [done..|].
        intros q Hq Hne. rewrite Ha. by apply lookup_insert_ne.
    - assert (Hm := install_Ok_mean_defined _ _ _ _ H0).
      assert (Hall : ∀ q, q ∈ modules p m →
                          _params_init_info s1 !! q = Some (next_ref s)).
      { assert (Ha1 : _params_init_info s1 = _params_init_info s0).
        { destruct r1 as [|e1]; [|destruct Hfin as [_ ->]; done].
          apply finalize_spec in Hfin as (_ & _ & _ & _ & evs & _ & _ & Ha' & _).
          - by rewrite Ha'.
          - intros q Hq. rewrite Ha. by eapply install_has_tracked. }
        intros q Hq. rewrite Ha1. by eapply install_tracked. }
      split_and!; [apply Hall, modules_root | done | intros ?; congruence]. }
  destruct Hs1 as (Hp1 & Hdone & Hnot).
  assert (Hown : own p s1 s').
  { rewrite init_weights_eq in Hrun'.
    destruct (negb _); [injection Hrun' as _ <-; apply own_refl|].
    unfold has_tracking in Hrun'. rewrite Hp1 in Hrun'.
    rewrite bool_decide_eq_true_2 in Hrun' by done.
    by eapply own_traverse. }
  destruct Hown as [Ap Hev].
  split_and!; [done | by rewrite Ap | done | | done].
  intros Hm. specialize (Hdone Hm).
  destruct (nested_run m' p s1 r s' Hrun') as (Ha' & _ & evs & Ht & He).
  { intros q Hq. rewrite Hsame in Hq. rewrite (Hdone q Hq). by eexists. }
  split_and!; [done | | by exists evs].
  intros q Hq. rewrite Ha'. by apply Hdone.
Qed.
(** ** Resetting the flag through the [is_init] setter *)

Lemma loop_all_skipped visit p cs : ∀ i (s : state),
  (∀ j nc, cs !! j = Some nc → skipped (snd nc) (p ++ [i + j]) s = true) →
  loop visit p i cs s = (Ok, s).
Proof.
  induction cs as [|nc cs IH]; intros i s Hs; simpl; [done|].
  erewrite bind_Ok.
  2:{ apply step_skipped. specialize (Hs 0 nc eq_refl).
      by rewrite Nat.add_0_r in Hs. }
  apply IH. intros j nc' Hj. specialize (Hs (S j) nc' Hj).
  by rewrite Nat.add_succ_r in Hs.
Qed.

Lemma traverse_all_skipped p m (s s' : state) :
  _is_init s !! p = Some false →
  (∀ k nc, children m !! k = Some nc → skipped (snd nc) (p ++ [k]) s = true) →
  trav p m s = (Ok, s') →
  _is_init s' = <[p := true]> (_is_init s) ∧
  _params_init_info s' = _params_init_info s ∧
  ∃ dbg,
    Forall (fun e => is_collaborator_event e = false) dbg ∧
    trace s' =
      trace s ++ dbg ++
      map (EApply p)
          (List.filter (fun c => negb (is_override c)) (rules_of (init_cfg m)) ++
           List.filter is_override (rules_of (init_cfg m))).
Proof.
  intros Hp Hs. unfold traverse. rewrite Hp.
  intros [(s1 & H1 & H2) | (e & _ & [=])]%bind_inv.
  destruct (partition_cfg (init_cfg m)) as [e|[o pr]] eqn:Hpart; [done|].
  apply partition_cfg_accepts in Hpart as (-> & ->).
  unfold standard_rules, override_rules in H2.
  apply bind_inv in H2 as [(s2 & H2 & H3) | (e & _ & [=])].
  apply bind_inv in H3 as [(s3 & H3 & H4) | (e & _ & [=])].
  apply bind_inv in H4 as [(s4 & H4 & [= <-]) | (e & _ & [=])].
  assert (H1' : _is_init s1 = _is_init s ∧
                _params_init_info s1 = _params_init_info s ∧
                ∃ dbg, Forall (fun e => is_collaborator_event e = false) dbg ∧
                       trace s1 = trace s ++ dbg).
  { destruct (truthy (init_cfg m)); simpl in H1; injection H1 as <-; simpl.
    - split_and!; [done..|]. eexists [_]. split; [|done]. by repeat constructor.
    - split_and!; [done..|]. exists []. by rewrite app_nil_r. }
  destruct H1' as (F1 & A1 & dbg & Hdbg & T1).
  apply when_rules_Ok in H2 as (F2 & A2 & T2).
  rewrite loop_all_skipped in H3.
  2:{ intros j nc Hj. simpl. rewrite <- (Hs j nc Hj).
      apply skipped_same_flags. intros x _. by rewrite F2, F1. }
  injection H3 as <-.
  apply when_rules_Ok in H4 as (F4 & A4 & T4).
  split_and!.
  - simpl. by rewrite F4, F2, F1.
  - simpl. by rewrite A4, A2, A1.
  - exists dbg. split; [done|]. simpl.
    by rewrite T4, T2, T1, map_app, <- !app_assoc.
Qed.

Lemma filter_collaborator_own p l :
  List.filter is_collaborator_event (map (EApply p) l) = map (EApply p) l.
Proof. induction l as [|x l IH]; simpl; [done | by rewrite IH]. Qed.

(** X5. The [is_init] setter stores [False] as readily as [True], and
    that is the way to make a node run again: after [node.is_init =
    False] on a node whose children are all passed over by the loop
    (for each, what [unwrap_model] returns is initialised, or has no
    [init_weights]), a call that returns hands to the collaborators the
    node's own rules, Standard then Override, and nothing else (no rule
    of a descendant, no [update_init_info]); the node reads initialised
    again and every other flag is as before the reset. *)
Theorem X5_reset_flag_reruns_own_rules_only p m (s s1 s' : state) :
  has_init_weights m = true →
  (∀ k nc, children m !! k = Some nc → skipped (snd nc) (p ++ [k]) s = true) →
  is_init_setter p false s = (Ok, s1) →
  run p m s1 = (Ok, s') →
  is_init p s1 = Some false ∧
  is_init p s' = Some true ∧
  (∀ q, q ≠ p → is_init q s' = is_init q s) ∧
  List.filter is_collaborator_event (drop (length (trace s1)) (trace s')) =
    map (EApply p)
        (List.filter (fun c => negb (is_override c)) (rules_of (init_cfg m)) ++
         List.filter is_override (rules_of (init_cfg m))).
Proof.
  intros Hw Hs [= <-] Hrun. set (s1 := set_is_init p false s) in *.
  assert (Hp : _is_init s1 !! p = Some false) by apply lookup_insert_eq.
  assert (Hs1 : ∀ k nc, children m !! k = Some nc →
                        skipped (snd nc) (p ++ [k]) s1 = true).
  { intros k nc Hk. rewrite <- (Hs k nc Hk). apply skipped_same_flags.
    intros x Hx. simpl. apply lookup_insert_ne. intros <-.
    by apply modules_child_ne in Hx. }
  assert (Hflags : ∀ f : gmap path bool,
             f = <[p := true]> (_is_init s1) →
             f !! p = Some true ∧ ∀ q, q ≠ p → f !! q = _is_init s !! q).
  { intros f ->. split; [apply lookup_insert_eq|]. intros q Hq.
    rewrite lookup_insert_ne by done. simpl. by rewrite lookup_insert_ne. }
  unfold is_init. split; [done|].
  destruct (has_tracking s1 p) eqn:Htop.
  - rewrite init_weights_eq, Hw, Htop in Hrun. simpl in Hrun.
    apply traverse_all_skipped in Hrun as (F & _ & dbg & Hdbg & T); [|done..].
    destruct (Hflags _ F) as [? ?]. split_and!; [done..|].
    rewrite T, drop_app_length, List.filter_app, filter_collaborator_own.
    by rewrite (filter_nil_Forall _ dbg).
  - destruct (top_level_call p m s1 Ok s' Hw Htop Hrun)
      as [[_ [=]] | (s0 & r1 & s2 & H0 & Ht & Ha & _ & _ & Hfin)].
    destruct r1 as [|e]; [|by destruct Hfin].
    assert (Htr := install_has_tracked _ _ _ _ H0).
    apply install_inv in H0 as (F0 & _ & _ & _ & T0 & _).
    apply traverse_all_skipped in Ht as (F & _ & dbg & Hdbg & T).
    2:{ by rewrite F0. }
    2:{ intros k nc Hk. rewrite <- (Hs1 k nc Hk). apply skipped_same_flags.
        intros x _. by rewrite F0. }
    apply finalize_spec in Hfin as (F' & _ & _ & _ & fin & He & _ & Htr').
    2:{ intros q Hq. rewrite Ha. by apply Htr. }
    rewrite <- F', F0 in F. destruct (Hflags _ F) as [? ?]. split_and!; [done..|].
    rewrite Htr', T, T0. rewrite <- !app_assoc, drop_app_length. simpl.
    rewrite !List.filter_app, filter_collaborator_own.
    rewrite (filter_nil_Forall _ dbg) by done.
    rewrite (filter_nil_Forall _ fin).
    2:{ eapply Forall_impl; [exact He|]. intros e (_ & _ & ?).
        by apply no_path_no_collaborator. }
    simpl. by rewrite app_nil_r.
Qed.

(** ** The provenance dump (lines 107-122) *)

Lemma info_of_Some (d : gmap nat (@entry scalar)) i info :
  info_of d i = Some info ↔ ∃ e, d !! i = Some e ∧ init_info e = Some info.
Proof. unfold info_of. apply bind_Some. Qed.

Lemma report_loop_lines out p l nps : ∀ lines (s : state),
  _params_init_info s !! p = Some l →
  report_lines (dicts (st_world s) l) nps = Some lines →
  ∃ s', report_loop out p nps s = (Ok, s') ∧ same_but_trace s s' ∧
        trace s' = trace s ++ map out lines.
Proof.
  unfold report_lines. induction nps as [|[name prm] nps IH]; intros lines s Ha Hl.
  - injection Hl as <-. exists s. simpl. by rewrite app_nil_r.
  - apply mapM_Some in Hl. inversion Hl as [|? line ? lines' Hx Hr]; subst.
    apply mapM_Some in Hr. simpl in Hx.
    apply fmap_Some in Hx as (info & Hi & ->).
    apply info_of_Some in Hi as (e & He & Hi).
    simpl. rewrite Ha, He, Hi.
    destruct (IH lines' (emit (out (report_line name (p_shape prm) info)) s))
      as (s' & Hrun & Hsame & Ht); [done..|].
    exists s'. split; [done|]. split; [done|].
    rewrite Ht. simpl. by rewrite <- app_assoc.
Qed.

Lemma report_loop_stops out p l name prm post pre : ∀ lines (s : state),
  _params_init_info s !! p = Some l →
  report_lines (dicts (st_world s) l) pre = Some lines →
  info_of (dicts (st_world s) l) (p_id prm) = None →
  ∃ s', report_loop out p (pre ++ (name, prm) :: post) s = (Raise KeyError, s') ∧
        _is_init s' = _is_init s ∧
        _params_init_info s' = _params_init_info s ∧
        trace s' = trace s ++ map out lines ∧
        (dicts (st_world s) l !! p_id prm = None →
         dicts (st_world s') l !! p_id prm =
         Some {| init_info := None; tmp_mean_value := None |}).
Proof.
  unfold report_lines. induction pre as [|[name' prm'] pre IH]; intros lines s Ha Hl Hn.
  - injection Hl as <-. simpl. rewrite Ha. unfold info_of in Hn.
    destruct (dicts (st_world s) l !! p_id prm) as [e|] eqn:He; simpl in Hn.
    + rewrite Hn. exists s. rewrite app_nil_r. split_and!; done.
    + eexists. split; [reflexivity|]. simpl. rewrite app_nil_r.
      split_and!; [done..|]. intros _.
      destruct (decide (l = l)); [|done]. apply lookup_insert_eq.
  - apply mapM_Some in Hl. inversion Hl as [|? line ? lines' Hx Hr]; subst.
    apply mapM_Some in Hr. simpl in Hx.
    apply fmap_Some in Hx as (info & Hi & ->).
    apply info_of_Some in Hi as (e & He & Hi).
    simpl. rewrite Ha, He, Hi.
    destruct (IH lines' (emit (out (report_line name' (p_shape prm') info)) s))
      as (s' & Hrun & Hf & Hat & Ht & Hd); [done..|].
    exists s'. split; [done|]. split_and!; [done..| |done].
    rewrite Ht. simpl. by rewrite <- app_assoc.
Qed.

Lemma first_file_handler_spec hs : ∀ i,
  match first_file_handler i hs with
  | Some (h, o) => i ≤ h ∧ hs !! (h - i) = Some (FileHandler o) ∧
                   ∀ j, j < h - i → hs !! j = Some StreamHandler
  | None => ∀ x, x ∈ hs → x = StreamHandler
  end.
Proof.
  induction hs as [|[o|] hs IH]; intros i; simpl.
  - intros x Hx. inversion Hx.
  - rewrite Nat.sub_diag. split_and!; [done..|]. intros j Hj. lia.
  - specialize (IH (S i)). destruct (first_file_handler (S i) hs) as [[h o]|].
    + destruct IH as (Hle & Hh & Hlt). split; [lia|].
      replace (h - i) with (S (h - S i)) by lia. split; [done|].
      intros [|j] Hj; [done|]. simpl. apply Hlt. lia.
    + intros x [->|Hx]%elem_of_cons; [done | by apply IH].
Qed.

(** X6. The records of the dump go to one place only: if the logger has
    a [FileHandler], to the first of its handlers that is one (whatever
    comes before it is no [FileHandler]); otherwise each record is
    logged at level info.  When every parameter of [named_parameters()]
    has a description in the tracking map: if the records go to a file
    handler that has a stream, or to the logger, the dump returns and
    changes nothing but what is written out, which is one record per
    parameter, in the order of [named_parameters()], each with the
    description the map holds at that moment, with the header before
    them and one flush after them when they go to the file handler, and
    nothing logged then; if the file handler has no stream, the write
    of the header (line 111) raises [AttributeError], and nothing is
    written and nothing changed. *)
Theorem X6_dump_writes_one_record_per_parameter p m l lines (s : state) :
  _params_init_info s !! p = Some l →
  report_lines (dicts (st_world s) l) (named_parameters m) = Some lines →
  length lines = length (named_parameters m) ∧
  match first_file_handler 0 (log_handlers s) with
  | Some (h, has_stream) =>
      log_handlers s !! h = Some (FileHandler has_stream) ∧
      (∀ j, j < h → log_handlers s !! j = Some StreamHandler) ∧
      if has_stream then
        ∃ s',
          dump_info p m s = (Ok, s') ∧
          same_but_trace s s' ∧
          trace s' = trace s ++
                     EWrite h report_header :: map (EWrite h) lines ++ [EFlush h]
      else dump_info p m s = (Raise AttributeError, s)
  | None =>
      (∀ x, x ∈ log_handlers s → x = StreamHandler) ∧
      ∃ s',
        dump_info p m s = (Ok, s') ∧
        same_but_trace s s' ∧
        trace s' = trace s ++ map (ELog INFO) lines
  end.
Proof.
  intros Ha Hl.
  assert (Hlen : length lines = length (named_parameters m)).
  { unfold report_lines in Hl. apply mapM_Some in Hl.
    symmetry. by eapply Forall2_length. }
  split; [done|].
  assert (Hh := first_file_handler_spec (log_handlers s) 0).
  unfold dump_info.
  destruct (first_file_handler 0 (log_handlers s)) as [[h [|]]|].
  - destruct Hh as (_ & Hh & Hlt). rewrite Nat.sub_0_r in Hh, Hlt.
    split_and!; [done..|].
    destruct (report_loop_lines (EWrite h) p l (named_parameters m) lines
                (emit (EWrite h report_header) s)) as (s1 & Hrun & Hs & Ht);
      [done..|].
    exists (emit (EFlush h) s1). split.
    { unfold bind, tell. by rewrite Hrun. }
    destruct Hs as (? & ? & ? & ? & ?). split_and!; try done.
    simpl. rewrite Ht. simpl. by rewrite <- !app_assoc.
  - destruct Hh as (_ & Hh & Hlt). rewrite Nat.sub_0_r in Hh, Hlt. done.
  - split; [done|].
    destruct (report_loop_lines (ELog INFO) p l (named_parameters m) lines s)
      as (s1 & Hrun & Hs & Ht); [done..|].
    exists s1. split_and!; done.
Qed.

(** X7. A parameter without a description stops the dump with
    [KeyError]: the records of the parameters before it have been
    written (after the header, when they go to a file handler), the
    flush has not happened, and the cleanup of lines 125-126 is not
    reached, so every tracking attribute stays and no flag changes.
    When the parameter was not in the map at all, reading it has put an
    empty entry for it there, the map being a [defaultdict].  This is
    so when the logger can take the dump; when the first file handler
    has no stream, the write of the header raises [AttributeError]
    before any parameter is read, and nothing is written or changed. *)
Theorem X7_missing_description_aborts_finalisation
        p m l pre name prm post lines (s : state) :
  _params_init_info s !! p = Some l →
  named_parameters m = pre ++ (name, prm) :: post →
  report_lines (dicts (st_world s) l) pre = Some lines →
  info_of (dicts (st_world s) l) (p_id prm) = None →
  (stream_ready (log_handlers s) = true →
   ∃ s',
     _finalize_init p m s = (Raise KeyError, s') ∧
     _is_init s' = _is_init s ∧
     _params_init_info s' = _params_init_info s ∧
     trace s' =
       trace s ++
       match first_file_handler 0 (log_handlers s) with
       | Some (h, _) => EWrite h report_header :: map (EWrite h) lines
       | None => map (ELog INFO) lines
       end ∧
     (dicts (st_world s) l !! p_id prm = None →
      dicts (st_world s') l !! p_id prm =
      Some {| init_info := None; tmp_mean_value := None |})) ∧
  (stream_ready (log_handlers s) = false →
   _finalize_init p m s = (Raise AttributeError, s)).
Proof.
  intros Ha Hnp Hl Hn. split.
  - intros Hready.
    cut (∃ s', dump_info p m s = (Raise KeyError, s') ∧
               _is_init s' = _is_init s ∧
               _params_init_info s' = _params_init_info s ∧
               trace s' =
                 trace s ++
                 match first_file_handler 0 (log_handlers s) with
                 | Some (h, _) => EWrite h report_header :: map (EWrite h) lines
                 | None => map (ELog INFO) lines
                 end ∧
               (dicts (st_world s) l !! p_id prm = None →
                dicts (st_world s') l !! p_id prm =
                Some {| init_info := None; tmp_mean_value := None |})).
    { intros (s' & Hrun & H). exists s'. split; [|done].
      unfold _finalize_init. by erewrite bind_Raise. }
    unfold dump_info. rewrite Hnp. unfold stream_ready in Hready.
    destruct (first_file_handler 0 (log_handlers s)) as [[h [|]]|]; [| done |].
    + destruct (report_loop_stops (EWrite h) p l name prm post pre lines
                  (emit (EWrite h report_header) s))
        as (s' & Hrun & Hf & Hat & Ht & Hd); [done..|].
      exists s'. split.
      { unfold bind, tell. by rewrite Hrun. }
      split_and!; try done. rewrite Ht. simpl. by rewrite <- app_assoc.
    + destruct (report_loop_stops (ELog INFO) p l name prm post pre lines s)
        as (s' & Hrun & Hf & Hat & Ht & Hd); [done..|].
      by exists s'.
  - intros Hready. unfold _finalize_init. apply bind_Raise.
    unfold dump_info. unfold stream_ready in Hready.
    by destruct (first_file_handler 0 (log_handlers s)) as [[h [|]]|].
Qed.

(** ** The tracking map and the parameters it is keyed by (lines 50-57) *)

Lemma dedup_by_id_fresh l : ∀ seen np,
  np ∈ dedup_by_id seen l → p_id (snd np) ∉ seen.
Proof.
  induction l as [|a l IH]; intros seen np; simpl; [by intros ?%elem_of_nil|].
  case_bool_decide as Ha; [apply IH|].
  intros [->|H]%elem_of_cons; [done|]. apply IH in H. set_solver.
Qed.

Lemma dedup_by_id_NoDup l : ∀ seen,
  NoDup ((fun np => p_id (snd np)) <$> dedup_by_id seen l).
Proof.
  induction l as [|a l IH]; intros seen; simpl; [constructor|].
  case_bool_decide as Ha; [apply IH|]. simpl. apply NoDup_cons. split; [|apply IH].
  intros (np & Hid & Hnp)%list_elem_of_fmap. apply dedup_by_id_fresh in Hnp.
  rewrite <- Hid in Hnp. set_solver.
Qed.

Lemma dedup_by_id_first l : ∀ seen np,
  np ∈ dedup_by_id seen l →
  ∃ pre post, l = pre ++ np :: post ∧
              ∀ np', np' ∈ pre → p_id (snd np') ≠ p_id (snd np).
Proof.
  induction l as [|a l IH]; intros seen np; simpl; [by intros ?%elem_of_nil|].
  case_bool_decide as Ha.
  - intros H. assert (Hf := dedup_by_id_fresh _ _ _ H).
    destruct (IH _ _ H) as (pre & post & -> & Hpre).
    exists (a :: pre), post. split; [done|].
    intros np' [->|H']%elem_of_cons; [congruence | by apply Hpre].
  - intros [->|H]%elem_of_cons.
    + exists [], l. split; [done|]. by intros np' ?%elem_of_nil.
    + assert (Hf := dedup_by_id_fresh _ _ _ H).
      destruct (IH _ _ H) as (pre & post & -> & Hpre).
      exists (a :: pre), post. split; [done|].
      intros np' [->|H']%elem_of_cons; [set_solver | by apply Hpre].
Qed.

Lemma size_of_keys {A} (d : gmap nat A) (l : list nat) :
  NoDup l → (∀ i, is_Some (d !! i) ↔ i ∈ l) → size d = length l.
Proof.
  intros Hnd Hd. rewrite <- size_dom.
  assert (Hdom : dom d = list_to_set l).
  { apply set_eq. intros i. by rewrite elem_of_dom, elem_of_list_to_set. }
  rewrite Hdom. by apply size_list_to_set.
Qed.

(** X8. The tracking map is keyed by parameter object, not by name: a
    parameter object registered under several names (tied weights)
    occurs once in [named_parameters()], under the first of its names
    in registration order.  When installation returns, the map has
    exactly one entry for every parameter object registered anywhere in
    the tree, and as many entries as [named_parameters()] has items.
    When installation raises, it is at the first parameter the mean of
    which cannot be taken (line 57): the map has an entry for that
    parameter, with the description and without the mean, and one for
    each parameter before it in [named_parameters()], and no other. *)
Theorem X8_one_tracking_entry_per_parameter_object p m (s : state) r s0 :
  install p m s = (r, s0) →
  let d := dicts (st_world s0) (next_ref s) in
  NoDup ((fun np => p_id (snd np)) <$> named_parameters m) ∧
  (∀ name prm, (name, prm) ∈ named_parameters m →
     ∃ pre post, named_parameters_raw "" m = pre ++ (name, prm) :: post ∧
                 ∀ np, np ∈ pre → p_id (snd np) ≠ p_id prm) ∧
  match r with
  | Ok =>
      (∀ i, is_Some (d !! i) ↔
            ∃ name prm, (name, prm) ∈ named_parameters_raw "" m ∧ p_id prm = i) ∧
      size d = length (named_parameters m)
  | Raise _ =>
      ∃ pre np post,
        named_parameters m = pre ++ np :: post ∧
        Forall (fun np => is_Some (mean (tensors (st_world s) (p_id (snd np))))) pre ∧
        mean (tensors (st_world s) (p_id (snd np))) = None ∧
        d !! p_id (snd np) =
          Some {| init_info := Some (unchanged_info (cls m));
                  tmp_mean_value := None |} ∧
        (∀ i, is_Some (d !! i) ↔
              i ∈ (fun np => p_id (snd np)) <$> (pre ++ [np])) ∧
        size d = S (length pre)
  end.
Proof.
  intros H0. cbv zeta.
  assert (Hnd : NoDup ((fun np => p_id (snd np)) <$> named_parameters m))
    by apply dedup_by_id_NoDup.
  split; [done|]. split.
  { intros name prm Hnp. by apply dedup_by_id_first in Hnp. }
  apply install_inv in H0 as (_ & _ & _ & _ & _ & _ & ok & d & Hf & -> & Hr).
  apply fill_dict_spec in Hf. destruct ok.
  - destruct Hr as [-> _]. destruct Hf as [_ Hd].
    assert (Hkeys : ∀ i, is_Some (d !! i) ↔
                         i ∈ (fun np => p_id (snd np)) <$> named_parameters m).
    { intros i. rewrite Hd. case_bool_decide as Hi.
      - split; [done | by eexists].
      - rewrite lookup_empty. split; [by intros [? ?] | done]. }
    split; [|rewrite (size_of_keys _ _ Hnd Hkeys); by rewrite length_fmap].
    intros i. rewrite Hkeys, list_elem_of_fmap. split.
    + intros ([name prm] & -> & Hnp). exists name, prm. split; [|done].
      by apply dedup_by_id_subseteq in Hnp.
    + intros (name & prm & Hnp & Hi).
      destruct (dedup_by_id_covers _ ∅ _ Hnp) as (np' & Hnp' & Hid); [set_solver|].
      exists np'. split; [|done]. by rewrite Hid.
  - destruct Hr as [-> _].
    destruct Hf as (pre & np & post & Hnps & Hpre & Hnone & Hd).
    exists pre, np, post. split_and!; [done..| | |].
    + rewrite Hd, bool_decide_eq_true_2 by done. by rewrite lookup_empty.
    + intros i. rewrite Hd, fmap_app, elem_of_app. simpl.
      rewrite list_elem_of_singleton.
      case_bool_decide as Hi; [split; [by right | by eexists]|].
      case_bool_decide as Hi'; [split; [by left | by eexists]|].
      rewrite lookup_empty. split; [by intros [? ?] | intros [?|?]; done].
    + rewrite (size_of_keys _ ((fun np => p_id (snd np)) <$> (pre ++ [np]))).
      * rewrite length_fmap, length_app. simpl. lia.
      * rewrite Hnps in Hnd. rewrite fmap_app in Hnd |- *. simpl in Hnd |- *.
        apply NoDup_app in Hnd as (N1 & N2 & N3).
        apply NoDup_app. split_and!; [done | | apply NoDup_singleton].
        intros x Hx ->%list_elem_of_singleton. apply (N2 _ Hx). left.
      * intros i. rewrite Hd, fmap_app, elem_of_app. simpl.
        rewrite list_elem_of_singleton.
        case_bool_decide as Hi; [split; [by right | by eexists]|].
        case_bool_decide as Hi'; [split; [by left | by eexists]|].
        rewrite lookup_empty. split; [by intros [? ?] | intros [?|?]; done].
Qed.
(** ** Nodes that are initialised already *)

Lemma spares_refl q (s : state) : spares q s s.
Proof. intros Hq. split; [done|]. exists []. by rewrite app_nil_r. Qed.

Lemma spares_trans q (s1 s2 s3 : state) :
  spares q s1 s2 → spares q s2 s3 → spares q s1 s3.
Proof.
  intros H1 H2 Hq. destruct (H1 Hq) as (Hq2 & e1 & T1 & A1).
  destruct (H2 Hq2) as (Hq3 & e2 & T2 & A2). split; [done|].
  exists (e1 ++ e2). rewrite T2, T1, app_assoc. split; [done|].
  by apply Forall_app.
Qed.

Lemma spares_emit q e (s : state) :
  (is_collaborator_event e = true → ev_path e ≠ Some q) →
  spares q s (emit e s).
Proof.
  intros He Hq. split; [done|]. exists [e]. split; [done|].
  by apply Forall_singleton.
Qed.

Lemma spares_same q (s s' : state) :
  _is_init s' = _is_init s → trace s' = trace s → spares q s s'.
Proof.
  intros F T Hq. split; [by rewrite F|]. exists []. by rewrite app_nil_r.
Qed.

Lemma spares_dispatch q p m cfg :
  p ≠ q → sound (spares q) (call_dispatch dispatch p m cfg).
Proof.
  intros Hp s r s' (F & _ & _ & _ & T)%dispatch_inv Hq.
  split; [by rewrite F|]. eexists. split; [done|].
  apply Forall_singleton. destruct r; intros _ [= ?]; done.
Qed.

Lemma spares_rules q p m cfgs : p ≠ q → sound (spares q) (rules p m cfgs).
Proof.
  intros Hp. induction cfgs as [|cfg cfgs IH]; simpl.
  - apply sound_ret, spares_refl.
  - apply sound_bind; [apply spares_trans | by apply spares_dispatch | done].
Qed.

Lemma spares_update q p m info :
  p ≠ q → sound (spares q) (update p m info).
Proof.
  intros Hp s r s' (F & _ & _ & T)%update_fields Hq.
  split; [by rewrite F|]. eexists. split; [done|].
  destruct r; [|done]. apply Forall_singleton. intros _ [= ?]. done.
Qed.

Lemma spares_step q p c :
  (∀ y mq, subtree y c = Some mq → ∀ p', sound (spares q) (run p' mq)) →
  sound (spares q) (step run p c).
Proof.
  intros Hv s r s' H Hq. revert H. rewrite child_step_eq.
  destruct (unwrap_model p c) as [[q' t]|] eqn:Hu.
  2:{ intros [= <- <-]. by apply spares_refl. }
  destruct (has_init_weights t && negb (is_init_getattr s q')) eqn:E.
  2:{ intros [= <- <-]. by apply spares_refl. }
  assert (Hp : q' ≠ q).
  { intros ->. apply andb_true_iff in E as [_ E]. unfold is_init_getattr in E.
    by rewrite Hq in E. }
  apply unwrap_model_subtree in Hu as (y & -> & Hy).
  intros H. revert Hq. revert H.
  refine (sound_bind (spares q) _ _ _ _ _ s r s');
    [apply spares_trans | by apply (Hv y) | by apply spares_update].
Qed.

Lemma spares_loop q p cs : ∀ i,
  (∀ k nc, cs !! k = Some nc →
           ∀ y mq, subtree y (snd nc) = Some mq →
                   ∀ p', sound (spares q) (run p' mq)) →
  sound (spares q) (loop run p i cs).
Proof.
  induction cs as [|nc cs IH]; intros i Hcs; simpl.
  - apply sound_ret, spares_refl.
  - apply sound_bind; [apply spares_trans | |].
    + apply spares_step. exact (Hcs 0 nc eq_refl).
    + apply IH. intros k nc' Hk. exact (Hcs (S k) nc' Hk).
Qed.

Lemma spares_traverse q p m :
  (∀ k nc, children m !! k = Some nc →
           ∀ y mq, subtree y (snd nc) = Some mq →
                   ∀ p', sound (spares q) (run p' mq)) →
  sound (spares q) (trav p m).
Proof.
  intros IH s r s' H Hq. revert H. unfold traverse.
  destruct (_is_init s !! p) as [[]|] eqn:Hp.
  - intros [= <- <-]. by apply spares_emit.
  - assert (Hne : p ≠ q) by (intros ->; congruence).
    intros H. revert Hq. revert H.
    refine (sound_bind (spares q) _ _ _ _ _ s r s'); [apply spares_trans | |].
    + apply sound_when; [apply spares_refl|].
      intros s1 r1 s1' [= <- <-]. by apply spares_emit.
    + intros s1 r1 s1'. destruct (partition_cfg _) as [e|[o pr]].
      * intros [= <- <-]. apply spares_refl.
      * revert s1 r1 s1'.
        repeat (apply sound_bind; [apply spares_trans|..]).
        -- apply sound_when; [apply spares_refl | by apply spares_rules].
        -- apply spares_loop. intros k nc Hk. exact (IH k nc Hk).
        -- apply sound_when; [apply spares_refl | by apply spares_rules].
        -- intros s2 r2 s2' [= <- <-] Hq2. split.
           ++ simpl. by rewrite lookup_insert_ne.
           ++ exists []. by rewrite app_nil_r.
  - intros [= <- <-]. by apply spares_refl.
Qed.

Lemma spares_finalize q p m : sound (spares q) (_finalize_init p m : M).
Proof.
  unfold _finalize_init.
  apply sound_bind; [apply spares_trans | | apply sound_bind;
                                            [apply spares_trans | |]].
  - intros s r s' H Hq.
    apply dump_info_fields in H as (F & _ & _ & _ & _ & _ & evs & T & E).
    split; [by rewrite F|]. exists evs. split; [done|].
    eapply Forall_impl; [exact E|]. intros e (_ & _ & He) _. by rewrite He.
  - intros s r s' H. apply cleanup_loop_fields in H as (F & T).
    by apply spares_same.
  - intros s r s' [= <- <-]. by apply spares_emit.
Qed.

Lemma spares_run_of_traverse q p m :
  sound (spares q) (trav p m) → sound (spares q) (run p m).
Proof.
  intros Ht s r s'. rewrite init_weights_eq.
  destruct (negb _); [intros [= <- <-]; apply spares_refl|].
  destruct (has_tracking s p); [apply Ht|].
  assert (Hi : sound (spares q) (install p m)).
  { intros s1 r1 s1' (F & _ & _ & _ & T & _)%install_inv Hq.
    split; [by rewrite F|]. eexists. split; [done|]. by apply Forall_singleton. }
  revert s r s'.
  apply sound_bind; [apply spares_trans | done |].
  apply sound_bind; [apply spares_trans | done | apply spares_finalize].
Qed.

Lemma spares_run_below q : ∀ m y mq,
  subtree y m = Some mq → ∀ p, sound (spares q) (run p mq).
Proof.
  induction m as [c hw cfg ps ch IH] using module_ind'.
  rewrite Forall_lookup in IH.
  intros [|k y] mq; simpl.
  - intros [= <-] p. apply spares_run_of_traverse, spares_traverse.
    intros k nc Hk. exact (IH k nc Hk).
  - destruct (ch !! k) as [nc|] eqn:Hk; [|done]. exact (IH k nc Hk y mq).
Qed.

(** X11. A node that reads initialised when a call starts, wherever it
    sits in the tree the call is made on, is handed nothing by that
    call, whatever the outcome: no rule of its [init_cfg] goes to
    dispatch and [update_init_info] is not called on it.  It is not only
    the root that is guarded (line 63): the test of line 89 keeps the
    traversal out of every initialised node, at any depth. *)
Theorem X11_initialised_nodes_are_handed_nothing p m (s : state) r s' q :
  _is_init s !! q = Some true →
  run p m s = (r, s') →
  ∃ evs, trace s' = trace s ++ evs ∧
         Forall (fun e => is_collaborator_event e = true → ev_path e ≠ Some q) evs.
Proof.
  intros Hq Hrun.
  by destruct (spares_run_below q m [] m eq_refl p s r s' Hrun Hq) as [_ ?].
Qed.

(** ** Who writes the parameter buffers *)

(** X12. The protocol itself never writes a parameter buffer:
    installation, logging, the dump and the cleanup leave the buffers
    alone, so whatever holds of the buffers and is kept by every call
    of dispatch and of [update_init_info] is kept by a call of
    [init_weights], whatever its outcome.  In particular, with
    collaborators that do not write, the buffers after the call are the
    buffers before it. *)
Theorem X12_only_the_collaborators_write_buffers
        (I : (nat → tensor) → Prop) p m (s : state) r s' :
  (∀ q c cfg w, I (tensors w) → I (tensors (snd (dispatch q c cfg w)))) →
  (∀ q c info w, I (tensors w) → I (tensors (snd (update_init_info q c info w)))) →
  run p m s = (r, s') →
  I (tensors (st_world s)) → I (tensors (st_world s')).
Proof.
  intros Hd Hu. revert s r s'.
  change (sound (keeps_buffers I) (run p m)).
  revert m p.
  apply (engine_sound (fun _ _ => keeps_buffers I)).
  - by intros ??? ?.
  - intros _ _ s1 s2 s3 H1 H2 H. by apply H2, H1.
  - done.
  - by intros ????? ?.
  - intros q c cfg s r s' H. unfold call_dispatch in H. intros HI.
    specialize (Hd q c cfg (st_world s) HI).
    destruct (dispatch _ _ _ _) as [[] w]; by injection H as <- <-.
  - intros q c info s r s' H. unfold call_update_init_info in H. intros HI.
    specialize (Hu q c info (st_world s) HI).
    destruct (update_init_info _ _ _ _) as [[] w]; by injection H as <- <-.
  - by intros ??? ?.
  - intros q c s r s' _ (_ & W & _)%install_inv HI. by rewrite W.
  - intros q c s s1 r s' _ H Hf HI. specialize (H HI).
    unfold _finalize_init in Hf.
    assert (Hc : ∀ qs (s2 : state) r2 s3,
               cleanup_loop qs s2 = (r2, s3) → st_world s3 = st_world s2).
    { induction qs as [|q0 qs IHq]; intros s2 r2 s3; simpl.
      - by intros [= _ <-].
      - destruct (_params_init_info s2 !! q0); [|by intros [= _ <-]].
        by intros ->%IHq. }
    apply bind_inv in Hf as [(s2 & H1 & H2) | (e & H1 & _)].
    + apply dump_info_fields in H1 as (_ & _ & _ & _ & T1 & _).
      apply bind_inv in H2 as [(s3 & H2 & [= _ <-]) | (e & H2 & _)];
        apply Hc in H2; simpl; by rewrite H2, T1.
    + apply dump_info_fields in H1 as (_ & _ & _ & _ & T1 & _).
      by rewrite T1.
Qed.

(** ** What an exception says about the node the call was made on *)

Lemma quiet_step q c : sound (quiet (modules q c)) (step run q c).
Proof.
  intros s r s'. rewrite child_step_eq.
  destruct (unwrap_model q c) as [[q' t]|] eqn:Hu;
    [|intros [= _ <-]; apply quiet_refl].
  destruct (_ && _); [|intros [= _ <-]; apply quiet_refl].
  intros H. apply (quiet_mono (modules q' t)).
  { intros x. by apply unwrap_model_modules. }
  revert s r s' H.
  apply sound_bind; [apply quiet_trans | apply init_weights_quiet | apply quiet_update].
Qed.

Lemma dispatch_Raise p m cfg (s : state) e s' :
  call_dispatch dispatch p m cfg s = (Raise e, s') →
  fst (dispatch p m cfg (st_world s)) = Raise e.
Proof.
  unfold call_dispatch. destruct (dispatch _ _ _ _) as [[|e'] w]; [done|].
  by intros [= <- _].
Qed.

Lemma update_Raise p m info (s : state) e s' :
  update p m info s = (Raise e, s') →
  fst (update_init_info p m info (st_world s)) = Raise e.
Proof.
  unfold call_update_init_info.
  destruct (update_init_info _ _ _ _) as [[|e'] w]; [done|].
  by intros [= <- _].
Qed.

Lemma rules_Raise_from p m cfgs : ∀ (s : state) e s',
  rules p m cfgs s = (Raise e, s') →
  ∃ cfg w, fst (dispatch p m cfg w) = Raise e.
Proof.
  induction cfgs as [|cfg cfgs IH]; intros s e s'; simpl; [done|].
  intros [(s1 & H1 & H2) | (e' & H1 & [= <-])]%bind_inv.
  - by eapply IH.
  - apply dispatch_Raise in H1. eauto.
Qed.

Lemma when_rules_Raise_from p m cfgs (s : state) e s' :
  when (nonempty cfgs) (rules p m cfgs) s = (Raise e, s') →
  ∃ cfg w, fst (dispatch p m cfg w) = Raise e.
Proof. destruct cfgs; [done | apply rules_Raise_from]. Qed.

(** Neither collaborator ever raises [KeyError]. *)
Local Abbreviation no_collaborator_key_error :=
  ((∀ q c cfg w, fst (dispatch q c cfg w) ≠ Raise KeyError) ∧
   (∀ q c info w, fst (update_init_info q c info w) ≠ Raise KeyError)).

Local Abbreviation no_key_error m :=
  (∀ p (s : state) e s',
      tracked (modules p m) s → run p m s = (Raise e, s') → e ≠ KeyError).

Lemma step_no_key_error q c (s : state) e s' :
  no_collaborator_key_error →
  (∀ y mq, subtree y c = Some mq → no_key_error mq) →
  tracked (modules q c) s →
  step run q c s = (Raise e, s') → e ≠ KeyError.
Proof.
  intros [Hd Hu] Hv Ht. rewrite child_step_eq.
  destruct (unwrap_model q c) as [[q' t]|] eqn:Hu'; [|done].
  destruct (_ && _); [|done].
  intros [(s1 & H1 & H2) | (e' & H1 & [= <-])]%bind_inv.
  - apply update_Raise in H2. intros ->. by eapply Hu.
  - apply unwrap_model_subtree in Hu' as Hy. destruct Hy as (y & -> & Hy).
    eapply (Hv y t Hy); [|exact H1]. intros x Hx. apply Ht.
    by eapply unwrap_model_modules.
Qed.

Lemma loop_no_key_error p m cs : ∀ i (s : state) e s',
  no_collaborator_key_error →
  (∀ k nc, cs !! k = Some nc →
           children m !! (i + k) = Some nc ∧
           ∀ y mq, subtree y (snd nc) = Some mq → no_key_error mq) →
  tracked (modules p m) s →
  loop run p i cs s = (Raise e, s') → e ≠ KeyError.
Proof.
  induction cs as [|nc cs IH]; intros i s e s' Hcol Hcs Ht; simpl; [done|].
  destruct (Hcs 0 nc eq_refl) as [Hk Hnc]. rewrite Nat.add_0_r in Hk.
  assert (Htc : tracked (modules (p ++ [i]) (snd nc)) s).
  { intros x Hx. apply Ht. by eapply modules_child_subseteq. }
  intros [(s1 & H1 & H2) | (e' & H1 & [= <-])]%bind_inv.
  - eapply (IH (S i) s1); [done | | | exact H2].
    + intros k nc' Hk'. specialize (Hcs (S k) nc' Hk').
      by rewrite Nat.add_succ_r in Hcs.
    + destruct (quiet_step _ _ s Ok s1 H1 Htc) as (Ha & _).
      intros x Hx. rewrite Ha. by apply Ht.
  - by eapply step_no_key_error.
Qed.

Lemma traverse_no_key_error p m (s : state) e s' :
  no_collaborator_key_error →
  (∀ k nc, children m !! k = Some nc →
           ∀ y mq, subtree y (snd nc) = Some mq → no_key_error mq) →
  tracked (modules p m) s →
  trav p m s = (Raise e, s') → e ≠ KeyError.
Proof.
  intros Hcol IH Ht. unfold traverse.
  destruct (_is_init s !! p) as [[]|]; [done| |by intros [= <- _]].
  intros [(s1 & H1 & H2) | (e' & H1 & _)]%bind_inv.
  2:{ destruct (truthy _); done. }
  assert (A1 : _params_init_info s1 = _params_init_info s).
  { destruct (truthy _); simpl in H1; by injection H1 as <-. }
  destruct (partition_cfg (init_cfg m)) as [e0|[o pr]] eqn:Hpart.
  { injection H2 as <- _. by apply partition_cfg_error in Hpart as [->| ->]. }
  apply bind_inv in H2 as [(s2 & H2 & H3) | (e' & H2 & [= <-])].
  2:{ apply when_rules_Raise_from in H2 as (cfg & w & H2). intros ->.
      by eapply (proj1 Hcol). }
  apply when_rules_Ok in H2 as (_ & A2 & _).
  apply bind_inv in H3 as [(s3 & H3 & H4) | (e' & H3 & [= <-])].
  2:{ eapply (loop_no_key_error p m _ 0 s2); [done | | | exact H3].
      - intros k nc Hk. split; [done | exact (IH k nc Hk)].
      - intros q Hq. rewrite A2, A1. by apply Ht. }
  apply bind_inv in H4 as [(s4 & H4 & [=]) | (e' & H4 & [= <-])].
  apply when_rules_Raise_from in H4 as (cfg & w & H4). intros ->.
  by eapply (proj1 Hcol).
Qed.

Lemma nested_no_key_error_below :
  no_collaborator_key_error →
  ∀ m y mq, subtree y m = Some mq → no_key_error mq.
Proof.
  intros Hcol. induction m as [c hw cfg ps ch IH] using module_ind'.
  rewrite Forall_lookup in IH.
  intros [|k y] mq; simpl.
  - intros [= <-] p s e s' Ht. rewrite init_weights_eq.
    destruct (negb _); [by intros [= <- _]|].
    rewrite (tracked_has_tracking p _ s Ht).
    apply traverse_no_key_error; [done | | done].
    intros k nc Hk. exact (IH k nc Hk).
  - destruct (ch !! k) as [nc|] eqn:Hk; [|done]. exact (IH k nc Hk y mq).
Qed.

Lemma traverse_Raise_root_flag p m (s : state) e s' :
  trav p m s = (Raise e, s') → _is_init s' !! p = _is_init s !! p.
Proof.
  unfold traverse.
  destruct (_is_init s !! p) as [[]|] eqn:Hp; [done| |by intros [= _ <-]].
  intros [(s1 & H1 & H2) | (e' & H1 & _)]%bind_inv.
  2:{ destruct (truthy _); done. }
  assert (F1 : _is_init s1 = _is_init s).
  { destruct (truthy _); simpl in H1; by injection H1 as <-. }
  rewrite <- Hp, <- F1.
  destruct (partition_cfg (init_cfg m)) as [e0|[o pr]].
  { by injection H2 as _ <-. }
  apply bind_inv in H2 as [(s2 & H2 & H3) | (e' & H2 & _)].
  2:{ apply when_rules_inv in H2 as (F & _). by rewrite F. }
  apply when_rules_Ok in H2 as (F2 & _ & _). rewrite <- F2.
  assert (Hl : ∀ r3 s3, loop run p 0 (children m) s2 = (r3, s3) →
                        _is_init s3 !! p = _is_init s2 !! p).
  { intros r3 s3 H. eapply loop_keeps; [exact H|].
    intros k nc _ Hin. by apply modules_child_ne in Hin. }
  apply bind_inv in H3 as [(s3 & H3 & H4) | (e' & H3 & _)]; [|by eapply Hl].
  rewrite <- (Hl _ _ H3).
  apply bind_inv in H4 as [(s4 & H4 & [=]) | (e' & H4 & _)].
  apply when_rules_inv in H4 as (F & _). by rewrite F.
Qed.

(** X13. What the exception of a top-level call says about the node the
    call was made on, by the stage it came from.  From installation
    (line 57) it is [RuntimeError]: nothing but the creation of the map
    has happened.  From the traversal, line 99 was not reached: the
    flag of the node is what it was before the call.  From the
    finalisation it is [KeyError], out of the dump, or
    [AttributeError], out of the write to a file handler without a
    stream: the whole pass, children and Override rules included, had
    run to its end and the node reads initialised although the call
    raised.  The collaborators may raise what they like; if neither
    ever raises [KeyError], a [KeyError] can only have come from the
    finalisation. *)
Theorem X13_stage_an_exception_came_from p m (s : state) e s' :
  has_init_weights m = true →
  has_tracking s p = false →
  run p m s = (Raise e, s') →
  ((install p m s = (Raise e, s') ∧ e = RuntimeError ∧
    _is_init s' = _is_init s ∧
    trace s' = trace s ++ [EInstall p (next_ref s)]) ∨
   (∃ s0, install p m s = (Ok, s0) ∧
          trav p m s0 = (Raise e, s') ∧
          _is_init s' !! p = _is_init s !! p) ∨
   (∃ s0 s1, install p m s = (Ok, s0) ∧
             trav p m s0 = (Ok, s1) ∧
             _finalize_init p m s1 = (Raise e, s') ∧
             (e = KeyError ∨
              (e = AttributeError ∧ stream_ready (log_handlers s) = false)) ∧
             _is_init s' = _is_init s1 ∧
             _is_init s' !! p = Some true)) ∧
  ((∀ q c cfg w, fst (dispatch q c cfg w) ≠ Raise KeyError) →
   (∀ q c info w, fst (update_init_info q c info w) ≠ Raise KeyError) →
   e = KeyError →
   _is_init s' !! p = Some true ∧
   ∃ s0 s1, install p m s = (Ok, s0) ∧ trav p m s0 = (Ok, s1) ∧
            _finalize_init p m s1 = (Raise KeyError, s')).
Proof.
  intros Hw Htop Hrun.
  destruct (top_level_call p m s _ s' Hw Htop Hrun)
    as [[H0 [= ->]] | (s0 & r1 & s1 & H0 & Ht & Ha & _ & _ & Hfin)].
  { split.
    - left. split; [done|]. split; [done|].
      by apply install_inv in H0 as (F & _ & _ & _ & T & _).
    - by intros _ _ [=]. }
  assert (Htr := install_has_tracked _ _ _ _ H0).
  assert (H0' := install_inv _ _ _ _ _ H0).
  destruct H0' as (F0 & _ & L0 & _).
  destruct r1 as [|e1].
  - assert (Hfl := traverse_Ok_root_flag _ _ _ _ Ht).
    assert (Hfr := traverse_frame _ _ _ _ _ Ht). destruct Hfr as (L1 & _).
    assert (Hfin' := Hfin).
    apply finalize_spec in Hfin as (F & _ & _ & _ & evs & _ & He & _).
    2:{ intros q Hq. rewrite Ha. by apply Htr. }
    rewrite L1, L0 in He.
    split.
    + right. right. exists s0, s1. split_and!; try done. by rewrite F.
    + intros _ _ ->. split; [by rewrite F|]. by exists s0, s1.
  - destruct Hfin as [[= ->] ->].
    assert (Hflag := traverse_Raise_root_flag _ _ _ _ _ Ht).
    split.
    + right. left. exists s0. split_and!; [done..|]. by rewrite Hflag, F0.
    + intros Hd Hu ->. exfalso.
      eapply (traverse_no_key_error p m s0); [by split | | done | exact Ht | done].
      intros k nc _ y mq Hy. by eapply nested_no_key_error_below.
Qed.

(** ** What a call that returns leaves behind, on any tree *)

Lemma loop_marks p cs : ∀ i (s s' : state),
  loop run p i cs s = (Ok, s') →
  ∀ k nc q t, cs !! k = Some nc →
              unwrap_model (p ++ [i + k]) (snd nc) = Some (q, t) →
              has_init_weights t = true →
              _is_init s' !! q = Some true.
Proof.
  induction cs as [|nc cs IH]; intros i s s' H k nc' q t Hk Hu Hw; [done|].
  simpl in H. apply bind_inv in H as [(s1 & H1 & H2) | (e & _ & [=])].
  destruct k as [|k]; simpl in Hk.
  - injection Hk as <-. rewrite Nat.add_0_r in Hu.
    eapply loop_rise; [exact H2|].
    revert H1. rewrite child_step_eq, Hu, Hw. unfold is_init_getattr. simpl.
    destruct (_is_init s !! q) as [[]|] eqn:Hf; simpl.
    + by intros [= <-].
    + intros [(s2 & H1 & H3) | (e & _ & [=])]%bind_inv.
      apply update_fields in H3 as (-> & _). by eapply run_Ok_root_flag.
    + intros [(s2 & H1 & H3) | (e & _ & [=])]%bind_inv.
      apply update_fields in H3 as (-> & _). by eapply run_Ok_root_flag.
  - rewrite Nat.add_succ_r in Hu. by eapply (IH (S i)).
Qed.

(** X14. Whatever the flags of the tree were, and whether or not the
    call was top-level, a call that returns leaves the node it was made
    on reading initialised; and if that node was not initialised when
    the call started, then for every one of its direct children, the
    module [unwrap_model] returns for the child reads initialised as
    well if it has [init_weights], whether the loop called it or passed
    it over.  For a child without an attribute named [module] that is
    the child itself. *)
Theorem X14_returning_call_marks_node_and_component_children
        p m (s s' : state) :
  has_init_weights m = true →
  run p m s = (Ok, s') →
  _is_init s' !! p = Some true ∧
  (_is_init s !! p = Some false →
   ∀ k nc,
     children m !! k = Some nc →
     (∀ q t, unwrap_model (p ++ [k]) (snd nc) = Some (q, t) →
             has_init_weights t = true →
             _is_init s' !! q = Some true) ∧
     (no_module_attr (snd nc) = true → has_init_weights (snd nc) = true →
      _is_init s' !! (p ++ [k]) = Some true)).
Proof.
  intros Hw Hrun. split; [by eapply run_Ok_root_flag|].
  intros Hp k nc Hk.
  assert (Hmain : ∀ q t, unwrap_model (p ++ [k]) (snd nc) = Some (q, t) →
                         has_init_weights t = true →
                         _is_init s' !! q = Some true).
  { intros q t Hu Hwc.
    assert (Hq : q ≠ p).
    { intros ->. eapply (modules_child_ne (snd nc) p k p); [|done].
      eapply unwrap_model_modules; [done | apply modules_root]. }
    assert (Ht : ∀ s0 s1 : state,
               _is_init s0 !! p = Some false → trav p m s0 = (Ok, s1) →
               _is_init s1 !! q = Some true).
    { intros s0 s4 Hp0. unfold traverse. rewrite Hp0.
      intros [(s1 & H1 & H2) | (e' & _ & [=])]%bind_inv.
      destruct (partition_cfg (init_cfg m)) as [e0|[o pr]]; [done|].
      apply bind_inv in H2 as [(s2 & H2 & H3) | (e' & _ & [=])].
      apply bind_inv in H3 as [(s3 & H3 & H4) | (e' & _ & [=])].
      apply bind_inv in H4 as [(s5 & H4 & [= <-]) | (e' & _ & [=])].
      apply when_rules_Ok in H4 as (F4 & _). simpl. rewrite F4.
      rewrite lookup_insert_ne by done.
      by apply (loop_marks p (children m) 0 s2 s3 H3 k nc q t). }
    revert Hrun. rewrite init_weights_eq, Hw. simpl.
    destruct (has_tracking s p); [by apply Ht|].
    intros [(s0 & H0 & H1) | (e & _ & [=])]%bind_inv.
    apply bind_inv in H1 as [(s1 & H1 & H2) | (e & _ & [=])].
    apply finalize_flags in H2. rewrite H2.
    apply install_inv in H0 as (F0 & _).
    apply (Ht s0 s1); [by rewrite F0 | done]. }
  split; [done|]. intros Hn Hwc. apply (Hmain _ (snd nc)); [|done].
  by apply no_module_attr_unwrap.
Qed.
End EngineFacts.


(** * Further facts about the copy made by the constructor *)

Section CopyAliasing.

Variable h0 : heap.
Hypothesis h0_wf : heap_wf h0.

Lemma copy_slots_one_to_one f l' sl :
  (∀ x st y st',
      copying h0 st → val_wf (length h0) x → one_to_one (snd st) →
      deepcopy f x st = Some (y, st') → one_to_one (snd st')) →
  length h0 ≤ l' →
  Forall (fun ta => val_wf (length h0) (snd ta)) sl →
  ∀ st st', copying h0 st → one_to_one (snd st) →
            copy_slots (deepcopy f) l' sl st = Some st' → one_to_one (snd st').
Proof.
  intros IHf Hl'. induction 1 as [|ta r Hta _ IH]; intros st st' Hc Hi; simpl.
  - by intros [= <-].
  - destruct (deepcopy f (snd ta) st) as [[a' [h1 mm1]]|] eqn:Hcp; [|done].
    intros Hgo. assert (Hi1 := IHf _ _ _ _ Hc Hta Hi Hcp).
    apply (deepcopy_spec h0 h0_wf) in Hcp as [(Hc1 & _) _]; [|done..].
    revert Hgo. apply IH; [by apply copying_alter | exact Hi1].
Qed.

Lemma deepcopy_one_to_one f : ∀ x st y st',
  copying h0 st → val_wf (length h0) x → one_to_one (snd st) →
  deepcopy f x st = Some (y, st') → one_to_one (snd st').
Proof.
  induction f as [|f IH]; intros x [h mm] y st' Hc Hx Hi; simpl in *.
  - destruct x; try (by intros [= _ <-]).
    destruct (mm !! l); [by intros [= _ <-]|done].
  - destruct x; try (by intros [= _ <-]).
    destruct (mm !! l) as [l'|] eqn:Hl; [by intros [= _ <-]|].
    destruct (h !! l) as [o|] eqn:Ho; [|done].
    destruct (copy_slots _ _ _ _) as [st1|] eqn:Hloop; [|done].
    intros [= _ <-]. destruct Hc as [Hold Hrange]. simpl in *.
    assert (Ho0 : h0 !! l = Some o).
    { destruct (lookup_lt_is_Some_2 h0 l Hx) as [o0 Ho0].
      rewrite (Hold l o0 Ho0) in Ho. by simplify_eq. }
    assert (Hlen0 : length h0 ≤ length h).
    { destruct (decide (length h0 ≤ length h)) as [|Hn]; [done|].
      destruct (lookup_lt_is_Some_2 h0 (length h)) as [o1 Ho1]; [lia|].
      apply Hold, lookup_lt_Some in Ho1. lia. }
    eapply (copy_slots_one_to_one f (length h) (slots o) IH Hlen0) in Hloop;
      [done | | |].
    + by destruct (h0_obj_wf h0 h0_wf l o Ho0).
    + split; simpl.
      * intros x ox Hx'. rewrite lookup_app_l; [by apply Hold|].
        apply lookup_lt_Some in Hx'. lia.
      * intros x x'. rewrite length_app. simpl.
        destruct (decide (l = x)) as [<-|Hne].
        -- rewrite lookup_insert_eq. intros [= <-]. lia.
        -- rewrite lookup_insert_ne by done. intros H%Hrange. lia.
    + simpl. intros l1 l2 l'' H1 H2.
      destruct (decide (l = l1)) as [<-|N1], (decide (l = l2)) as [<-|N2];
        [done | | |].
      * rewrite lookup_insert_eq in H1. rewrite lookup_insert_ne in H2 by done.
        injection H1 as <-. apply Hrange in H2. lia.
      * rewrite lookup_insert_eq in H2. rewrite lookup_insert_ne in H1 by done.
        injection H2 as <-. apply Hrange in H1. lia.
      * rewrite lookup_insert_ne in H1, H2 by done. by eapply Hi.
Qed.

End CopyAliasing.

(** The memo the constructor ends with: a one-to-one correspondence
    between objects of the argument and objects it has allocated, under
    which every copy is, member by member, the image of its source. *)
Lemma constructor_memo (h0 : heap) x fuel y h1 :
  heap_wf h0 → val_wf (length h0) x →
  BaseModule__init__ fuel x h0 = Some (y, h1) →
  ∃ mm,
    vrel mm x y ∧ one_to_one mm ∧
    (∀ l o, h0 !! l = Some o → h1 !! l = Some o) ∧
    ∀ l l', mm !! l = Some l' →
            length h0 ≤ l' < length h1 ∧
            ∃ o o', h0 !! l = Some o ∧ h1 !! l' = Some o' ∧ orel mm o o'.
Proof.
  intros Hwf Hx. unfold BaseModule__init__.
  assert (Hc : copying h0 (h0, ∅)).
  { split; simpl; [done|]. intros ??. by rewrite lookup_empty. }
  destruct (deepcopy fuel x (h0, ∅)) as [[y' [h1' mm]]|] eqn:Hcp; [|done].
  intros [= <- <-]. exists mm.
  assert (Hi : one_to_one mm).
  { by apply (deepcopy_one_to_one h0 Hwf fuel x (h0, ∅) y' (h1', mm)). }
  apply (deepcopy_spec h0 Hwf) in Hcp
    as [([Hold Hrange] & _ & _ & _ & Hnew) Hv]; [|done..].
  simpl in *. split_and!; [done..|].
  intros l l' Hl. split; [by apply Hrange in Hl as [_ ?]|].
  by destruct (Hnew l l' Hl (lookup_empty _)) as [_ ?].
Qed.

Lemma vrel_ref mm x l : vrel mm x (HRef l) → ∃ l0, mm !! l0 = Some l.
Proof.
  destruct x; simpl; try discriminate. intros (l' & Hl & [= ->]). eauto.
Qed.

Lemma orel_member mm o o' v :
  orel mm o o' → v ∈ snd <$> slots o' → ∃ u, vrel mm u v.
Proof.
  destruct o as [xs|kvs], o' as [ys|kvs']; simpl; try done; intros Hrel Hv.
  - rewrite <- list_fmap_compose in Hv.
    apply list_elem_of_fmap in Hv as (y & -> & Hy). simpl.
    apply list_elem_of_lookup in Hy as [i Hi].
    destruct (Forall2_lookup_r _ _ _ _ _ Hrel Hi) as (u & _ & Hu). eauto.
  - rewrite <- list_fmap_compose in Hv.
    apply list_elem_of_fmap in Hv as (y & -> & Hy). simpl.
    apply list_elem_of_lookup in Hy as [i Hi].
    destruct (Forall2_lookup_r _ _ _ _ _ Hrel Hi) as (u & _ & _ & Hu). eauto.
Qed.

Lemma reaches_in_memo (h0 h1 : heap) mm :
  (∀ l l', mm !! l = Some l' →
           ∃ o o', h0 !! l = Some o ∧ h1 !! l' = Some o' ∧ orel mm o o') →
  ∀ v l', reaches h1 v l' →
          (∀ l, v = HRef l → ∃ l0, mm !! l0 = Some l) →
          ∃ l0, mm !! l0 = Some l'.
Proof.
  intros Hmm v l' Hr. induction Hr as [l | l o v l' Ho Hv Hr IH]; intros Hin.
  - by apply Hin.
  - apply IH. intros l2 ->. destruct (Hin l eq_refl) as [l0 Hl0].
    destruct (Hmm l0 l Hl0) as (o0 & o' & _ & Ho' & Hrel).
    rewrite Ho in Ho'. injection Ho' as <-.
    destruct (orel_member _ _ _ _ Hrel Hv) as [u Hu]. by eapply vrel_ref.
Qed.

Lemma reaches_wf (h : heap) :
  heap_wf h → ∀ v l, reaches h v l → val_wf (length h) v → l < length h.
Proof.
  intros Hwf v l Hr. induction Hr as [l | l o v l' Ho Hv Hr IH]; intros Hl; [done|].
  apply IH. unfold heap_wf in Hwf. rewrite Forall_lookup in Hwf.
  destruct (Hwf l o Ho) as [Hsl _]. rewrite Forall_forall in Hsl.
  apply list_elem_of_fmap in Hv as (ta & -> & Hta). by apply Hsl.
Qed.

Lemma decode_local (h0 h2 : heap) :
  heap_wf h0 → (∀ l, l < length h0 → h2 !! l = h0 !! l) →
  ∀ d v, val_wf (length h0) v → decode d h2 v = decode d h0 v.
Proof.
  intros Hwf Hag. induction d as [|d IH]; intros v Hv; destruct v; simpl; try done.
  simpl in Hv. rewrite (Hag l Hv). destruct (h0 !! l) as [o|] eqn:Ho; [|done].
  unfold heap_wf in Hwf. rewrite Forall_lookup in Hwf.
  destruct (Hwf l o Ho) as [Hsl _]. destruct o as [xs|kvs]; simpl in Hsl.
  - f_equal. apply mapM_Forall2, Forall_Forall2_diag.
    rewrite Forall_fmap in Hsl. eapply Forall_impl; [exact Hsl|].
    simpl. intros x Hx. by apply IH.
  - f_equal. apply mapM_Forall2, Forall_Forall2_diag.
    rewrite Forall_fmap in Hsl. eapply Forall_impl; [exact Hsl|].
    simpl. intros kv Hkv. by rewrite IH.
Qed.

(** X9. The value the constructor stores shares no object with its
    argument: every object that can be reached from the stored
    [init_cfg] was allocated by the constructor, whereas everything
    reachable from the argument existed before.  So whatever is later
    done to the node's [init_cfg], or to any object allocated since, the
    caller's object reads as it did. *)
Theorem X9_copy_shares_no_object_with_the_argument (h0 : heap) x fuel y h1 :
  heap_wf h0 → val_wf (length h0) x →
  BaseModule__init__ fuel x h0 = Some (y, h1) →
  (∀ l, reaches h0 x l → l < length h0) ∧
  (∀ l, reaches h1 y l → length h0 ≤ l < length h1) ∧
  ∀ h2, (∀ l, l < length h0 → h2 !! l = h1 !! l) →
        ∀ d, decode d h2 x = decode d h0 x.
Proof.
  intros Hwf Hx Hrun.
  destruct (constructor_memo h0 x fuel y h1 Hwf Hx Hrun)
    as (mm & Hv & _ & Hold & Hmm).
  split_and!.
  - intros l Hr. by eapply reaches_wf.
  - intros l Hr.
    destruct (reaches_in_memo h0 h1 mm) with (v := y) (l' := l) as [l0 Hl0];
      [intros ?? H; by apply Hmm in H as [_ ?] | done | |].
    + intros l2 ->. by eapply vrel_ref.
    + by apply Hmm in Hl0 as [? _].
  - intros h2 Hag d. apply decode_local; [done | | done].
    intros l Hl. rewrite (Hag l Hl).
    destruct (lookup_lt_is_Some_2 h0 l Hl) as [o Ho]. rewrite Ho. by apply Hold.
Qed.

(** X10. The copy has the aliasing of the argument, no more and no less.
    The objects of the argument and the objects of the copy correspond
    one to one, a copy holding, member by member and key by key, the
    counterparts of what its source holds; so two members of the
    argument are one and the same object exactly when their
    counterparts in the copy are: a rule dict listed twice is copied
    once and listed twice, and two equal but distinct dicts stay
    distinct. *)
Theorem X10_copy_keeps_the_aliasing (h0 : heap) x fuel y h1 :
  heap_wf h0 → val_wf (length h0) x →
  BaseModule__init__ fuel x h0 = Some (y, h1) →
  ∃ mm,
    vrel mm x y ∧
    (∀ l l', mm !! l = Some l' →
             ∃ o o', h0 !! l = Some o ∧ h1 !! l' = Some o' ∧ orel mm o o') ∧
    ∀ v1 v2 w1 w2, vrel mm v1 w1 → vrel mm v2 w2 → (v1 = v2 ↔ w1 = w2).
Proof.
  intros Hwf Hx Hrun.
  destruct (constructor_memo h0 x fuel y h1 Hwf Hx Hrun)
    as (mm & Hv & Hi & _ & Hmm).
  exists mm. split_and!; [done | intros ?? H; by apply Hmm in H as [_ ?] |].
  intros v1 v2 w1 w2 H1 H2.
  destruct v1, v2; simpl in H1, H2;
    repeat match goal with
           | H : ∃ _, _ |- _ => destruct H as (? & ? & ->)
           end; subst; try (split; congruence).
  split.
  - intros [= ->]. congruence.
  - intros [= ->]. f_equal. by eapply Hi.
Qed.

(** * Examples on a small network *)

Lemma C8_witness :
  _is_init ex_after_first !! [0] = Some true ∧
  ((∀ r s', ex_init_weights [] ex_net ex_after_first = (r, s') →
            _is_init s' !! [0] = Some true) ∧
   (∀ r s', _finalize_init [] ex_net ex_after_first = (r, s') →
            _is_init s' !! [0] = Some true)).
Proof.
  split; [vm_compute; reflexivity|].
  apply (C8_is_init_never_reset ex_mean ex_repr ex_dispatch ex_update_init_info).
  vm_compute; reflexivity.
Defined.

Lemma ex_net_modules : modules [] ex_net = [[]; [0]; [1]].
Proof. reflexivity. Qed.

Lemma ex_net_bad_modules : modules [] ex_net_bad = [[]; [0]; [1]].
Proof. reflexivity. Qed.

(** C1, as stated, at a network whose root is initialised and to which
    a child was added afterwards: the call returns and the new child is
    still not initialised. *)
Lemma C1_counterexample :
  _is_init ex_grown !! [] = Some true ∧
  fst (ex_init_weights [] ex_net_grown ex_grown) = Ok ∧
  ¬ (∀ k nc, children ex_net_grown !! k = Some nc →
             _is_init ex_grown !! [k] = Some false →
             _is_init (snd (ex_init_weights [] ex_net_grown ex_grown)) !! [k]
             = Some true).
Proof.
  split; [vm_compute; reflexivity|]. split; [vm_compute; reflexivity|].
  intros H. specialize (H 2 _ eq_refl eq_refl). vm_compute in H. discriminate.
Qed.

Lemma C1_witness :
  has_init_weights ex_net_grown = true ∧
  _is_init ex_grown !! [] = Some true ∧
  ex_init_weights [] ex_net_grown ex_grown = (Ok, ex_after_grown) ∧
  _is_init ex_after_grown = _is_init ex_grown ∧
  tensors (st_world ex_after_grown) = tensors (st_world ex_grown) ∧
  ∃ evs, trace ex_after_grown = trace ex_grown ++ evs ∧
         (has_tracking ex_grown [] = true ∨
          mean_defined ex_mean ex_net_grown ex_grown = true →
          ELog WARNING (multiple_times_msg (cls ex_net_grown)) ∈ evs) ∧
         Forall (fun e => is_collaborator_event e = false) evs.
Proof.
  assert (H1 : has_init_weights ex_net_grown = true) by reflexivity.
  assert (H2 : _is_init ex_grown !! [] = Some true) by (vm_compute; reflexivity).
  assert (H3 : ex_init_weights [] ex_net_grown ex_grown = (Ok, ex_after_grown))
    by (vm_compute; reflexivity).
  split; [exact H1|]. split; [exact H2|]. split; [exact H3|].
  exact (C1_initialized_root_is_skipped_with_its_children
           ex_mean ex_repr ex_dispatch ex_update_init_info
           [] ex_net_grown ex_grown _ _ H1 H2 H3).
Defined.


(** C3, as stated, at a network one of whose rules is of unknown kind:
    no node carries the tracking map before the call, the call raises
    what dispatch raised, and the map is not absent from every node
    afterwards. *)
Lemma C3_counterexample :
  untracked (modules [] ex_net_bad) (constructed ex_net_bad) ∧
  fst (ex_init_weights [] ex_net_bad (constructed ex_net_bad))
  = Raise (OtherError "ValueError") ∧
  ¬ untracked (modules [] ex_net_bad)
      (snd (ex_init_weights [] ex_net_bad (constructed ex_net_bad))).
Proof.
  split; [intros q _; apply lookup_empty|].
  split; [vm_compute; reflexivity|].
  intros H. specialize (H [] (modules_root [] ex_net_bad)).
  vm_compute in H. discriminate.
Qed.

Lemma C3_witness :
  has_init_weights ex_net_bad = true ∧
  untracked (modules [] ex_net_bad) (constructed ex_net_bad) ∧
  ex_init_weights [] ex_net_bad (constructed ex_net_bad)
  = (Raise (OtherError "ValueError"), ex_after_failure) ∧
  mean_defined ex_mean ex_net_bad (constructed ex_net_bad) = true ∧
  ∀ q, q ∈ modules [] ex_net_bad →
       _params_init_info ex_after_failure !! q = Some 0.
Proof.
  assert (H1 : has_init_weights ex_net_bad = true) by reflexivity.
  assert (H2 : untracked (modules [] ex_net_bad) (constructed ex_net_bad))
    by (intros q _; apply lookup_empty).
  assert (H3 : ex_init_weights [] ex_net_bad (constructed ex_net_bad)
               = (Raise (OtherError "ValueError"), ex_after_failure))
    by (vm_compute; reflexivity).
  assert (H4 : mean_defined ex_mean ex_net_bad (constructed ex_net_bad) = true)
    by (vm_compute; reflexivity).
  split; [exact H1|]. split; [exact H2|]. split; [exact H3|]. split; [exact H4|].
  destruct (C3_tracking_map_lifetime
              ex_mean ex_repr ex_dispatch ex_update_init_info
              [] ex_net_bad (constructed ex_net_bad) _ _ H1 H2 H3)
    as [(Hm & _) | (_ & s0 & _ & _ & _ & evs & _ & Hend & _)].
  - rewrite H4 in Hm. discriminate Hm.
  - exact Hend.
Defined.

(** C4, as stated, at the network whose root is initialised and to
    which a child was added afterwards: every node is a component, the
    top-level call returns, and the new child is not initialised. *)
Lemma C4_counterexample :
  all_components ex_net_grown = true ∧
  has_tracking ex_grown [] = false ∧
  fst (ex_init_weights [] ex_net_grown ex_grown) = Ok ∧
  ¬ (∀ q, q ∈ modules [] ex_net_grown →
          _is_init (snd (ex_init_weights [] ex_net_grown ex_grown)) !! q
          = Some true).
Proof.
  split; [reflexivity|]. split; [vm_compute; reflexivity|].
  split; [vm_compute; reflexivity|].
  intros H. specialize (H [2]).
  assert (Hin : [2] ∈ modules [] ex_net_grown).
  { apply (list_elem_of_lookup_2 _ 3). reflexivity. }
  specialize (H Hin). vm_compute in H. discriminate.
Qed.

Lemma C4_witness :
  has_tracking (constructed ex_net) [] = false ∧
  ex_init_weights [] ex_net (constructed ex_net) = (Ok, ex_after_first) ∧
  (∀ q, q ∈ modules [] ex_net → _params_init_info ex_after_first !! q = None) ∧
  (∀ q, q ∈ modules [] ex_net → _is_init ex_after_first !! q = Some true).
Proof.
  assert (H1 : all_components ex_net = true) by reflexivity.
  assert (H1' : no_module_attr ex_net = true) by reflexivity.
  assert (H2 : has_tracking (constructed ex_net) [] = false) by reflexivity.
  assert (H3 : ∀ q, q ∈ modules [] ex_net →
                    _is_init (constructed ex_net) !! q = Some false).
  { intros q Hq. rewrite ex_net_modules in Hq.
    repeat (apply elem_of_cons in Hq as [->|Hq]; [vm_compute; reflexivity|]).
    inversion Hq. }
  assert (H4 : ex_init_weights [] ex_net (constructed ex_net)
               = (Ok, ex_after_first)) by (vm_compute; reflexivity).
  split; [exact H2|]. split; [exact H4|].
  destruct (C4_success_initializes_all_and_removes_tracking
              ex_mean ex_repr ex_dispatch ex_update_init_info
              [] ex_net (constructed ex_net) ex_after_first H2 H4)
    as [Ha Hb].
  split; [exact Ha | exact (Hb H1 H1' H3)].
Defined.

(** C5, as stated, at a network the Override rule of whose root names
    no checkpoint: dispatch fails on the root, which is the first node
    of the traversal; its children come after it in that order, and
    they are initialised when the call raises. *)
Lemma C5_counterexample :
  fst (ex_init_weights [] ex_net_late (constructed ex_net_late))
  = Raise (OtherError "FileNotFoundError") ∧
  EApplyFailed [] ex_no_checkpoint (OtherError "FileNotFoundError")
    ∈ trace ex_after_late ∧
  modules [] ex_net_late = [] :: [[0]; [1]] ∧
  (∀ q, q ∈ [[0]; [1]] → _is_init (constructed ex_net_late) !! q = Some false) ∧
  ¬ (∀ q, q ∈ [[0]; [1]] → _is_init ex_after_late !! q = Some false).
Proof.
  split; [vm_compute; reflexivity|]. split.
  { apply (list_elem_of_lookup_2 _ 7). vm_compute. reflexivity. }
  split; [reflexivity|]. split.
  { intros q Hq.
    repeat (apply elem_of_cons in Hq as [->|Hq]; [vm_compute; reflexivity|]).
    inversion Hq. }
  intros H. specialize (H [0]).
  assert (Hin : [0] ∈ [[0]; [1]]) by (apply (list_elem_of_lookup_2 _ 0); reflexivity).
  specialize (H Hin). vm_compute in H. discriminate.
Qed.

Lemma C5_witness :
  ex_init_weights [] ex_net_bad (constructed ex_net_bad)
  = (Raise (OtherError "ValueError"), ex_after_failure) ∧
  EApplyFailed [0] ex_unknown (OtherError "ValueError")
    ∈ drop (length (trace (constructed ex_net_bad))) (trace ex_after_failure) ∧
  (∃ evs, trace ex_after_failure
          = trace (constructed ex_net_bad) ++ evs
            ++ [EApplyFailed [0] ex_unknown (OtherError "ValueError")] ∧
          Forall (fun e => is_failure e = false) evs) ∧
  (∃ l1 l2, completion_order [] ex_net_bad = l1 ++ [0] :: l2 ∧
            ∀ q, q ∈ [0] :: l2 →
                 _is_init ex_after_failure !! q
                 = _is_init (constructed ex_net_bad) !! q).
Proof.
  assert (H1 : ex_init_weights [] ex_net_bad (constructed ex_net_bad)
               = (Raise (OtherError "ValueError"), ex_after_failure))
    by (vm_compute; reflexivity).
  assert (H2 : EApplyFailed [0] ex_unknown (OtherError "ValueError")
               ∈ drop (length (trace (constructed ex_net_bad)))
                      (trace ex_after_failure)).
  { apply (list_elem_of_lookup_2 _ 4). vm_compute. reflexivity. }
  split; [exact H1|]. split; [exact H2|].
  destruct (C5_dispatch_failure_aborts
              ex_mean ex_repr ex_dispatch ex_update_init_info
              [] ex_net_bad (constructed ex_net_bad) _ _ _ _ _ H1 H2)
    as (_ & Hlast & (l1 & l2 & Hco & Hkeep & _) & _).
  split; [exact Hlast|]. exists l1, l2. split; [exact Hco | exact Hkeep].
Defined.

Lemma string_length_app (a b : string) :
  String.length (a +:+ b) = String.length a + String.length b.
Proof. induction a as [|x a IH]; simpl; [done | by rewrite IH]. Qed.

Lemma warning_names_the_method name :
  name +:+ " initializeTree() called multiple times."
  ≠ "Net.init_weights() called multiple times.".
Proof.
  intros H. apply (f_equal String.length) in H as Hlen.
  rewrite string_length_app in Hlen. simpl in Hlen.
  destruct name as [|a [|b name]]; simpl in Hlen; [lia | | lia].
  cbn in H. injection H as _ H. discriminate H.
Qed.

Lemma warning_has_no_space name :
  name +:+ " init_weights() called multiple times."
  ≠ "Net.init_weights() called multiple times.".
Proof.
  intros H. apply (f_equal String.length) in H as Hlen.
  rewrite string_length_app in Hlen. simpl in Hlen.
  destruct name as [|a [|b [|c [|d name]]]]; simpl in Hlen; try lia.
  cbn in H. injection H as _ _ _ H. discriminate H.
Qed.

(** C6, as stated, at the network after its first call: every node is
    initialised, the second call returns, and nothing it logs is a
    warning of the form ["<name> initializeTree() called multiple
    times."], whatever the name, also with the method called by the
    name it has in the code: the text of line 64 is the name of the
    class, a dot, and the name of the method. *)
Lemma C6_counterexample :
  (∀ q, q ∈ modules [] ex_net → _is_init ex_after_first !! q = Some true) ∧
  fst (ex_init_weights [] ex_net ex_after_first) = Ok ∧
  ¬ (∃ name,
        ELog WARNING (name +:+ " initializeTree() called multiple times.")
          ∈ trace ex_after_second ∨
        ELog WARNING (name +:+ " init_weights() called multiple times.")
          ∈ trace ex_after_second).
Proof.
  split.
  { intros q Hq. rewrite ex_net_modules in Hq.
    repeat (apply elem_of_cons in Hq as [->|Hq]; [vm_compute; reflexivity|]).
    inversion Hq. }
  split; [vm_compute; reflexivity|].
  intros [name H].
  remember (trace ex_after_second) as t eqn:Ht. vm_compute in Ht. subst t.
  destruct H as [H | H];
    repeat (apply elem_of_cons in H as [H|H]; [try discriminate H|]);
    try (by inversion H); injection H as H.
  - by apply warning_names_the_method in H.
  - by apply warning_has_no_space in H.
Qed.

Lemma C6_witness :
  has_init_weights ex_net = true ∧
  has_tracking ex_after_first [] = false ∧
  (∀ q, q ∈ modules [] ex_net → _is_init ex_after_first !! q = Some true) ∧
  mean_defined ex_mean ex_net ex_after_first = true ∧
  stream_ready (log_handlers ex_after_first) = true ∧
  ∃ s' evs,
    ex_init_weights [] ex_net ex_after_first = (Ok, s') ∧
    trace s' = trace ex_after_first ++ evs ∧
    List.filter is_collaborator_event evs = [] ∧
    List.filter is_warning evs =
      [ELog WARNING ("Net" +:+ ".init_weights() called multiple times.")] ∧
    untracked (modules [] ex_net) s'.
Proof.
  assert (H1 : has_init_weights ex_net = true) by reflexivity.
  assert (H2 : has_tracking ex_after_first [] = false)
    by (vm_compute; reflexivity).
  assert (H3 : ∀ q, q ∈ modules [] ex_net →
                    _is_init ex_after_first !! q = Some true).
  { intros q Hq. rewrite ex_net_modules in Hq.
    repeat (apply elem_of_cons in Hq as [->|Hq]; [vm_compute; reflexivity|]).
    inversion Hq. }
  assert (H4 : mean_defined ex_mean ex_net ex_after_first = true)
    by (vm_compute; reflexivity).
  assert (H5 : stream_ready (log_handlers ex_after_first) = true)
    by (vm_compute; reflexivity).
  split; [exact H1|]. split; [exact H2|]. split; [exact H3|].
  split; [exact H4|]. split; [exact H5|].
  destruct (C6_second_call_warns_once_and_finalizes
              ex_mean ex_repr ex_dispatch ex_update_init_info
              [] ex_net ex_after_first H1 H2 H3 H4 H5)
    as (s' & evs & Hrun & Ht & _ & _ & Hc & Hwarn & _ & _ & Hun).
  exists s', evs. split; [exact Hrun|]. split; [exact Ht|].
  split; [exact Hc|]. split; [exact Hwarn | exact Hun].
Defined.

Lemma C7_witness :
  Forall (fun c => rule_ok c = true) (rules_of (init_cfg ex_net)) ∧
  partition_cfg (init_cfg ex_net) =
    inr (List.filter (fun c => negb (is_override c)) (rules_of (init_cfg ex_net)),
         List.filter is_override (rules_of (init_cfg ex_net))).
Proof.
  assert (H1 : Forall (fun c => rule_ok c = true) (rules_of (init_cfg ex_net)))
    by (repeat constructor).
  split; [exact H1|].
  exact (proj1 (C7_rule_partitioning
                  ex_mean ex_repr ex_dispatch ex_update_init_info
                  (init_cfg ex_net) H1)).
Defined.


Lemma ex_heap_wf : heap_wf ex_heap.
Proof.
  unfold heap_wf.
  apply Forall_cons; split;
    [|apply Forall_cons; split; [|apply Forall_cons; split; [|by apply Forall_nil]]].
  - split; [repeat constructor|]. simpl.
    apply NoDup_cons. split; [|apply NoDup_singleton].
    intros H%list_elem_of_singleton. discriminate.
  - split; [repeat constructor|]. simpl.
    apply NoDup_cons. split; [|apply NoDup_singleton].
    intros H%list_elem_of_singleton. discriminate.
  - split; [|exact I]. repeat (constructor; [simpl; lia|]). constructor.
Defined.

Lemma C10_witness :
  heap_wf ex_heap ∧ val_wf (length ex_heap) (HRef 2) ∧ length ex_heap ≤ 3 ∧
  ∃ y h1,
    BaseModule__init__ 3 (HRef 2) ex_heap = Some (y, h1) ∧
    (∀ l o, ex_heap !! l = Some o → h1 !! l = Some o) ∧
    (∀ d, decode d h1 y = decode d ex_heap (HRef 2)) ∧
    ∀ h2, (∀ l, length ex_heap ≤ l < length h1 → h2 !! l = h1 !! l) →
          (∀ d, decode d h2 y = decode d h1 y) ∧
          ∀ d c ps ch p (s : @state Z Z),
            (fun m => ex_init_weights p m s) <$> node_of d h2 c y ps ch =
            (fun m => ex_init_weights p m s) <$> node_of d h1 c y ps ch.
Proof.
  assert (H2 : val_wf (length ex_heap) (HRef 2)) by (simpl; lia).
  assert (H3 : length ex_heap ≤ 3) by (simpl; lia).
  split; [exact ex_heap_wf|]. split; [exact H2|]. split; [exact H3|].
  exact (C10_constructor_stores_a_deep_copy
           ex_mean ex_repr ex_dispatch ex_update_init_info
           ex_heap (HRef 2) 3 ex_heap_wf H2 H3).
Defined.

(** * Further examples *)

(** The component inside the plain wrapper is not reached by a call on
    the network; it is given the tracking map all the same, and the map
    is taken away again when the call returns. *)
Lemma X1_witness :
  children ex_net_wrapped !! 1 = Some ("wrap", ex_wrapper) ∧
  skipped ex_wrapper ([] ++ [1]) ex_wrapped = true ∧
  ex_init_weights [] ex_net_wrapped ex_wrapped = (Ok, ex_after_wrapped) ∧
  untouched (modules ([] ++ [1]) ex_wrapper) ex_wrapped ex_after_wrapped ∧
  (∀ q, q ∈ modules ([] ++ [1]) ex_wrapper →
        _params_init_info ex_installed_wrapped !! q = Some 0 ∧
        _params_init_info ex_after_wrapped !! q = None).
Proof.
  assert (H1 : children ex_net_wrapped !! 1 = Some ("wrap", ex_wrapper))
    by reflexivity.
  assert (H2 : skipped ex_wrapper ([] ++ [1]) ex_wrapped = true) by reflexivity.
  assert (H3 : ex_init_weights [] ex_net_wrapped ex_wrapped
               = (Ok, ex_after_wrapped))
    by (vm_compute; reflexivity).
  assert (H4 : install_tracking ex_mean [] ex_net_wrapped ex_wrapped
               = (Ok, ex_installed_wrapped))
    by (vm_compute; reflexivity).
  split; [exact H1|]. split; [exact H2|]. split; [exact H3|].
  destruct (X1_skipped_child_keeps_its_flags
              ex_mean ex_repr ex_dispatch ex_update_init_info
              [] ex_net_wrapped 1 ("wrap", ex_wrapper) ex_wrapped _ _ H1 H2 H3)
    as [Ha Hb].
  split; [exact Ha|].
  exact (proj1 (Hb ex_installed_wrapped eq_refl eq_refl H4)).
Defined.

Lemma X2_witness :
  has_init_weights ex_net = true ∧
  _is_init (constructed ex_net) !! [] = Some false ∧
  ex_init_weights [] ex_net (constructed ex_net) = (Ok, ex_after_first) ∧
  List.filter (is_rule_of [])
    (drop (length (trace (constructed ex_net))) (trace ex_after_first)) =
  map (EApply [])
      (List.filter (fun c => negb (is_override c)) (rules_of (init_cfg ex_net)) ++
       List.filter is_override (rules_of (init_cfg ex_net))).
Proof.
  assert (H1 : has_init_weights ex_net = true) by reflexivity.
  assert (H2 : _is_init (constructed ex_net) !! [] = Some false)
    by (vm_compute; reflexivity).
  assert (H3 : ex_init_weights [] ex_net (constructed ex_net)
               = (Ok, ex_after_first)) by (vm_compute; reflexivity).
  split; [exact H1|]. split; [exact H2|]. split; [exact H3|].
  exact (proj1 (proj2 (X2_every_rule_dispatched_once
                         ex_mean ex_repr ex_dispatch ex_update_init_info
                         [] ex_net (constructed ex_net) ex_after_first
                         H1 H2 H3))).
Defined.

Lemma X3_witness :
  has_init_weights ex_malformed = true ∧
  _is_init (constructed ex_malformed) !! [] = Some false ∧
  List.find (fun c => negb (rule_ok c)) (rules_of (init_cfg ex_malformed))
  = Some (PStr "Constant") ∧
  mean_defined ex_mean ex_malformed (constructed ex_malformed) = true ∧
  ∃ s', ex_init_weights [] ex_malformed (constructed ex_malformed)
        = (Raise AssertionError, s') ∧
        _is_init s' = _is_init (constructed ex_malformed).
Proof.
  assert (H1 : has_init_weights ex_malformed = true) by reflexivity.
  assert (H2 : _is_init (constructed ex_malformed) !! [] = Some false)
    by (vm_compute; reflexivity).
  assert (H3 : List.find (fun c => negb (rule_ok c))
                         (rules_of (init_cfg ex_malformed))
               = Some (PStr "Constant")) by reflexivity.
  assert (H4 : mean_defined ex_mean ex_malformed (constructed ex_malformed) = true)
    by (vm_compute; reflexivity).
  split; [exact H1|]. split; [exact H2|]. split; [exact H3|]. split; [exact H4|].
  destruct (proj1 (X3_malformed_init_cfg_raises
                     ex_mean ex_repr ex_dispatch ex_update_init_info
                     [] ex_malformed (constructed ex_malformed) _ H1 H2 H3)
                  (or_intror H4))
    as (s' & Hrun & Hflags & _).
  exists s'. split; [exact Hrun | exact Hflags].
Defined.

(** The call on the network with the rule of unknown kind raises; a
    second call, on the network with the rule put right, returns, and
    the map of the first call is still on every node. *)
Lemma X4_witness :
  has_init_weights ex_net_bad = true ∧
  has_tracking (constructed ex_net_bad) [] = false ∧
  ex_init_weights [] ex_net_bad (constructed ex_net_bad)
  = (Raise (OtherError "ValueError"), ex_after_failure) ∧
  modules [] ex_net = modules [] ex_net_bad ∧
  ex_init_weights [] ex_net ex_after_failure = (Ok, ex_after_retry) ∧
  mean_defined ex_mean ex_net_bad (constructed ex_net_bad) = true ∧
  ∀ q, q ∈ modules [] ex_net_bad →
       _params_init_info ex_after_retry !! q
       = Some (next_ref (constructed ex_net_bad)).
Proof.
  assert (H1 : has_init_weights ex_net_bad = true) by reflexivity.
  assert (H2 : has_tracking (constructed ex_net_bad) [] = false) by reflexivity.
  assert (H3 : ex_init_weights [] ex_net_bad (constructed ex_net_bad)
               = (Raise (OtherError "ValueError"), ex_after_failure))
    by (vm_compute; reflexivity).
  assert (H4 : modules [] ex_net = modules [] ex_net_bad) by reflexivity.
  assert (H5 : ex_init_weights [] ex_net ex_after_failure = (Ok, ex_after_retry))
    by (vm_compute; reflexivity).
  assert (H6 : mean_defined ex_mean ex_net_bad (constructed ex_net_bad) = true)
    by (vm_compute; reflexivity).
  split; [exact H1|]. split; [exact H2|]. split; [exact H3|].
  split; [exact H4|]. split; [exact H5|]. split; [exact H6|].
  destruct (X4_stale_map_blocks_finalisation
              ex_mean ex_repr ex_dispatch ex_update_init_info
              [] ex_net_bad ex_net (constructed ex_net_bad)
              _ ex_after_failure _ _ H1 H2 H3 H4 H5)
    as (_ & _ & _ & Hdone & _).
  exact (proj1 (proj2 (Hdone H6))).
Defined.

(** When installation raises at the bias of the head, the map is on
    the root only.  A second call on the root is not top-level; the
    call it makes on the first child is: that child gets a map of its
    own, is dumped and cleaned up, and the call on the head raises as
    the first call did. *)
Lemma ex_partial_installation :
  init_weights ex_mean_strict ex_repr ex_dispatch ex_update_init_info
               [] ex_net ex_int_bias
  = (Raise RuntimeError, ex_after_partial) ∧
  trace ex_after_partial = [EInstall [] 0] ∧
  _params_init_info ex_after_partial !! [] = Some 0 ∧
  _params_init_info ex_after_partial !! [0] = None ∧
  _params_init_info ex_after_partial !! [1] = None ∧
  fst (init_weights ex_mean_strict ex_repr ex_dispatch ex_update_init_info
                    [] ex_net ex_after_partial) = Raise RuntimeError ∧
  List.filter is_tracking_event
    (drop (length (trace ex_after_partial)) (trace ex_after_partial_retry))
  = [EInstall [0] 1; ECleanup [0]; EInstall [1] 2] ∧
  _params_init_info ex_after_partial_retry !! [] = Some 0.
Proof. vm_compute. repeat split; reflexivity. Qed.

Lemma X5_witness :
  has_init_weights ex_net = true ∧
  (∀ k nc, children ex_net !! k = Some nc →
           skipped (snd nc) ([] ++ [k]) ex_after_first = true) ∧
  is_init_setter [] false ex_after_first = (Ok, ex_reset) ∧
  ex_init_weights [] ex_net ex_reset = (Ok, ex_after_reset) ∧
  is_init [] ex_reset = Some false ∧
  is_init [] ex_after_reset = Some true.
Proof.
  assert (H1 : has_init_weights ex_net = true) by reflexivity.
  assert (H2 : ∀ k nc, children ex_net !! k = Some nc →
                       skipped (snd nc) ([] ++ [k]) ex_after_first = true).
  { intros [|[|k]] nc H; simpl in H; [| |discriminate];
      injection H as <-; vm_compute; reflexivity. }
  assert (H3 : is_init_setter [] false ex_after_first = (Ok, ex_reset))
    by reflexivity.
  assert (H4 : ex_init_weights [] ex_net ex_reset = (Ok, ex_after_reset))
    by (vm_compute; reflexivity).
  split; [exact H1|]. split; [exact H2|]. split; [exact H3|]. split; [exact H4|].
  destruct (X5_reset_flag_reruns_own_rules_only
              ex_mean ex_repr ex_dispatch ex_update_init_info
              [] ex_net ex_after_first ex_reset _ H1 H2 H3 H4)
    as (Ha & Hb & _).
  split; [exact Ha | exact Hb].
Defined.

Lemma X6_witness :
  _params_init_info ex_tracked !! [] = Some 0 ∧
  report_lines (dicts (st_world ex_tracked) 0) (named_parameters ex_net)
  = Some (unchanged_lines "Net" (named_parameters ex_net)) ∧
  (∃ s', dump_info [] ex_net ex_tracked = (Ok, s') ∧
         trace s' =
           trace ex_tracked ++
           EWrite 1 report_header ::
           map (EWrite 1) (unchanged_lines "Net" (named_parameters ex_net)) ++
           [EFlush 1]) ∧
  dump_info [] ex_net ex_no_stream = (Raise AttributeError, ex_no_stream).
Proof.
  assert (H1 : _params_init_info ex_tracked !! [] = Some 0)
    by (vm_compute; reflexivity).
  assert (H2 : report_lines (dicts (st_world ex_tracked) 0)
                            (named_parameters ex_net)
               = Some (unchanged_lines "Net" (named_parameters ex_net)))
    by (vm_compute; reflexivity).
  assert (H3 : first_file_handler 0 (log_handlers ex_tracked) = Some (1, true))
    by (vm_compute; reflexivity).
  split; [exact H1|]. split; [exact H2|].
  destruct (X6_dump_writes_one_record_per_parameter
              [] ex_net 0 _ ex_tracked H1 H2) as [_ Hh].
  rewrite H3 in Hh. destruct Hh as (_ & _ & s' & Hrun & _ & Ht).
  split; [exists s'; split; [exact Hrun | exact Ht]|].
  destruct (X6_dump_writes_one_record_per_parameter
              [] ex_net 0 _ ex_no_stream H1 H2) as [_ Hh'].
  exact (proj2 (proj2 Hh')).
Defined.

(** The dump of the network grown by a child after the map was
    installed: the parameter of the new child is not in the map. *)
Lemma X7_witness :
  _params_init_info ex_tracked !! [] = Some 0 ∧
  named_parameters ex_net_grown =
    named_parameters ex_net ++
    [("extra.gain", {| p_id := 3; p_shape := "[1]" |})] ∧
  report_lines (dicts (st_world ex_tracked) 0) (named_parameters ex_net)
  = Some (unchanged_lines "Net" (named_parameters ex_net)) ∧
  info_of (dicts (st_world ex_tracked) 0) 3 = None ∧
  stream_ready (log_handlers ex_tracked) = true ∧
  ∃ s', _finalize_init [] ex_net_grown ex_tracked = (Raise KeyError, s') ∧
        _params_init_info s' = _params_init_info ex_tracked.
Proof.
  assert (H1 : _params_init_info ex_tracked !! [] = Some 0)
    by (vm_compute; reflexivity).
  assert (H2 : named_parameters ex_net_grown =
               named_parameters ex_net ++
               [("extra.gain", {| p_id := 3; p_shape := "[1]" |})])
    by (vm_compute; reflexivity).
  assert (H3 : report_lines (dicts (st_world ex_tracked) 0)
                            (named_parameters ex_net)
               = Some (unchanged_lines "Net" (named_parameters ex_net)))
    by (vm_compute; reflexivity).
  assert (H4 : info_of (dicts (st_world ex_tracked) 0) 3 = None)
    by (vm_compute; reflexivity).
  assert (H5 : stream_ready (log_handlers ex_tracked) = true)
    by (vm_compute; reflexivity).
  split; [exact H1|]. split; [exact H2|]. split; [exact H3|]. split; [exact H4|].
  split; [exact H5|].
  destruct (proj1 (X7_missing_description_aborts_finalisation
                     [] ex_net_grown 0 _ _ _ _ _ ex_tracked H1 H2 H3 H4) H5)
    as (s' & Hrun & _ & Ha & _).
  exists s'. split; [exact Hrun | exact Ha].
Defined.

Lemma X8_witness :
  install_tracking ex_mean [] ex_net (constructed ex_net) = (Ok, ex_installed) ∧
  (∀ i, is_Some (dicts (st_world ex_installed) 0 !! i) ↔
        ∃ name prm, (name, prm) ∈ named_parameters_raw "" ex_net ∧ p_id prm = i) ∧
  size (dicts (st_world ex_installed) 0) = length (named_parameters ex_net).
Proof.
  assert (H1 : install_tracking ex_mean [] ex_net (constructed ex_net)
               = (Ok, ex_installed)) by (vm_compute; reflexivity).
  split; [exact H1|].
  exact (proj2 (proj2 (X8_one_tracking_entry_per_parameter_object
                         ex_mean [] ex_net (constructed ex_net) Ok ex_installed
                         H1))).
Defined.

Lemma X9_witness :
  heap_wf ex_heap ∧
  val_wf (length ex_heap) (HRef 2) ∧
  BaseModule__init__ 3 (HRef 2) ex_heap = Some (HRef 3, ex_heap_copied) ∧
  (∀ l, reaches ex_heap (HRef 2) l → l < length ex_heap) ∧
  (∀ l, reaches ex_heap_copied (HRef 3) l →
        length ex_heap ≤ l < length ex_heap_copied).
Proof.
  assert (H2 : val_wf (length ex_heap) (HRef 2)) by (simpl; lia).
  assert (H3 : BaseModule__init__ 3 (HRef 2) ex_heap
               = Some (HRef 3, ex_heap_copied)) by (vm_compute; reflexivity).
  split; [exact ex_heap_wf|]. split; [exact H2|]. split; [exact H3|].
  destruct (X9_copy_shares_no_object_with_the_argument
              ex_heap (HRef 2) 3 (HRef 3) ex_heap_copied ex_heap_wf H2 H3)
    as (Ha & Hb & _).
  split; [exact Ha | exact Hb].
Defined.

Lemma X10_witness :
  heap_wf ex_heap ∧
  val_wf (length ex_heap) (HRef 2) ∧
  BaseModule__init__ 3 (HRef 2) ex_heap = Some (HRef 3, ex_heap_copied) ∧
  ∃ mm,
    vrel mm (HRef 2) (HRef 3) ∧
    ∀ v1 v2 w1 w2, vrel mm v1 w1 → vrel mm v2 w2 → (v1 = v2 ↔ w1 = w2).
Proof.
  assert (H2 : val_wf (length ex_heap) (HRef 2)) by (simpl; lia).
  assert (H3 : BaseModule__init__ 3 (HRef 2) ex_heap
               = Some (HRef 3, ex_heap_copied)) by (vm_compute; reflexivity).
  split; [exact ex_heap_wf|]. split; [exact H2|]. split; [exact H3|].
  destruct (X10_copy_keeps_the_aliasing
              ex_heap (HRef 2) 3 (HRef 3) ex_heap_copied ex_heap_wf H2 H3)
    as (mm & Ha & _ & Hb).
  exists mm. split; [exact Ha | exact Hb].
Defined.

(** The first child of the network is initialised when the call on the
    reset root starts. *)
Lemma X11_witness :
  _is_init ex_reset !! [0] = Some true ∧
  ex_init_weights [] ex_net ex_reset = (Ok, ex_after_reset) ∧
  ∃ evs, trace ex_after_reset = trace ex_reset ++ evs ∧
         Forall (fun e => is_collaborator_event e = true →
                          ev_path e ≠ Some [0]) evs.
Proof.
  assert (H1 : _is_init ex_reset !! [0] = Some true) by (vm_compute; reflexivity).
  assert (H2 : ex_init_weights [] ex_net ex_reset = (Ok, ex_after_reset))
    by (vm_compute; reflexivity).
  split; [exact H1|]. split; [exact H2|].
  exact (X11_initialised_nodes_are_handed_nothing
           ex_mean ex_repr ex_dispatch ex_update_init_info
           [] ex_net ex_reset _ _ [0] H1 H2).
Defined.

Lemma X12_witness :
  (∀ q c cfg (w : @world Z Z),
      tensors w 0 = 0%Z → tensors (snd (ex_dispatch_ro q c cfg w)) 0 = 0%Z) ∧
  (∀ q c info (w : @world Z Z),
      tensors w 0 = 0%Z →
      tensors (snd (ex_update_init_info q c info w)) 0 = 0%Z) ∧
  tensors (st_world (constructed ex_net)) 0 = 0%Z ∧
  tensors (st_world (snd (init_weights ex_mean ex_repr ex_dispatch_ro
                                       ex_update_init_info [] ex_net
                                       (constructed ex_net)))) 0 = 0%Z.
Proof.
  assert (H1 : ∀ q c cfg (w : @world Z Z),
             tensors w 0 = 0%Z →
             tensors (snd (ex_dispatch_ro q c cfg w)) 0 = 0%Z)
    by (intros q c cfg w H; exact H).
  assert (H2 : ∀ q c info (w : @world Z Z),
             tensors w 0 = 0%Z →
             tensors (snd (ex_update_init_info q c info w)) 0 = 0%Z)
    by (intros q c info w H; exact H).
  assert (H3 : tensors (st_world (constructed ex_net)) 0 = 0%Z) by reflexivity.
  split; [exact H1|]. split; [exact H2|]. split; [exact H3|].
  exact (X12_only_the_collaborators_write_buffers
           ex_mean ex_repr ex_dispatch_ro ex_update_init_info
           (fun t => t 0 = 0%Z) [] ex_net (constructed ex_net)
           (fst (init_weights ex_mean ex_repr ex_dispatch_ro
                              ex_update_init_info [] ex_net (constructed ex_net)))
           _ H1 H2 (surjective_pairing _) H3).
Defined.

(** The call on the network with the rule of unknown kind raised in
    the traversal: the root is not initialised. *)
Lemma X13_witness :
  has_init_weights ex_net_bad = true ∧
  has_tracking (constructed ex_net_bad) [] = false ∧
  ex_init_weights [] ex_net_bad (constructed ex_net_bad)
  = (Raise (OtherError "ValueError"), ex_after_failure) ∧
  _is_init ex_after_failure !! [] = _is_init (constructed ex_net_bad) !! [].
Proof.
  assert (H1 : has_init_weights ex_net_bad = true) by reflexivity.
  assert (H2 : has_tracking (constructed ex_net_bad) [] = false) by reflexivity.
  assert (H3 : ex_init_weights [] ex_net_bad (constructed ex_net_bad)
               = (Raise (OtherError "ValueError"), ex_after_failure))
    by (vm_compute; reflexivity).
  split; [exact H1|]. split; [exact H2|]. split; [exact H3|].
  destruct (proj1 (X13_stage_an_exception_came_from
                     ex_mean ex_repr ex_dispatch ex_update_init_info
                     [] ex_net_bad (constructed ex_net_bad) _ _ H1 H2 H3))
    as [(_ & He & _) | [(s0 & _ & _ & Hflag) | (s0 & s1 & _ & _ & _ & He & _)]].
  - discriminate He.
  - exact Hflag.
  - destruct He as [He | [He _]]; discriminate He.
Defined.

(** On the network whose first child is held by a wrapper under the
    name [module]: the root reads initialised after the call, and so
    does the component the wrapper holds, which is what the loop
    called. *)
Lemma X14_witness :
  has_init_weights ex_net_parallel = true ∧
  ex_init_weights [] ex_net_parallel ex_parallel_state = (Ok, ex_after_parallel) ∧
  _is_init ex_after_parallel !! [] = Some true ∧
  unwrap_model ([] ++ [0]) ex_parallel = Some ([0; 0], ex_conv) ∧
  _is_init ex_after_parallel !! [0; 0] = Some true.
Proof.
  assert (H1 : has_init_weights ex_net_parallel = true) by reflexivity.
  assert (H2 : ex_init_weights [] ex_net_parallel ex_parallel_state
               = (Ok, ex_after_parallel))
    by (vm_compute; reflexivity).
  assert (H3 : _is_init ex_parallel_state !! [] = Some false)
    by (vm_compute; reflexivity).
  assert (H4 : unwrap_model ([] ++ [0]) ex_parallel = Some ([0; 0], ex_conv))
    by reflexivity.
  split; [exact H1|]. split; [exact H2|].
  destruct (X14_returning_call_marks_node_and_component_children
              ex_mean ex_repr ex_dispatch ex_update_init_info
              [] ex_net_parallel ex_parallel_state ex_after_parallel H1 H2)
    as [Ha Hb].
  split; [exact Ha|]. split; [exact H4|].
  exact (proj1 (Hb H3 0 ("conv", ex_parallel) eq_refl) [0; 0] ex_conv H4 eq_refl).
Defined.
